(** * fexpr: the filter scanner and its parser, embedded in Rocq

    The scanner of [scanner.go] is translated function by function.  The
    buffer is a list of bytes, a rune is an integer, the cursor is the
    integer field [pos] of the scanner, and every loop of the source is a
    recursive function on an explicit iteration budget. *)

From Stdlib Require Import List ZArith Ascii String Bool Lia.
Import ListNotations.
Local Open Scope Z_scope.

(** ** Bytes and runes *)

Definition byte := ascii.
Definition rune := Z.

Definition b2z (b : byte) : Z := Z.of_N (N_of_ascii b).
Definition z2b (z : Z) : byte := ascii_of_N (Z.to_N z).

(** The rune of an ASCII character constant, as in ['('] of the source. *)
Definition rn (c : ascii) : rune := b2z c.
Arguments rn c%_char.

(** A Go string or byte-slice literal. *)
Definition B (s : string) : list byte := list_ascii_of_string s.
Arguments B s%_string.

(** ** The parts of Go's [unicode/utf8] that the scanner calls

    [utf8.DecodeRune] and the encoder behind [bytes.Buffer.WriteRune] and
    [string(rune)] belong to the Go standard library; they are written out
    here after the library's code, tables included. *)
Module utf8.

Definition RuneError : rune := 0xFFFD.
Definition MaxRune : rune := 0x10FFFF.
Definition surrogateMin : rune := 0xD800.
Definition surrogateMax : rune := 0xDFFF.

Definition locb : Z := 0x80.
Definition hicb : Z := 0xBF.

Definition xx : Z := 0xF1.
Definition as_ : Z := 0xF0.
Definition s1 : Z := 0x02.
Definition s2 : Z := 0x13.
Definition s3 : Z := 0x03.
Definition s4 : Z := 0x23.
Definition s5 : Z := 0x34.
Definition s6 : Z := 0x04.
Definition s7 : Z := 0x44.

(** The table [first]: information about the first byte of an encoding. *)
Definition first (p0 : Z) : Z :=
  if p0 <? 0x80 then as_
  else if p0 <? 0xC2 then xx
  else if p0 <? 0xE0 then s1
  else if p0 =? 0xE0 then s2
  else if p0 <? 0xED then s3
  else if p0 =? 0xED then s4
  else if p0 <? 0xF0 then s3
  else if p0 =? 0xF0 then s5
  else if p0 <? 0xF4 then s6
  else if p0 =? 0xF4 then s7
  else xx.

(** The table [acceptRanges]: the range of a valid second byte. *)
Definition acceptRanges (i : Z) : Z * Z :=
  if i =? 1 then (0xA0, hicb)
  else if i =? 2 then (locb, 0x9F)
  else if i =? 3 then (0x90, hicb)
  else if i =? 4 then (locb, 0x8F)
  else (locb, hicb).

Definition at_ (p : list byte) (i : nat) : Z := b2z (nth i p zero).

(** [DecodeRune p]: the first rune of [p] and its width in bytes;
    [(RuneError, 0)] for an empty [p], [(RuneError, 1)] for an invalid
    encoding. *)
Definition DecodeRune (p : list byte) : rune * Z :=
  let n := Z.of_nat (List.length p) in
  if n <? 1 then (RuneError, 0) else
  let p0 := at_ p 0 in
  let x := first p0 in
  if as_ <=? x then
    (* mask is all ones for [xx], zero for [as] *)
    let mask := if Z.odd x then (-1) else 0 in
    (Z.lor (Z.land p0 (Z.lnot mask)) (Z.land RuneError mask), 1)
  else
  let sz := Z.land x 7 in
  let accept := acceptRanges (Z.shiftr x 4) in
  if n <? sz then (RuneError, 1) else
  let b1 := at_ p 1 in
  if (b1 <? fst accept) || (snd accept <? b1) then (RuneError, 1) else
  if sz <=? 2 then
    (Z.lor (Z.shiftl (Z.land p0 0x1F) 6) (Z.land b1 0x3F), 2)
  else
  let b2 := at_ p 2 in
  if (b2 <? locb) || (hicb <? b2) then (RuneError, 1) else
  if sz <=? 3 then
    (Z.lor (Z.lor (Z.shiftl (Z.land p0 0x0F) 12) (Z.shiftl (Z.land b1 0x3F) 6))
           (Z.land b2 0x3F), 3)
  else
  let b3 := at_ p 3 in
  if (b3 <? locb) || (hicb <? b3) then (RuneError, 1) else
  (Z.lor (Z.lor (Z.lor (Z.shiftl (Z.land p0 0x07) 18)
                       (Z.shiftl (Z.land b1 0x3F) 12))
                (Z.shiftl (Z.land b2 0x3F) 6))
         (Z.land b3 0x3F), 4).

Definition enc3 (r : rune) : list byte :=
  [ z2b (Z.lor 0xE0 (Z.shiftr r 12));
    z2b (Z.lor 0x80 (Z.land (Z.shiftr r 6) 0x3F));
    z2b (Z.lor 0x80 (Z.land r 0x3F)) ].

(** [AppendRune nil r]: the UTF-8 encoding of [r]; the encoding of
    [RuneError] for a rune out of range or a surrogate. *)
Definition EncodeRune (r : rune) : list byte :=
  if (0 <=? r) && (r <? 0x80) then [z2b r]
  else if (0 <=? r) && (r <=? 0x7FF) then
    [ z2b (Z.lor 0xC0 (Z.shiftr r 6)); z2b (Z.lor 0x80 (Z.land r 0x3F)) ]
  else if (r <? 0) || (MaxRune <? r)
          || ((surrogateMin <=? r) && (r <=? surrogateMax)) then
    enc3 RuneError
  else if r <=? 0xFFFF then enc3 r
  else
    [ z2b (Z.lor 0xF0 (Z.shiftr r 18));
      z2b (Z.lor 0x80 (Z.land (Z.shiftr r 12) 0x3F));
      z2b (Z.lor 0x80 (Z.land (Z.shiftr r 6) 0x3F));
      z2b (Z.lor 0x80 (Z.land r 0x3F)) ].

End utf8.

(** [buf.WriteRune(ch)] on a [bytes.Buffer] whose content is [buf]. *)
Definition WriteRune (buf : list byte) (ch : rune) : list byte :=
  buf ++ utf8.EncodeRune ch.

(** ** Tokens (scanner.go, lines 10-70) *)

Definition eof : rune := 0.

Inductive JoinOp := JoinAnd | JoinOr.

Inductive SignOp :=
| SignEq | SignNeq | SignLike | SignNlike | SignLt | SignLte | SignGt | SignGte
| SignAnyEq | SignAnyNeq | SignAnyLike | SignAnyNlike
| SignAnyLt | SignAnyLte | SignAnyGt | SignAnyGte.

Inductive TokenType :=
| TokenUnexpected | TokenEOF | TokenWS | TokenJoin | TokenSign
| TokenIdentifier | TokenFunction | TokenNumber | TokenText | TokenGroup
| TokenComment.

(** [Meta] is [nil] except for the tokens built by [scanFunctionArgs],
    where it holds the argument tokens. *)
#[warnings="-register-all"]
Inductive Token :=
| mkToken (Meta : option (list Token)) (Type_ : TokenType) (Literal : list byte).

Definition Meta (t : Token) := let 'mkToken m _ _ := t in m.
Definition Type_ (t : Token) := let 'mkToken _ k _ := t in k.
Definition Literal (t : Token) := let 'mkToken _ _ l := t in l.

Definition TokenType_eqb (a b : TokenType) : bool :=
  match a, b with
  | TokenUnexpected, TokenUnexpected | TokenEOF, TokenEOF | TokenWS, TokenWS
  | TokenJoin, TokenJoin | TokenSign, TokenSign
  | TokenIdentifier, TokenIdentifier | TokenFunction, TokenFunction
  | TokenNumber, TokenNumber | TokenText, TokenText | TokenGroup, TokenGroup
  | TokenComment, TokenComment => true
  | _, _ => false
  end.

(** The errors of the scanner, one constructor per [fmt.Errorf] (and one
    for the package variable [ErrInvalidComment]); [%w] keeps the wrapped
    error. *)
Inductive error :=
| ErrUnexpectedChar (ch : rune)
| ErrInvalidNumber (literal : list byte)
| ErrInvalidQuotedText (literal : list byte)
| ErrInvalidComment
| ErrMaxNestedFunc (max : Z)
| ErrInvalidFuncName (name : list byte)
| ErrInvalidIdentifier (literal : list byte)
| ErrInvalidSign (literal : list byte)
| ErrInvalidJoin (literal : list byte)
| ErrMissingBrackets (open : Z)
| ErrInvalidFuncCall (name : list byte)
| ErrFuncWhitespace (name : list byte) (inner : error)
| ErrFuncComment (name : list byte) (inner : error)
| ErrExpectedComma (name : list byte)
| ErrUnexpectedComma (name : list byte)
| ErrIdentifierArg (literal name : list byte) (inner : error)
| ErrNumberArg (literal name : list byte) (inner : error)
| ErrTextArg (literal name : list byte) (inner : error)
| ErrUnsupportedArgChar (ch : rune) (name : list byte)
| ErrIncompleteFunc (name : list byte).

(** ** The scanner state (scanner.go, lines 72-85) *)

Record Scanner := mkScanner {
  data : list byte;
  pos : Z;
  maxFuncDepth : Z
}.

Definition NewScanner (d : list byte) : Scanner :=
  {| data := d; pos := 0; maxFuncDepth := 3 |}.

Definition len (s : Scanner) : Z := Z.of_nat (List.length (data s)).

Definition setPos (s : Scanner) (p : Z) : Scanner :=
  {| data := data s; pos := p; maxFuncDepth := maxFuncDepth s |}.

(** [s.data[s.pos:]]; the cursor is never negative where this is used. *)
Definition rest (s : Scanner) : list byte := skipn (Z.to_nat (pos s)) (data s).

(** [unread] (lines 546-551). *)
Definition unread (s : Scanner) : Scanner :=
  if 0 <? pos s then setPos s (pos s - 1) else s.

(** [read] (lines 553-563). *)
Definition read (s : Scanner) : rune * Scanner :=
  if len s <=? pos s then (eof, s)
  else
    let '(ch, n) := utf8.DecodeRune (rest s) in
    (ch, setPos s (pos s + n)).

(** ** Lexical helpers (lines 565-679) *)

Definition isWhitespaceRune (ch : rune) : bool :=
  (ch =? rn " ") || (ch =? 9) || (ch =? 10).

Definition isLetterRune (ch : rune) : bool :=
  ((rn "a" <=? ch) && (ch <=? rn "z")) || ((rn "A" <=? ch) && (ch <=? rn "Z")).

Definition isDigitRune (ch : rune) : bool :=
  (rn "0" <=? ch) && (ch <=? rn "9").

Definition isTextStartRune (ch : rune) : bool :=
  (ch =? rn "'") || (ch =? 34).

Definition isNumberStartRune (ch : rune) : bool :=
  (ch =? rn "-") || isDigitRune ch.

Definition isSignStartRune (ch : rune) : bool :=
  (ch =? rn "=") || (ch =? rn "?") || (ch =? rn "!")
  || (ch =? rn ">") || (ch =? rn "<") || (ch =? rn "~").

Definition isJoinStartRune (ch : rune) : bool :=
  (ch =? rn "&") || (ch =? rn "|").

Definition isGroupStartRune (ch : rune) : bool := ch =? rn "(".

Definition isCommentStartRune (ch : rune) : bool := ch =? rn "/".

Definition isIdentifierSpecialStartRune (ch : rune) : bool :=
  (ch =? rn "@") || (ch =? rn "_") || (ch =? rn "#").

Definition isIdentifierStartRune (ch : rune) : bool :=
  isLetterRune ch || isIdentifierSpecialStartRune ch.

Definition isIdentifierCombineRune (ch : rune) : bool :=
  (ch =? rn ".") || (ch =? rn ":").

Definition bytes_eqb (a b : list byte) : bool :=
  if list_eq_dec ascii_dec a b then true else false.

Definition signOfLiteral (literal : list byte) : option SignOp :=
  if bytes_eqb literal (B "=") then Some SignEq
  else if bytes_eqb literal (B "!=") then Some SignNeq
  else if bytes_eqb literal (B "~") then Some SignLike
  else if bytes_eqb literal (B "!~") then Some SignNlike
  else if bytes_eqb literal (B "<") then Some SignLt
  else if bytes_eqb literal (B "<=") then Some SignLte
  else if bytes_eqb literal (B ">") then Some SignGt
  else if bytes_eqb literal (B ">=") then Some SignGte
  else if bytes_eqb literal (B "?=") then Some SignAnyEq
  else if bytes_eqb literal (B "?!=") then Some SignAnyNeq
  else if bytes_eqb literal (B "?~") then Some SignAnyLike
  else if bytes_eqb literal (B "?!~") then Some SignAnyNlike
  else if bytes_eqb literal (B "?<") then Some SignAnyLt
  else if bytes_eqb literal (B "?<=") then Some SignAnyLte
  else if bytes_eqb literal (B "?>") then Some SignAnyGt
  else if bytes_eqb literal (B "?>=") then Some SignAnyGte
  else None.

Definition isSignOperator (literal : list byte) : bool :=
  match signOfLiteral literal with Some _ => true | None => false end.

Definition isJoinOperator (literal : list byte) : bool :=
  bytes_eqb literal (B "&&") || bytes_eqb literal (B "||").

(** [isValidIdentifier]; [None] is the index-out-of-range panic of
    [literal[length-1]] on an empty literal. *)
Definition isValidIdentifier (literal : list byte) : option bool :=
  match literal with
  | [] => None
  | c0 :: _ =>
    let length_ := Z.of_nat (List.length literal) in
    Some (negb (isIdentifierCombineRune (b2z (last literal zero)))
          && (negb (length_ =? 1) || negb (isIdentifierSpecialStartRune (b2z c0))))
  end.

(** ** Results of a scan

    A sub-scanner returns its token, its error and the scanner it leaves
    behind.  [Panic] is a Go run-time panic (an index out of range);
    [OutOfFuel] says that a loop used up its iteration budget, which the
    budgets chosen below never allow (see [Scan_returns]). *)
Inductive outcome (A : Type) : Type :=
| Ret (a : A) (s : Scanner)
| Panic
| OutOfFuel.
Arguments Ret {A} a s.
Arguments Panic {A}.
Arguments OutOfFuel {A}.

Definition scanned : Type := outcome (Token * option error).

(** The bytes still to be read, and the budget of a loop that reads at
    least one byte in every iteration but its last. *)
Definition remaining (s : Scanner) : nat := Z.to_nat (len s - pos s).
Definition loopFuel (s : Scanner) : nat := S (remaining s).

(** *** scanWhitespace (lines 138-161), scanSign (lines 330-360) and
    scanJoin (lines 362-392)

    The three loops are the same but for the rune class they accept. *)

Fixpoint scanRunLoop (accept : rune -> bool) (fuel : nat) (s : Scanner)
  (buf : list byte) : outcome (list byte) :=
  match fuel with
  | O => OutOfFuel
  | S fuel' =>
    let '(ch, s1) := read s in
    if ch =? eof then Ret buf s1
    else if negb (accept ch) then Ret buf (unread s1)
    else scanRunLoop accept fuel' s1 (WriteRune buf ch)
  end.

Definition scanWhitespace (s : Scanner) : scanned :=
  match scanRunLoop isWhitespaceRune (loopFuel s) s [] with
  | Ret buf s' => Ret (mkToken None TokenWS buf, None) s'
  | Panic => Panic
  | OutOfFuel => OutOfFuel
  end.

Definition scanSign (s : Scanner) : scanned :=
  match scanRunLoop isSignStartRune (loopFuel s) s [] with
  | Ret literal s' =>
    Ret (mkToken None TokenSign literal,
         if negb (isSignOperator literal) then Some (ErrInvalidSign literal)
         else None) s'
  | Panic => Panic
  | OutOfFuel => OutOfFuel
  end.

Definition scanJoin (s : Scanner) : scanned :=
  match scanRunLoop isJoinStartRune (loopFuel s) s [] with
  | Ret literal s' =>
    Ret (mkToken None TokenJoin literal,
         if negb (isJoinOperator literal) then Some (ErrInvalidJoin literal)
         else None) s'
  | Panic => Panic
  | OutOfFuel => OutOfFuel
  end.

(** *** scanNumber (lines 163-207) *)

Fixpoint scanNumberLoop (fuel : nat) (s : Scanner) (buf : list byte)
  (hadDot : bool) : outcome (list byte) :=
  match fuel with
  | O => OutOfFuel
  | S fuel' =>
    let '(ch, s1) := read s in
    if ch =? eof then Ret buf s1
    else if negb (isDigitRune ch)
            && (negb (ch =? rn "-") || negb (Z.of_nat (List.length buf) =? 0))
            && (negb (ch =? rn ".") || hadDot)
    then Ret buf (unread s1)
    else scanNumberLoop fuel' s1 (WriteRune buf ch)
                        (if ch =? rn "." then true else hadDot)
  end.

(** [literal[0]] on an empty buffer panics. *)
Definition scanNumber (s : Scanner) : scanned :=
  match scanNumberLoop (loopFuel s) s [] false with
  | Ret literal s' =>
    match literal with
    | [] => Panic
    | c0 :: _ =>
      let total := Z.of_nat (List.length literal) in
      let err :=
        if ((total =? 1) && (b2z c0 =? rn "-"))
           || (b2z c0 =? rn ".")
           || (b2z (last literal zero) =? rn ".")
        then Some (ErrInvalidNumber literal) else None in
      Ret (mkToken None TokenNumber literal, err) s'
    end
  | Panic => Panic
  | OutOfFuel => OutOfFuel
  end.

(** *** scanText (lines 209-254) *)

Fixpoint isPrefix (p l : list byte) : bool :=
  match p, l with
  | [], _ => true
  | a :: p', b :: l' => (if ascii_dec a b then true else false) && isPrefix p' l'
  | _ :: _, [] => false
  end.

(** [strings.ReplaceAll s old new] of the Go library for a non-empty
    [old]: the occurrences of [old] are replaced from left to right without
    overlap; [skip] counts the bytes of a match still to be dropped. *)
Fixpoint replaceFrom (skip : nat) (old new s : list byte) : list byte :=
  match s with
  | [] => []
  | c :: t =>
    match skip with
    | S k => replaceFrom k old new t
    | O =>
      if isPrefix old s then new ++ replaceFrom (List.length old - 1) old new t
      else c :: replaceFrom O old new t
    end
  end.

Definition ReplaceAll (s old new : list byte) : list byte :=
  replaceFrom O old new s.

(** [l[lo:hi]] where [lo <= hi <= len(l)]. *)
Definition slice (l : list byte) (lo hi : nat) : list byte :=
  firstn (hi - lo) (skipn lo l).

(** The loop returns the buffer and [hasMatchingQuotes]. *)
Fixpoint scanTextLoop (fuel : nat) (s : Scanner) (firstCh prevCh : rune)
  (buf : list byte) : outcome (list byte * bool) :=
  match fuel with
  | O => OutOfFuel
  | S fuel' =>
    let '(ch, s1) := read s in
    if ch =? eof then Ret (buf, false) s1
    else
      let buf1 := WriteRune buf ch in
      if (ch =? firstCh) && negb (prevCh =? rn "\") then Ret (buf1, true) s1
      else scanTextLoop fuel' s1 firstCh ch buf1
  end.

Definition backslash : byte := "\"%char.

Definition scanText (preserveQuotes : bool) (s : Scanner) : scanned :=
  let '(firstCh, s1) := read s in
  match scanTextLoop (loopFuel s1) s1 firstCh 0 (WriteRune [] firstCh) with
  | Ret (literal, hasMatchingQuotes) s' =>
    if negb hasMatchingQuotes then
      Ret (mkToken None TokenText literal, Some (ErrInvalidQuotedText literal)) s'
    else if negb preserveQuotes then
      let unquoted := slice literal 1 (List.length literal - 1) in
      let firstChStr := utf8.EncodeRune firstCh in
      Ret (mkToken None TokenText
             (ReplaceAll unquoted (backslash :: firstChStr) firstChStr), None) s'
    else Ret (mkToken None TokenText literal, None) s'
  | Panic => Panic
  | OutOfFuel => OutOfFuel
  end.

(** *** scanComment (lines 256-279) *)

(** [unicode.IsSpace] of the Go library. *)
Definition isSpace (r : rune) : bool :=
  ((9 <=? r) && (r <=? 13)) || (r =? 0x20) || (r =? 0x85) || (r =? 0xA0)
  || (r =? 0x1680) || ((0x2000 <=? r) && (r <=? 0x200A))
  || (r =? 0x2028) || (r =? 0x2029) || (r =? 0x202F) || (r =? 0x205F)
  || (r =? 0x3000).

(** The runes of a byte string, each with the bytes it was decoded from. *)
Fixpoint runesOf (fuel : nat) (p : list byte) : list (rune * list byte) :=
  match fuel, p with
  | O, _ | _, [] => []
  | S fuel', _ :: _ =>
    let '(r, n) := utf8.DecodeRune p in
    (r, firstn (Z.to_nat n) p) :: runesOf fuel' (skipn (Z.to_nat n) p)
  end.

Fixpoint dropSpaces (l : list (rune * list byte)) : list (rune * list byte) :=
  match l with
  | [] => []
  | (r, bs) :: t => if isSpace r then dropSpaces t else l
  end.

(** [strings.TrimSpace] of the Go library: the leading and the trailing
    white space runes are removed.  (The buffers it is applied to are
    written by [WriteRune], hence valid UTF-8, where decoding from the
    front and from the back meet the same runes.) *)
Definition TrimSpace (p : list byte) : list byte :=
  let kept := rev (dropSpaces (rev (dropSpaces (runesOf (List.length p) p)))) in
  List.concat (map snd kept).

Fixpoint scanCommentLoop (fuel : nat) (s : Scanner) (buf : list byte)
  : outcome (list byte) :=
  match fuel with
  | O => OutOfFuel
  | S fuel' =>
    let '(ch, s1) := read s in
    if (ch =? eof) || (ch =? 10) then Ret buf s1
    else scanCommentLoop fuel' s1 (WriteRune buf ch)
  end.

Definition scanComment (s : Scanner) : scanned :=
  let '(c1, s1) := read s in
  if negb (isCommentStartRune c1) then
    Ret (mkToken None TokenComment [], Some ErrInvalidComment) s1
  else
  let '(c2, s2) := read s1 in
  if negb (isCommentStartRune c2) then
    Ret (mkToken None TokenComment [], Some ErrInvalidComment) s2
  else
  match scanCommentLoop (loopFuel s2) s2 [] with
  | Ret buf s' => Ret (mkToken None TokenComment (TrimSpace buf), None) s'
  | Panic => Panic
  | OutOfFuel => OutOfFuel
  end.

(** *** scanGroup (lines 394-447) *)

(** The loop returns the buffer, [openGroups] and the error of a failed
    quoted text, if any. *)
Fixpoint scanGroupLoop (fuel : nat) (s : Scanner) (openGroups : Z)
  (buf : list byte) : outcome (list byte * Z * option error) :=
  match fuel with
  | O => OutOfFuel
  | S fuel' =>
    let '(ch, s1) := read s in
    if ch =? eof then Ret (buf, openGroups, None) s1
    else if isGroupStartRune ch then
      scanGroupLoop fuel' s1 (openGroups + 1) (WriteRune buf ch)
    else if isTextStartRune ch then
      match scanText true (unread s1) with
      | Ret (t, Some err) s2 => Ret (buf ++ Literal t, openGroups, Some err) s2
      | Ret (t, None) s2 => scanGroupLoop fuel' s2 openGroups (buf ++ Literal t)
      | Panic => Panic
      | OutOfFuel => OutOfFuel
      end
    else if ch =? rn ")" then
      if openGroups - 1 <=? 0 then Ret (buf, openGroups - 1, None) s1
      else scanGroupLoop fuel' s1 (openGroups - 1) (WriteRune buf ch)
    else scanGroupLoop fuel' s1 openGroups (WriteRune buf ch)
  end.

Definition scanGroup (s : Scanner) : scanned :=
  let '(firstChar, s1) := read s in
  match scanGroupLoop (loopFuel s1) s1 1 [] with
  | Ret (literal, openGroups, Some err) s' =>
    Ret (mkToken None TokenGroup literal, Some err) s'
  | Ret (literal, openGroups, None) s' =>
    Ret (mkToken None TokenGroup literal,
         if negb (isGroupStartRune firstChar) || (0 <? openGroups)
         then Some (ErrMissingBrackets openGroups) else None) s'
  | Panic => Panic
  | OutOfFuel => OutOfFuel
  end.

(** *** scanIdentifier (lines 281-328) and scanFunctionArgs (lines 449-544)

    The two functions call each other; one budget bounds the depth of the
    calls and the iterations of both loops. *)

Definition identifierToken (literal : list byte) (s : Scanner) : scanned :=
  match isValidIdentifier literal with
  | None => Panic
  | Some ok =>
    Ret (mkToken None TokenIdentifier literal,
         if negb ok then Some (ErrInvalidIdentifier literal) else None) s
  end.

Definition functionToken (funcName : list byte) (args : list Token) : Token :=
  mkToken (Some args) TokenFunction funcName.

Fixpoint scanIdentifierLoop (fuel : nat) (funcDepth : Z) (s : Scanner)
  (buf : list byte) {struct fuel} : scanned :=
  match fuel with
  | O => OutOfFuel
  | S fuel' =>
    let '(ch, s1) := read s in
    if ch =? eof then identifierToken buf s1
    else if ch =? rn "(" then
      if funcDepth <=? 0 then
        Ret (mkToken None TokenFunction buf,
             Some (ErrMaxNestedFunc (maxFuncDepth s))) s1
      else
        match isValidIdentifier buf with
        | None => Panic
        | Some false =>
          Ret (mkToken None TokenFunction buf, Some (ErrInvalidFuncName buf)) s1
        | Some true => scanFunctionArgsFuel fuel' buf funcDepth (unread s1)
        end
    else if negb (isLetterRune ch) && negb (isDigitRune ch)
            && negb (isIdentifierCombineRune ch) && negb (ch =? rn "_")
    then identifierToken buf (unread s1)
    else scanIdentifierLoop fuel' funcDepth s1 (WriteRune buf ch)
  end

with scanIdentifierFuel (fuel : nat) (funcDepth : Z) (s : Scanner)
  {struct fuel} : scanned :=
  match fuel with
  | O => OutOfFuel
  | S fuel' =>
    let '(ch, s1) := read s in
    scanIdentifierLoop fuel' funcDepth s1 (WriteRune [] ch)
  end

with scanFunctionArgsFuel (fuel : nat) (funcName : list byte) (funcDepth : Z)
  (s : Scanner) {struct fuel} : scanned :=
  match fuel with
  | O => OutOfFuel
  | S fuel' =>
    let '(ch, s1) := read s in
    if negb (ch =? rn "(") then
      Ret (mkToken None TokenFunction funcName, Some (ErrInvalidFuncCall funcName)) s1
    else scanFunctionArgsLoop fuel' funcName funcDepth s1 [] false
  end

with scanFunctionArgsLoop (fuel : nat) (funcName : list byte) (funcDepth : Z)
  (s : Scanner) (args : list Token) (expectComma : bool) {struct fuel}
  : scanned :=
  match fuel with
  | O => OutOfFuel
  | S fuel' =>
    let '(ch, s1) := read s in
    if ch =? eof then
      Ret (functionToken funcName args, Some (ErrIncompleteFunc funcName)) s1
    else if ch =? rn ")" then Ret (functionToken funcName args, None) s1
    else if isWhitespaceRune ch then
      match scanWhitespace s1 with
      | Ret (_, Some err) s2 =>
        Ret (functionToken funcName args, Some (ErrFuncWhitespace funcName err)) s2
      | Ret (_, None) s2 =>
        scanFunctionArgsLoop fuel' funcName funcDepth s2 args expectComma
      | Panic => Panic
      | OutOfFuel => OutOfFuel
      end
    else if isCommentStartRune ch then
      match scanComment (unread s1) with
      | Ret (_, Some err) s2 =>
        Ret (functionToken funcName args, Some (ErrFuncComment funcName err)) s2
      | Ret (_, None) s2 =>
        scanFunctionArgsLoop fuel' funcName funcDepth s2 args expectComma
      | Panic => Panic
      | OutOfFuel => OutOfFuel
      end
    else
      let isComma := ch =? rn "," in
      if expectComma && negb isComma then
        Ret (functionToken funcName args, Some (ErrExpectedComma funcName)) s1
      else if negb expectComma && isComma then
        Ret (functionToken funcName args, Some (ErrUnexpectedComma funcName)) s1
      else if isComma then
        scanFunctionArgsLoop fuel' funcName funcDepth s1 args false
      else if isIdentifierStartRune ch then
        match scanIdentifierFuel fuel' (funcDepth - 1) (unread s1) with
        | Ret (t, Some err) s2 =>
          Ret (functionToken funcName args,
               Some (ErrIdentifierArg (Literal t) funcName err)) s2
        | Ret (t, None) s2 =>
          scanFunctionArgsLoop fuel' funcName funcDepth s2 (args ++ [t]) true
        | Panic => Panic
        | OutOfFuel => OutOfFuel
        end
      else if isNumberStartRune ch then
        match scanNumber (unread s1) with
        | Ret (t, Some err) s2 =>
          Ret (functionToken funcName args,
               Some (ErrNumberArg (Literal t) funcName err)) s2
        | Ret (t, None) s2 =>
          scanFunctionArgsLoop fuel' funcName funcDepth s2 (args ++ [t]) true
        | Panic => Panic
        | OutOfFuel => OutOfFuel
        end
      else if isTextStartRune ch then
        match scanText false (unread s1) with
        | Ret (t, Some err) s2 =>
          Ret (functionToken funcName args,
               Some (ErrTextArg (Literal t) funcName err)) s2
        | Ret (t, None) s2 =>
          scanFunctionArgsLoop fuel' funcName funcDepth s2 (args ++ [t]) true
        | Panic => Panic
        | OutOfFuel => OutOfFuel
        end
      else
        Ret (functionToken funcName args, Some (ErrUnsupportedArgChar ch funcName)) s1
  end.

(** Between two nested calls at least one byte is read, and a call and an
    iteration each take one unit: twice the remaining bytes and a constant
    are enough. *)
Definition nestFuel (s : Scanner) : nat := 2 * remaining s + 4.

Definition scanIdentifier (funcDepth : Z) (s : Scanner) : scanned :=
  scanIdentifierFuel (nestFuel s) funcDepth s.

Definition scanFunctionArgs (funcName : list byte) (funcDepth : Z) (s : Scanner)
  : scanned :=
  scanFunctionArgsFuel (nestFuel s) funcName funcDepth s.

(** *** Scan (lines 87-136) *)

Definition Scan (s : Scanner) : scanned :=
  let '(ch, s1) := read s in
  if ch =? eof then Ret (mkToken None TokenEOF [], None) s1
  else if isWhitespaceRune ch then scanWhitespace (unread s1)
  else if isGroupStartRune ch then scanGroup (unread s1)
  else if isIdentifierStartRune ch then scanIdentifier (maxFuncDepth s) (unread s1)
  else if isNumberStartRune ch then scanNumber (unread s1)
  else if isTextStartRune ch then scanText false (unread s1)
  else if isSignStartRune ch then scanSign (unread s1)
  else if isJoinStartRune ch then scanJoin (unread s1)
  else if isCommentStartRune ch then scanComment (unread s1)
  else Ret (mkToken None TokenUnexpected (utf8.EncodeRune ch),
            Some (ErrUnexpectedChar ch)) s1.


(** ** Repeated scanning *)

Definition eofToken : Token := mkToken None TokenEOF [].

(** The result of the call number [n + 1] in a row of calls of [Scan]. *)
Fixpoint nthScan (n : nat) (s : Scanner) : scanned :=
  match n with
  | O => Scan s
  | S n' =>
    match Scan s with
    | Ret _ s' => nthScan n' s'
    | Panic => Panic
    | OutOfFuel => OutOfFuel
    end
  end.

(** ** The parser

    [parser.go] is not among the sources at hand (only its tests are); the
    parser is written after section 4.2 of the specification, with the
    names that [parser_test.go] uses where it shows them. *)

(** Modelled from the spec: the comparison [Expr] of the missing
    [parser.go] (section 3, "Comparison": left operand, sign operator,
    right operand). *)
Record Expr := mkExpr {
  Left : Token;
  Op : SignOp;
  Right : Token
}.

(** Modelled from the spec: the element of the AST built by the missing
    [parser.go] (section 3, "JoinItem"): the join operator that precedes
    the item, and a comparison or the nested sequence of a group. *)
#[warnings="-register-all"]
Inductive JoinItem :=
| mkJoinItem (join : JoinOp) (content : Content)
with Content :=
| Comparison (e : Expr)
| NestedSequence (items : list JoinItem).

(** Modelled from the spec: the errors of the missing [parser.go]
    (sections 4.2 and 7): a scanner error that surfaces, and a token found
    where an operand, a sign operator, or a join or the end was expected. *)
Inductive syntaxError :=
| LexicalError (e : error)
| OperandExpected (got : Token)
| OperatorExpected (got : Token)
| JoinExpected (got : Token).

(** Modelled from the spec: the states of the missing [parser.go]
    (section 4.2, "ExpectOperand1 -> ExpectOperator -> ExpectOperand2 ->
    ExpectJoinOrEnd"), each with the part of the comparison read so far. *)
Inductive parserState :=
| ExpectOperand1
| ExpectOperator (lhs : Token)
| ExpectOperand2 (lhs : Token) (op : SignOp)
| ExpectJoinOrEnd.

Definition parsed : Type := list JoinItem * option syntaxError.

(** What one token does to the parser: it goes on in a new state, with
    the join operator of the next item and the items built so far; or it
    ends the parse; or the parse of a group gave no result. *)
Inductive transition :=
| Continue (st : parserState) (join : JoinOp) (result : list JoinItem)
| Finish (r : parsed)
| Stuck.

(** Modelled from the spec: the operand test of the missing [parser.go]
    (section 4.2, "only Identifier, Number, Text, and Function tokens are
    valid operands"). *)
Definition isOperand (t : Token) : bool :=
  match Type_ t with
  | TokenIdentifier | TokenNumber | TokenText | TokenFunction => true
  | _ => false
  end.

Definition joinOfLiteral (literal : list byte) : JoinOp :=
  if bytes_eqb literal (B "||") then JoinOr else JoinAnd.

(** Modelled from the spec: one step of the state machine of the missing
    [parser.go] (section 4.2).  A group is accepted in first-operand
    position only and parsed by [parseGroup]; every error ends the parse
    with an empty sequence. *)
Definition parseToken (parseGroup : list byte -> option parsed)
  (st : parserState) (join : JoinOp) (result : list JoinItem) (t : Token)
  : transition :=
  match st with
  | ExpectOperand1 =>
    if isOperand t then Continue (ExpectOperator t) join result
    else if TokenType_eqb (Type_ t) TokenGroup then
      match parseGroup (Literal t) with
      | Some (items, None) =>
        Continue ExpectJoinOrEnd join
                 (result ++ [mkJoinItem join (NestedSequence items)])
      | Some (_, Some e) => Finish ([], Some e)
      | None => Stuck
      end
    else Finish ([], Some (OperandExpected t))
  | ExpectOperator lhs =>
    if TokenType_eqb (Type_ t) TokenSign then
      match signOfLiteral (Literal t) with
      | Some op => Continue (ExpectOperand2 lhs op) join result
      | None => Finish ([], Some (OperatorExpected t))
      end
    else Finish ([], Some (OperatorExpected t))
  | ExpectOperand2 lhs op =>
    if isOperand t then
      Continue ExpectJoinOrEnd join
               (result ++ [mkJoinItem join (Comparison (mkExpr lhs op t))])
    else Finish ([], Some (OperandExpected t))
  | ExpectJoinOrEnd =>
    if TokenType_eqb (Type_ t) TokenEOF then Finish (result, None)
    else if TokenType_eqb (Type_ t) TokenJoin then
      Continue ExpectOperand1 (joinOfLiteral (Literal t)) result
    else Finish ([], Some (JoinExpected t))
  end.

(** The tokens without a meaning for the AST. *)
Definition isSkipped (t : Token) : bool :=
  TokenType_eqb (Type_ t) TokenWS || TokenType_eqb (Type_ t) TokenComment.

(** Modelled from the spec: the loop of the missing [parser.go] (section
    4.2): it calls [Scan] again and again, ends with an empty sequence at
    the first scanner error, skips white space and comments and hands every
    other token to the state machine.  [None] says that the budget was used
    up (or that the scanner gave no token). *)
Fixpoint parseLoop (parseGroup : list byte -> option parsed) (fuel : nat)
  (s : Scanner) (st : parserState) (join : JoinOp) (result : list JoinItem)
  : option parsed :=
  match fuel with
  | O => None
  | S fuel' =>
    match Scan s with
    | Ret (_, Some e) _ => Some ([], Some (LexicalError e))
    | Ret (t, None) s' =>
      if isSkipped t then parseLoop parseGroup fuel' s' st join result
      else
        match parseToken parseGroup st join result t with
        | Continue st' join' result' =>
          parseLoop parseGroup fuel' s' st' join' result'
        | Finish r => Some r
        | Stuck => None
        end
    | Panic | OutOfFuel => None
    end
  end.

(** Modelled from the spec: [Parse] of the missing [parser.go] (section
    4.2), for groups nested at most [depth - 1] deep: the literal of a
    group is parsed by the same function.  Every token but [EOF] takes at
    least one byte, so that the loop runs at most once per byte and once
    more. *)
Fixpoint ParseDepth (depth : nat) (text : list byte) : option parsed :=
  match depth with
  | O => None
  | S depth' =>
    parseLoop (ParseDepth depth') (S (List.length text)) (NewScanner text)
              ExpectOperand1 JoinAnd []
  end.

(** Modelled from the spec: the entry point [Parse] of the missing
    [parser.go]; a group takes at least its two parentheses, so that
    groups are nested less deep than the text is long. *)
Definition Parse (text : list byte) : option parsed :=
  ParseDepth (S (List.length text)) text.

(** The next token with a meaning for the AST: [Scan] gives [t] without
    an error, after any number of white space and comment tokens, none of
    them with an error. *)
Inductive scansTo : Scanner -> Token -> Scanner -> Prop :=
| scansTo_here s t s' :
    Scan s = Ret (t, None) s' -> isSkipped t = false -> scansTo s t s'
| scansTo_skip s t s1 t' s' :
    Scan s = Ret (t, None) s1 -> isSkipped t = true -> scansTo s1 t' s' ->
    scansTo s t' s'.

(** A well-formed single comparison: the tokens of [text] with a meaning
    are an operand [x], a sign operator [sign] and an operand [y], and then
    the input ends. *)
Definition singleComparison (text : list byte) (x sign y : Token) : Prop :=
  exists s1 s2 s3 s4,
    scansTo (NewScanner text) x s1 /\ isOperand x = true
    /\ scansTo s1 sign s2 /\ Type_ sign = TokenSign
    /\ scansTo s2 y s3 /\ isOperand y = true
    /\ scansTo s3 eofToken s4.

(** ** Vocabulary of the statements *)

(** The runes on which the loop of [scanIdentifier] goes on (the negation
    of its exit test, line 311). *)
Definition isIdentifierRune (ch : rune) : bool :=
  isLetterRune ch || isDigitRune ch || isIdentifierCombineRune ch
  || (ch =? rn "_").

(** The continuation characters of an identifier as the specification
    lists them: letters, digits, [.] and [:]. *)
Definition isListedIdentifierRune (ch : rune) : bool :=
  isLetterRune ch || isDigitRune ch || isIdentifierCombineRune ch.

(** The rune is ASCII exactly when one byte below [0x80] was decoded; a
    wider encoding consists of bytes from [0x80] on and gives a rune from
    [0x80] on. *)
Inductive decoded (p : list byte) (r : rune) (n : Z) : Prop :=
| dec_ascii : n = 1 -> r = utf8.at_ p 0 -> 0 <= r < 0x80 -> decoded p r n
| dec_invalid : n = 1 -> r = utf8.RuneError -> 0x80 <= utf8.at_ p 0 -> decoded p r n
| dec_wide : 2 <= n <= 4 -> 0x80 <= r ->
    (forall i, (i < Z.to_nat n)%nat -> 0x80 <= utf8.at_ p i) -> decoded p r n.

(** The cursor lies inside the buffer. *)
Definition wf (s : Scanner) : Prop := 0 <= pos s <= len s.

(** [s'] is [s] with the cursor moved forward by at least [k] bytes. *)
Definition moved (k : Z) (s s' : Scanner) : Prop :=
  data s' = data s /\ maxFuncDepth s' = maxFuncDepth s
  /\ pos s + k <= pos s' <= len s.

(** The result of a loop: it returns, and the cursor has not moved back. *)
Definition loops {A} (s : Scanner) (o : outcome A) : Prop :=
  exists a s', o = Ret a s' /\ moved 0 s s'.

(** The result of a sub-scanner: it returns a token that is not [EOF],
    and the cursor has moved forward by [k] bytes or more. *)
Definition scans (k : Z) (s : Scanner) (o : scanned) : Prop :=
  exists t e s', o = Ret (t, e) s' /\ moved k s s' /\ Type_ t <> TokenEOF.

(** The four mutually recursive functions return within their budget. *)
Definition nested_ok (fuel : nat) : Prop :=
  (forall depth s buf, wf s -> buf <> [] -> (2 * remaining s + 1 <= fuel)%nat ->
     scans 0 s (scanIdentifierLoop fuel depth s buf))
  /\ (forall depth s, wf s -> pos s < len s -> (2 * remaining s <= fuel)%nat ->
     scans 1 s (scanIdentifierFuel fuel depth s))
  /\ (forall name depth s, wf s -> pos s < len s -> (2 * remaining s <= fuel)%nat ->
     scans 1 s (scanFunctionArgsFuel fuel name depth s))
  /\ (forall name depth s args ec, wf s -> (2 * remaining s + 1 <= fuel)%nat ->
     scans 0 s (scanFunctionArgsLoop fuel name depth s args ec)).

(** The error of an [Identifier] token is the verdict of
    [isValidIdentifier] on its literal. *)
Definition identifierVerdict (t : Token) (e : option error) : Prop :=
  exists ok, isValidIdentifier (Literal t) = Some ok
    /\ e = if negb ok then Some (ErrInvalidIdentifier (Literal t)) else None.

(** ** Parentheses of a group *)

(** The balance of the claim as it is stated: every [(] and [)] of the
    input counts; [d] is the number of [(] still unmatched. *)
Fixpoint rawBalancedFrom (d : Z) (l : list byte) : bool :=
  match l with
  | [] => d =? 0
  | c :: t =>
    if b2z c =? rn "(" then rawBalancedFrom (d + 1) t
    else if b2z c =? rn ")" then (1 <=? d) && rawBalancedFrom (d - 1) t
    else rawBalancedFrom d t
  end.

Definition rawBalanced (l : list byte) : bool := rawBalancedFrom 0 l.

(** Where a byte of the input lies: outside quoted text, or inside a text
    opened by [q], and then whether the byte before it was a backslash. *)
Inductive quoteState := Outside | Inside (q : byte) (escaped : bool).

Definition byte_eqb (a b : byte) : bool := if ascii_dec a b then true else false.

(** The balance of the parentheses outside quoted text.  A text runs from
    its quote to the next occurrence of that quote that no backslash
    precedes; an input that ends inside a text is not judged. *)
Fixpoint balancedFrom (st : quoteState) (d : Z) (l : list byte) : bool :=
  match l with
  | [] => match st with Outside => d =? 0 | Inside _ _ => true end
  | c :: t =>
    match st with
    | Outside =>
      if b2z c =? rn "(" then balancedFrom Outside (d + 1) t
      else if isTextStartRune (b2z c) then balancedFrom (Inside c false) d t
      else if b2z c =? rn ")" then (1 <=? d) && balancedFrom Outside (d - 1) t
      else balancedFrom Outside d t
    | Inside q escaped =>
      if byte_eqb c q && negb escaped then balancedFrom Outside d t
      else balancedFrom (Inside q (b2z c =? rn "\")) d t
    end
  end.

Definition balancedOutsideText (l : list byte) : bool := balancedFrom Outside 0 l.

Definition noNul (l : list byte) : bool := forallb (fun c => negb (b2z c =? 0)) l.

(** The scan failed with "missing n closing bracket(s)". *)
Definition missingBracket (o : scanned) : Prop :=
  exists t n s', o = Ret (t, Some (ErrMissingBrackets n)) s'.

(** ** Quoted text and its escaped form *)

(** The escaped form of a text for the quote [q]: a backslash is put in
    front of every [q], the only escape the scanner knows. *)
Fixpoint escapeText (q : byte) (u : list byte) : list byte :=
  match u with
  | [] => []
  | c :: t =>
    if byte_eqb c q then backslash :: q :: escapeText q t
    else c :: escapeText q t
  end.

(** The text between two quotes [q], escaped. *)
Definition quoteText (q : byte) (u : list byte) : list byte :=
  q :: escapeText q u ++ [q].

(** A text as the scanner can give it back: a sequence of UTF-8
    encodings of runes other than NUL, that is, bytes which [DecodeRune]
    splits into runes that [WriteRune] writes as the same bytes. *)
Fixpoint isTextFuel (fuel : nat) (p : list byte) : bool :=
  match p with
  | [] => true
  | _ :: _ =>
    match fuel with
    | O => false
    | S fuel' =>
      let '(r, n) := utf8.DecodeRune p in
      negb (r =? 0)
      && bytes_eqb (utf8.EncodeRune r) (firstn (Z.to_nat n) p)
      && isTextFuel fuel' (skipn (Z.to_nat n) p)
    end
  end.

Definition isText (p : list byte) : bool := isTextFuel (List.length p) p.

Definition endsWithBackslash (u : list byte) : bool :=
  match u with
  | [] => false
  | _ :: _ => byte_eqb (last u zero) backslash
  end.

(** [DecodeRune] as a function of the length and of the first four bytes
    of its argument (see [DecodeRune_decodeWith]). *)
Definition decodeWith (n p0 b1 b2 b3 : Z) : rune * Z :=
  if n <? 1 then (utf8.RuneError, 0) else
  let x := utf8.first p0 in
  if utf8.as_ <=? x then
    let mask := if Z.odd x then (-1) else 0 in
    (Z.lor (Z.land p0 (Z.lnot mask)) (Z.land utf8.RuneError mask), 1)
  else
  let sz := Z.land x 7 in
  let accept := utf8.acceptRanges (Z.shiftr x 4) in
  if n <? sz then (utf8.RuneError, 1) else
  if (b1 <? fst accept) || (snd accept <? b1) then (utf8.RuneError, 1) else
  if sz <=? 2 then
    (Z.lor (Z.shiftl (Z.land p0 0x1F) 6) (Z.land b1 0x3F), 2)
  else
  if (b2 <? utf8.locb) || (utf8.hicb <? b2) then (utf8.RuneError, 1) else
  if sz <=? 3 then
    (Z.lor (Z.lor (Z.shiftl (Z.land p0 0x0F) 12) (Z.shiftl (Z.land b1 0x3F) 6))
           (Z.land b2 0x3F), 3)
  else
  if (b3 <? utf8.locb) || (utf8.hicb <? b3) then (utf8.RuneError, 1) else
  (Z.lor (Z.lor (Z.lor (Z.shiftl (Z.land p0 0x07) 18)
                       (Z.shiftl (Z.land b1 0x3F) 12))
                (Z.shiftl (Z.land b2 0x3F) 6))
         (Z.land b3 0x3F), 4).

(** The rune read last is not a backslash, so that the closing quote is
    taken as such. *)
Definition closes (prev : rune) (u : list byte) : Prop :=
  match u with
  | [] => prev <> rn "\"
  | _ :: _ => endsWithBackslash u = false
  end.

(** The number of bytes [(] of a text: it bounds how deep the groups of
    the text are nested. *)
Definition parenCount (l : list byte) : nat := count_occ ascii_dec l "("%char.

(** ** Vocabulary of the further properties *)

(** How deep the function calls of a token are nested: 0 for a token
    without arguments. *)
Fixpoint tokenDepth (t : Token) : nat :=
  match t with
  | mkToken None _ _ => O
  | mkToken (Some args) _ _ => S (list_max (map tokenDepth args))
  end.

(** The kinds of token that [scanFunctionArgs] appends to the arguments. *)
Definition isArgument (t : Token) : bool :=
  match Type_ t with
  | TokenIdentifier | TokenFunction | TokenNumber | TokenText => true
  | _ => false
  end.

(** The number of bytes [.] of a literal. *)
Definition dots (l : list byte) : nat := count_occ ascii_dec l "."%char.

(** A byte string that [DecodeRune] splits into runes other than NUL which
    [WriteRune] writes back as the same bytes. *)
Definition validText (l : list byte) : Prop := exists fuel, isTextFuel fuel l = true.

Definition newline : byte := z2b 10.

(** A token as [scanIdentifier] and [scanFunctionArgs] build it: only a
    [Function] token holds arguments, its name is then a valid identifier,
    and each argument is an [Identifier], a [Function], a [Number] or a
    [Text] token built the same way. *)
Fixpoint wellFormed (t : Token) : bool :=
  match t with
  | mkToken None _ _ => true
  | mkToken (Some args) k name =>
    TokenType_eqb k TokenFunction
    && match isValidIdentifier name with Some true => true | _ => false end
    && forallb (fun a => isArgument a && wellFormed a) args
  end.

(** What holds of a token scanned with [depth] levels of calls left. *)
Definition tokenOk (depth : Z) (t : Token) : Prop :=
  (tokenDepth t <= Z.to_nat depth)%nat /\ wellFormed t = true.

Definition argOk (depth : Z) (a : Token) : Prop :=
  tokenOk depth a /\ isArgument a = true.

(** Where the loop of [scanIdentifier] leaves off, [tail] being the input
    behind the bytes it wrote: an identifier ends in front of a byte that
    is neither an identifier character nor [(]; a function name stands in
    front of [(]; a call without an error goes up to a [)]; a function token
    without arguments was refused before its arguments were scanned. *)
Definition identifierExtent (depth : Z) (s : Scanner) (t : Token)
  (e : option error) (s' : Scanner) (tail : list byte) : Prop :=
  (Type_ t = TokenIdentifier ->
   forall c tl, tail = c :: tl ->
     isIdentifierRune (b2z c) = false /\ c <> "("%char)
  /\ (Type_ t = TokenFunction ->
      (exists tl, tail = "("%char :: tl)
      /\ (e = None -> exists mid, tail = "("%char :: mid ++ ")"%char :: rest s')
      /\ (Meta t = None ->
          (depth <= 0 /\ e = Some (ErrMaxNestedFunc (maxFuncDepth s)))
          \/ (isValidIdentifier (Literal t) = Some false
              /\ e = Some (ErrInvalidFuncName (Literal t))))).

(** * Properties *)

(** ** Bytes, runes and UTF-8 *)

Lemma b2z_range (c : byte) : 0 <= b2z c < 256.
Proof.
  unfold b2z. pose proof (N_ascii_bounded c). lia.
Qed.

Lemma z2b_b2z (c : byte) : z2b (b2z c) = c.
Proof.
  unfold z2b, b2z. rewrite N2Z.id. apply ascii_N_embedding.
Qed.

Lemma b2z_z2b (z : Z) : 0 <= z < 256 -> b2z (z2b z) = z.
Proof.
  intros H. unfold z2b, b2z. rewrite N_ascii_embedding by lia. lia.
Qed.

Lemma b2z_inj (a b : byte) : b2z a = b2z b -> a = b.
Proof.
  intros H. rewrite <- (z2b_b2z a), <- (z2b_b2z b). now rewrite H.
Qed.

Lemma lor_ge_l (a b : Z) : 0 <= b -> a <= Z.lor a b.
Proof.
  intros Hb. pose proof (Z.sub_lor_l_same_r b a) as H.
  assert (0 <= Z.land b (Z.lnot a)) by (apply Z.land_nonneg; now left).
  rewrite (Z.lor_comm a b). lia.
Qed.

Lemma land_mask (x : Z) (k : Z) : 0 <= k -> Z.land x (Z.ones k) = x mod 2 ^ k.
Proof. intros. now apply Z.land_ones. Qed.

Module utf8_facts.
Import utf8.


Lemma at_range p i : 0 <= at_ p i < 256.
Proof. apply b2z_range. Qed.

Ltac mask_to_mod :=
  change 0x1F with (Z.ones 5); change 0x0F with (Z.ones 4);
  change 0x07 with (Z.ones 3); change 0x3F with (Z.ones 6);
  rewrite ?land_mask by lia; rewrite ?Z.shiftl_mul_pow2 by lia.

Lemma lor_lb (a b : Z) : 0 <= a -> 0 <= b -> a <= Z.lor a b /\ b <= Z.lor a b.
Proof.
  intros Ha Hb. split; [now apply lor_ge_l|].
  rewrite Z.lor_comm. now apply lor_ge_l.
Qed.

Lemma wide2 p0 b1 : 0xC2 <= p0 < 0xE0 -> 0 <= b1 ->
  0x80 <= Z.lor (Z.shiftl (Z.land p0 0x1F) 6) (Z.land b1 0x3F).
Proof.
  intros H0 H1. mask_to_mod.
  change (2 ^ 5) with 32. change (2 ^ 6) with 64.
  pose proof (Z.mod_pos_bound b1 64 ltac:(lia)).
  assert (2 <= p0 mod 32) by (Z.div_mod_to_equations; lia).
  pose proof (lor_lb (p0 mod 32 * 64) (b1 mod 64) ltac:(lia) ltac:(lia)).
  lia.
Qed.

Lemma wide3 p0 b1 b2 : 0xE0 <= p0 < 0xF0 -> (p0 = 0xE0 -> 0xA0 <= b1) ->
  0x80 <= b1 <= 0xBF -> 0 <= b2 ->
  0x80 <= Z.lor (Z.lor (Z.shiftl (Z.land p0 0x0F) 12)
                       (Z.shiftl (Z.land b1 0x3F) 6)) (Z.land b2 0x3F).
Proof.
  intros H0 HE H1 H2. mask_to_mod.
  change (2 ^ 4) with 16. change (2 ^ 6) with 64. change (2 ^ 12) with 4096.
  pose proof (Z.mod_pos_bound b2 64 ltac:(lia)).
  pose proof (Z.mod_pos_bound b1 64 ltac:(lia)).
  pose proof (Z.mod_pos_bound p0 16 ltac:(lia)).
  assert (1 <= p0 mod 16 \/ 32 <= b1 mod 64) by (Z.div_mod_to_equations; lia).
  pose proof (lor_lb (p0 mod 16 * 4096) (b1 mod 64 * 64) ltac:(lia) ltac:(lia)).
  pose proof (lor_lb (Z.lor (p0 mod 16 * 4096) (b1 mod 64 * 64)) (b2 mod 64)
                ltac:(lia) ltac:(lia)).
  lia.
Qed.

Lemma wide4 p0 b1 b2 b3 : 0xF0 <= p0 <= 0xF4 -> (p0 = 0xF0 -> 0x90 <= b1) ->
  0x80 <= b1 <= 0xBF -> 0 <= b2 -> 0 <= b3 ->
  0x80 <= Z.lor (Z.lor (Z.lor (Z.shiftl (Z.land p0 0x07) 18)
                              (Z.shiftl (Z.land b1 0x3F) 12))
                       (Z.shiftl (Z.land b2 0x3F) 6)) (Z.land b3 0x3F).
Proof.
  intros H0 HE H1 H2 H3. mask_to_mod.
  change (2 ^ 3) with 8. change (2 ^ 6) with 64. change (2 ^ 12) with 4096.
  change (2 ^ 18) with 262144.
  pose proof (Z.mod_pos_bound b3 64 ltac:(lia)).
  pose proof (Z.mod_pos_bound b2 64 ltac:(lia)).
  pose proof (Z.mod_pos_bound b1 64 ltac:(lia)).
  pose proof (Z.mod_pos_bound p0 8 ltac:(lia)).
  assert (1 <= p0 mod 8 \/ 16 <= b1 mod 64) by (Z.div_mod_to_equations; lia).
  pose proof (lor_lb (p0 mod 8 * 262144) (b1 mod 64 * 4096) ltac:(lia) ltac:(lia)).
  pose proof (lor_lb (Z.lor (p0 mod 8 * 262144) (b1 mod 64 * 4096)) (b2 mod 64 * 64)
                ltac:(lia) ltac:(lia)).
  pose proof (lor_lb (Z.lor (Z.lor (p0 mod 8 * 262144) (b1 mod 64 * 4096))
                            (b2 mod 64 * 64)) (b3 mod 64) ltac:(lia) ltac:(lia)).
  lia.
Qed.

Lemma first_cases p0 : 0 <= p0 < 256 ->
  (p0 < 0x80 /\ first p0 = as_) \/
  ((0x80 <= p0 < 0xC2 \/ 0xF5 <= p0) /\ first p0 = xx) \/
  (0xC2 <= p0 < 0xE0 /\ first p0 = s1) \/
  (p0 = 0xE0 /\ first p0 = s2) \/
  ((0xE1 <= p0 < 0xED \/ 0xEE <= p0 < 0xF0) /\ first p0 = s3) \/
  (p0 = 0xED /\ first p0 = s4) \/
  (p0 = 0xF0 /\ first p0 = s5) \/
  (0xF1 <= p0 < 0xF4 /\ first p0 = s6) \/
  (p0 = 0xF4 /\ first p0 = s7).
Proof.
  intros H. unfold first.
  repeat match goal with
  | |- context [if ?a <? ?b then _ else _] => destruct (Z.ltb_spec a b)
  | |- context [if ?a =? ?b then _ else _] => destruct (Z.eqb_spec a b)
  end; lia.
Qed.


Ltac split_if :=
  match goal with
  | |- context [if ?a <? ?b then _ else _] => destruct (Z.ltb_spec a b)
  | |- context [if ?a <=? ?b then _ else _] => destruct (Z.leb_spec a b)
  | |- context [if ?a || ?b then _ else _] =>
      let E := fresh "E" in
      destruct (a || b) eqn:E;
      [ apply orb_true_iff in E; rewrite !Z.ltb_lt in E
      | apply orb_false_iff in E; rewrite !Z.ltb_ge in E ]
  end.

Ltac small_index :=
  let i := fresh "i" in let Hi := fresh "Hi" in
  intros i Hi;
  do 4 (destruct i as [|i]; [lia|]); lia.

Lemma DecodeRune_decoded p r n : p <> [] -> DecodeRune p = (r, n) ->
  decoded p r n /\ n <= Z.of_nat (List.length p).
Proof.
  intros Hne. unfold DecodeRune.
  destruct p as [|c0 t]; [congruence|]. clear Hne.
  set (p := c0 :: t). 
  assert (Hlen : 1 <= Z.of_nat (List.length p)) by (subst p; cbn [List.length]; lia).
  destruct (Z.ltb_spec (Z.of_nat (List.length p)) 1); [lia|].
  pose proof (at_range p 0) as R0. pose proof (at_range p 1) as R1.
  pose proof (at_range p 2) as R2. pose proof (at_range p 3) as R3.
  destruct (first_cases (at_ p 0) R0) as
    [[H0 E]|[[H0 E]|[[H0 E]|[[H0 E]|[[H0 E]|[[H0 E]|[[H0 E]|[[H0 E]|[H0 E]]]]]]]]];
    rewrite E;
    match type of E with _ = ?k =>
      let b := eval vm_compute in (as_ <=? k) in change (as_ <=? k) with b;
      let o := eval vm_compute in (Z.odd k) in change (Z.odd k) with o;
      let sz := eval vm_compute in (Z.land k 7) in change (Z.land k 7) with sz;
      let ar := eval vm_compute in (acceptRanges (Z.shiftr k 4)) in
      change (acceptRanges (Z.shiftr k 4)) with ar
    end; cbv beta iota delta [fst snd locb hicb];
    repeat split_if; intros [= <- <-]; (split; [|lia]).
  all: try (apply dec_invalid; [reflexivity|reflexivity|lia]).
  all: try (match goal with
            | |- decoded _ _ 2 => apply dec_wide; [lia|apply wide2; lia|small_index]
            | |- decoded _ _ 3 => apply dec_wide; [lia|apply wide3; lia|small_index]
            | |- decoded _ _ 4 => apply dec_wide; [lia|apply wide4; lia|small_index]
            end).
  - apply dec_ascii; [reflexivity| |];
      change (Z.lnot 0) with (-1); rewrite Z.land_m1_r, Z.lor_0_r; [reflexivity|lia].
  - apply dec_invalid; [reflexivity| |lia].
    change (Z.lnot (-1)) with 0. now rewrite Z.land_0_r.
Qed.

End utf8_facts.

(** ** The cursor *)


Lemma moved_len k s s' : moved k s s' -> len s' = len s.
Proof. intros (H & _). unfold len. now rewrite H. Qed.

Lemma moved_wf k s s' : 0 <= k -> wf s -> moved k s s' -> wf s'.
Proof.
  intros Hk Hw H. pose proof (moved_len _ _ _ H). destruct H as (_ & _ & H).
  unfold wf in *. lia.
Qed.

Lemma moved_trans j k s s' s'' :
  moved j s s' -> moved k s' s'' -> moved (j + k) s s''.
Proof.
  intros H1 H2. pose proof (moved_len _ _ _ H1).
  destruct H1 as (D1 & M1 & P1), H2 as (D2 & M2 & P2).
  repeat split; try congruence; lia.
Qed.

Lemma moved_weaken j k s s' : k <= j -> moved j s s' -> moved k s s'.
Proof. intros Hk (D & M & P). repeat split; auto; lia. Qed.

Lemma moved_refl s : wf s -> moved 0 s s.
Proof. intros H. unfold wf in H. repeat split; lia. Qed.

Lemma moved_remaining k s s' : 0 <= k -> moved k s s' ->
  (remaining s' + Z.to_nat k <= remaining s)%nat.
Proof.
  intros Hk H. pose proof (moved_len _ _ _ H). destruct H as (_ & _ & H).
  unfold remaining. lia.
Qed.

Lemma rest_length s : wf s -> Z.of_nat (List.length (rest s)) = len s - pos s.
Proof.
  intros H. unfold rest, len, wf, len in *. rewrite length_skipn. lia.
Qed.

Lemma read_end s : len s <= pos s -> read s = (eof, s).
Proof.
  intros H. unfold read. destruct (Z.leb_spec (len s) (pos s)); [reflexivity|lia].
Qed.

(** What one [read] does: at the end of the buffer it returns [eof] and
    leaves the cursor; otherwise it moves the cursor over the bytes of the
    decoded rune. *)
Lemma read_step s ch s1 : wf s -> read s = (ch, s1) ->
  (len s <= pos s /\ ch = eof /\ s1 = s)
  \/ (pos s < len s /\ exists n, s1 = setPos s (pos s + n)
      /\ decoded (rest s) ch n /\ pos s + n <= len s).
Proof.
  intros Hw. unfold read. destruct (Z.leb_spec (len s) (pos s)) as [H|H].
  - intros [= <- <-]. now left.
  - destruct (utf8.DecodeRune (rest s)) as [c n] eqn:E. intros [= <- <-].
    right. split; [assumption|]. exists n.
    pose proof (rest_length s Hw) as L.
    assert (rest s <> []) as Hne.
    { intros E0. rewrite E0 in L. cbn in L. lia. }
    destruct (utf8_facts.DecodeRune_decoded _ _ _ Hne E) as [D Hn].
    repeat split; auto. lia.
Qed.

Lemma decoded_width p ch n : decoded p ch n -> 1 <= n /\ 0 <= ch.
Proof. intros [? ? ?|? ? ?|? ? ?]; subst; unfold utf8.RuneError; lia. Qed.

Lemma decoded_ascii p ch n : decoded p ch n -> ch < 0x80 ->
  n = 1 /\ ch = utf8.at_ p 0.
Proof.
  intros [Hn Hr Hb|Hn Hr Hb|Hn Hr Hb] Ha; subst; unfold utf8.RuneError in *;
    try lia; now split.
Qed.

Lemma read_moved s ch s1 : wf s -> read s = (ch, s1) ->
  moved 0 s s1 /\ 0 <= ch /\ (ch <> eof -> moved 1 s s1)
  /\ (pos s < len s -> moved 1 s s1).
Proof.
  intros Hw R. destruct (read_step _ _ _ Hw R) as [(H & -> & ->)|(H & n & -> & D & Hn)].
  - unfold eof. repeat split; unfold wf in Hw; try lia; congruence.
  - destruct (decoded_width _ _ _ D). unfold moved, wf in *. cbn.
    repeat split; try reflexivity; lia.
Qed.

Lemma unread_moved s ch s1 : wf s -> read s = (ch, s1) -> ch <> eof ->
  moved 0 s (unread s1).
Proof.
  intros Hw R Hc. destruct (read_step _ _ _ Hw R) as [(H & -> & ->)|(H & n & -> & D & Hn)];
    [congruence|].
  destruct (decoded_width _ _ _ D). unfold unread, moved, wf in *. cbn.
  destruct (Z.ltb_spec 0 (pos s + n)); cbn; repeat split; try reflexivity; lia.
Qed.

(** After reading an ASCII rune, [unread] restores the scanner. *)
Lemma unread_ascii s ch s1 : wf s -> read s = (ch, s1) -> ch <> eof ->
  ch < 0x80 -> unread s1 = s.
Proof.
  intros Hw R Hc Ha. destruct (read_step _ _ _ Hw R) as [(H & -> & ->)|(H & n & -> & D & Hn)];
    [congruence|].
  destruct (decoded_ascii _ _ _ D Ha) as [-> _]. unfold unread, wf in *. cbn.
  destruct (Z.ltb_spec 0 (pos s + 1)); [|lia].
  destruct s as [d p m]. unfold setPos. cbn. f_equal. lia.
Qed.

(** ** Every sub-scanner returns and moves the cursor forward *)

Ltac rn_norm :=
  repeat match goal with
  | |- context [rn ?c] =>
      let v := eval vm_compute in (rn c) in change (rn c) with v
  | H : context [rn ?c] |- _ =>
      let v := eval vm_compute in (rn c) in change (rn c) with v in H
  end.

Ltac bool_to_prop H :=
  rewrite ?orb_true_iff, ?andb_true_iff, ?orb_false_iff, ?andb_false_iff,
    ?negb_true_iff, ?negb_false_iff, ?Z.eqb_eq, ?Z.eqb_neq, ?Z.leb_le,
    ?Z.leb_gt, ?Z.ltb_lt, ?Z.ltb_ge in H.

Ltac rune_class H :=
  unfold isWhitespaceRune, isIdentifierStartRune, isNumberStartRune,
    isLetterRune, isDigitRune, isTextStartRune, isSignStartRune,
    isJoinStartRune, isGroupStartRune, isCommentStartRune,
    isIdentifierSpecialStartRune, isIdentifierCombineRune, eof in H;
  rn_norm; bool_to_prop H.

Ltac mv :=
  repeat match goal with
  | H : moved _ _ _ |- _ =>
      let L := fresh "L" in
      pose proof (moved_len _ _ _ H) as L; destruct H as (? & ? & ?)
  end;
  unfold moved, wf, remaining, loopFuel, nestFuel in *;
  repeat split; try congruence; try lia.



Lemma loops_from {A} s s1 (o : outcome A) :
  moved 0 s s1 -> loops s1 o -> loops s o.
Proof.
  intros M (a & s' & E & M'). exists a, s'. split; [assumption|].
  apply (moved_trans 0 0 s s1 s'); assumption.
Qed.

Lemma loops_from1 {A} s s1 (o : outcome A) :
  moved 1 s s1 -> loops s1 o ->
  exists a s', o = Ret a s' /\ moved 1 s s'.
Proof.
  intros M (a & s' & E & M'). exists a, s'. split; [assumption|].
  apply (moved_trans 1 0 s s1 s'); assumption.
Qed.

Lemma scanRunLoop_loops accept fuel : forall s buf,
  wf s -> (remaining s < fuel)%nat -> loops s (scanRunLoop accept fuel s buf).
Proof.
  induction fuel as [|f IH]; intros s buf Hw Hf; [lia|].
  cbn [scanRunLoop]. destruct (read s) as [ch s1] eqn:R.
  destruct (read_moved _ _ _ Hw R) as (M0 & Hch & M1 & _).
  destruct (Z.eqb_spec ch eof) as [E|E].
  - exists buf, s1. now split.
  - destruct (accept ch); cbn [negb].
    + specialize (M1 E). apply (loops_from s s1); [assumption|].
      apply IH; [apply (moved_wf 1 s s1); [lia|assumption|assumption]|].
      pose proof (moved_remaining 1 _ _ ltac:(lia) M1). lia.
    + exists buf, (unread s1). split; [reflexivity|].
      eapply unread_moved; eauto.
Qed.

(** A run scanner entered on a rune of its class reads that rune. *)
Lemma scanRunLoop_first accept s ch s1 :
  wf s -> read s = (ch, s1) -> ch <> eof -> accept ch = true ->
  exists buf s', scanRunLoop accept (loopFuel s) s [] = Ret buf s' /\ moved 1 s s'.
Proof.
  intros Hw R E A. unfold loopFuel. cbn [scanRunLoop]. rewrite R.
  destruct (Z.eqb_spec ch eof); [contradiction|]. rewrite A. cbn [negb].
  destruct (read_moved _ _ _ Hw R) as (M0 & Hch & M1 & _). specialize (M1 E).
  apply (loops_from1 s s1); [assumption|].
  apply scanRunLoop_loops; [apply (moved_wf 1 s s1); [lia|assumption|assumption]|].
  pose proof (moved_remaining 1 _ _ ltac:(lia) M1). lia.
Qed.

Lemma scanWhitespace_scans s ch s1 :
  wf s -> read s = (ch, s1) -> ch <> eof -> isWhitespaceRune ch = true ->
  scans 1 s (scanWhitespace s).
Proof.
  intros Hw R E A. unfold scanWhitespace.
  destruct (scanRunLoop_first _ _ _ _ Hw R E A) as (buf & s' & -> & M).
  do 3 eexists. split; [reflexivity|]. split; [assumption|]. discriminate.
Qed.

(** Without a leading white space rune it still returns: this is the call
    of [scanFunctionArgs], made after the first such rune was read. *)
Lemma scanWhitespace_any s : wf s ->
  exists t s', scanWhitespace s = Ret (t, None) s' /\ moved 0 s s'.
Proof.
  intros Hw. unfold scanWhitespace.
  destruct (scanRunLoop_loops isWhitespaceRune (loopFuel s) s [] Hw)
    as (buf & s' & -> & M); [unfold loopFuel; lia|].
  do 2 eexists. split; [reflexivity|assumption].
Qed.

Lemma scanSign_scans s ch s1 :
  wf s -> read s = (ch, s1) -> ch <> eof -> isSignStartRune ch = true ->
  scans 1 s (scanSign s).
Proof.
  intros Hw R E A. unfold scanSign.
  destruct (scanRunLoop_first _ _ _ _ Hw R E A) as (buf & s' & -> & M).
  do 3 eexists. split; [reflexivity|]. split; [assumption|]. discriminate.
Qed.

Lemma scanJoin_scans s ch s1 :
  wf s -> read s = (ch, s1) -> ch <> eof -> isJoinStartRune ch = true ->
  scans 1 s (scanJoin s).
Proof.
  intros Hw R E A. unfold scanJoin.
  destruct (scanRunLoop_first _ _ _ _ Hw R E A) as (buf & s' & -> & M).
  do 3 eexists. split; [reflexivity|]. split; [assumption|]. discriminate.
Qed.

Lemma EncodeRune_nonempty r : utf8.EncodeRune r <> [].
Proof.
  unfold utf8.EncodeRune, utf8.enc3.
  repeat match goal with |- context [if ?c then _ else _] => destruct c end;
    discriminate.
Qed.

Lemma WriteRune_nonempty buf ch : WriteRune buf ch <> [].
Proof.
  unfold WriteRune. intros E. apply app_eq_nil in E.
  now apply (EncodeRune_nonempty ch).
Qed.

Ltac step_read Hw :=
  match goal with
  | |- context [read ?s] =>
      let ch := fresh "ch" in let s1 := fresh "s1" in
      let R := fresh "R" in let M0 := fresh "M0" in
      let Hch := fresh "Hch" in let M1 := fresh "M1" in
      destruct (read s) as [ch s1] eqn:R;
      destruct (read_moved _ _ _ Hw R) as (M0 & Hch & M1 & _)
  end.

Lemma scanNumberLoop_loops fuel : forall s buf hadDot,
  wf s -> (remaining s < fuel)%nat ->
  exists buf' s', scanNumberLoop fuel s buf hadDot = Ret buf' s'
    /\ moved 0 s s' /\ (buf <> [] -> buf' <> []).
Proof.
  induction fuel as [|f IH]; intros s buf hadDot Hw Hf; [lia|].
  cbn [scanNumberLoop]. step_read Hw.
  destruct (Z.eqb_spec ch eof) as [E|E].
  - exists buf, s1. auto.
  - match goal with |- context [if ?c then _ else _] => destruct c end.
    + exists buf, (unread s1). split; [reflexivity|]. split; [|auto].
      eapply unread_moved; eauto.
    + specialize (M1 E).
      destruct (IH s1 (WriteRune buf ch) (if ch =? rn "." then true else hadDot))
        as (buf' & s' & -> & M & N).
      * apply (moved_wf 1 s s1); [lia|assumption|assumption].
      * pose proof (moved_remaining 1 _ _ ltac:(lia) M1). lia.
      * exists buf', s'. split; [reflexivity|]. split.
        -- apply (moved_trans 0 0 s s1 s'); assumption.
        -- intros _. apply N, WriteRune_nonempty.
Qed.

Lemma scanNumber_scans s ch s1 :
  wf s -> read s = (ch, s1) -> ch <> eof -> isNumberStartRune ch = true ->
  scans 1 s (scanNumber s).
Proof.
  intros Hw R E A. unfold scanNumber, loopFuel. cbn [scanNumberLoop]. rewrite R.
  destruct (Z.eqb_spec ch eof); [contradiction|].
  assert (negb (isDigitRune ch)
          && (negb (ch =? rn "-") || negb (Z.of_nat (List.length (@nil byte)) =? 0))
          && (negb (ch =? rn ".") || false) = false) as ->.
  { unfold isNumberStartRune in A. apply orb_true_iff in A as [A|A]; rewrite A; cbn.
    - now rewrite andb_false_r.
    - reflexivity. }
  destruct (read_moved _ _ _ Hw R) as (M0 & Hch & M1 & _). specialize (M1 E).
  destruct (scanNumberLoop_loops (remaining s) s1 (WriteRune [] ch)
              (if ch =? rn "." then true else false)) as (buf' & s' & -> & M & N).
  - apply (moved_wf 1 s s1); [lia|assumption|assumption].
  - pose proof (moved_remaining 1 _ _ ltac:(lia) M1). lia.
  - specialize (N (WriteRune_nonempty _ _)). destruct buf' as [|c0 tl]; [congruence|].
    do 3 eexists. split; [reflexivity|]. split; [|discriminate].
    apply (moved_trans 1 0 s s1 s'); assumption.
Qed.

Lemma scanTextLoop_loops fuel : forall s firstCh prevCh buf,
  wf s -> (remaining s < fuel)%nat ->
  loops s (scanTextLoop fuel s firstCh prevCh buf).
Proof.
  induction fuel as [|f IH]; intros s firstCh prevCh buf Hw Hf; [lia|].
  cbn [scanTextLoop]. step_read Hw.
  destruct (Z.eqb_spec ch eof) as [E|E].
  - eexists _, s1. split; [reflexivity|assumption].
  - match goal with |- context [if ?c then _ else _] => destruct c end.
    + eexists _, s1. split; [reflexivity|assumption].
    + specialize (M1 E). apply (loops_from s s1); [assumption|].
      apply IH; [apply (moved_wf 1 s s1); [lia|assumption|assumption]|].
      pose proof (moved_remaining 1 _ _ ltac:(lia) M1). lia.
Qed.

Lemma scanText_scans preserveQuotes s ch s1 :
  wf s -> read s = (ch, s1) -> ch <> eof -> scans 1 s (scanText preserveQuotes s).
Proof.
  intros Hw R E. unfold scanText. rewrite R.
  destruct (read_moved _ _ _ Hw R) as (M0 & Hch & M1 & _). specialize (M1 E).
  destruct (scanTextLoop_loops (loopFuel s1) s1 ch 0 (WriteRune [] ch))
    as ([literal has] & s' & -> & M).
  - apply (moved_wf 1 s s1); [lia|assumption|assumption].
  - unfold loopFuel. lia.
  - pose proof (moved_trans 1 0 s s1 s' M1 M) as M'.
    destruct has; cbn [negb]; [destruct preserveQuotes; cbn [negb]|];
      (do 3 eexists; split; [reflexivity|]; split; [exact M'|discriminate]).
Qed.

Lemma scanCommentLoop_loops fuel : forall s buf,
  wf s -> (remaining s < fuel)%nat -> loops s (scanCommentLoop fuel s buf).
Proof.
  induction fuel as [|f IH]; intros s buf Hw Hf; [lia|].
  cbn [scanCommentLoop]. step_read Hw.
  destruct (Z.eqb_spec ch eof) as [E|E]; cbn [orb].
  - exists buf, s1. now split.
  - destruct (ch =? 10).
    + exists buf, s1. now split.
    + specialize (M1 E). apply (loops_from s s1); [assumption|].
      apply IH; [apply (moved_wf 1 s s1); [lia|assumption|assumption]|].
      pose proof (moved_remaining 1 _ _ ltac:(lia) M1). lia.
Qed.

Lemma scanComment_scans s ch s1 :
  wf s -> read s = (ch, s1) -> ch <> eof -> scans 1 s (scanComment s).
Proof.
  intros Hw R E. unfold scanComment. rewrite R.
  destruct (read_moved _ _ _ Hw R) as (M0 & Hch & M1 & _). specialize (M1 E).
  assert (Hw1 : wf s1) by (apply (moved_wf 1 s s1); [lia|assumption|assumption]).
  destruct (isCommentStartRune ch); cbn [negb].
  2:{ do 3 eexists. split; [reflexivity|]. split; [assumption|discriminate]. }
  destruct (read s1) as [c2 s2] eqn:R2.
  destruct (read_moved _ _ _ Hw1 R2) as (M2 & _ & _ & _).
  pose proof (moved_trans 1 0 s s1 s2 M1 M2) as M12.
  destruct (isCommentStartRune c2); cbn [negb].
  2:{ do 3 eexists. split; [reflexivity|]. split; [assumption|discriminate]. }
  destruct (scanCommentLoop_loops (loopFuel s2) s2 []) as (buf & s' & -> & M).
  - apply (moved_wf 0 s1 s2); [lia|assumption|assumption].
  - unfold loopFuel. lia.
  - do 3 eexists. split; [reflexivity|]. split; [|discriminate].
    apply (moved_trans 1 0 s s2 s'); assumption.
Qed.

Lemma text_start_ascii ch : isTextStartRune ch = true -> ch <> eof /\ ch < 0x80.
Proof. intros H. rune_class H. unfold eof. lia. Qed.

Lemma scanGroupLoop_loops fuel : forall s openGroups buf,
  wf s -> (remaining s < fuel)%nat ->
  loops s (scanGroupLoop fuel s openGroups buf).
Proof.
  induction fuel as [|f IH]; intros s openGroups buf Hw Hf; [lia|].
  cbn [scanGroupLoop]. step_read Hw.
  assert (Hrec : ch <> eof -> forall og b, loops s (scanGroupLoop f s1 og b)).
  { intros E og b. specialize (M1 E). apply (loops_from s s1); [assumption|].
    apply IH; [apply (moved_wf 1 s s1); [lia|assumption|assumption]|].
    pose proof (moved_remaining 1 _ _ ltac:(lia) M1). lia. }
  destruct (Z.eqb_spec ch eof) as [E|E].
  { eexists _, s1. split; [reflexivity|assumption]. }
  destruct (isGroupStartRune ch); [now apply Hrec|].
  destruct (isTextStartRune ch) eqn:T.
  { destruct (text_start_ascii _ T) as [_ Ha].
    rewrite (unread_ascii _ _ _ Hw R E Ha).
    destruct (scanText_scans true _ _ _ Hw R E) as (t & e & s2 & -> & M & _).
    destruct e as [err|].
    - eexists _, s2. split; [reflexivity|]. eapply moved_weaken; [|exact M]. lia.
    - apply (loops_from s s2); [eapply moved_weaken; [|exact M]; lia|].
      apply IH; [apply (moved_wf 1 s s2); [lia|assumption|assumption]|].
      pose proof (moved_remaining 1 _ _ ltac:(lia) M). lia. }
  destruct (ch =? rn ")"); [|now apply Hrec].
  destruct (openGroups - 1 <=? 0); [|now apply Hrec].
  eexists _, s1. split; [reflexivity|assumption].
Qed.

Lemma scanGroup_scans s ch s1 :
  wf s -> read s = (ch, s1) -> ch <> eof -> scans 1 s (scanGroup s).
Proof.
  intros Hw R E. unfold scanGroup. rewrite R.
  destruct (read_moved _ _ _ Hw R) as (M0 & Hch & M1 & _). specialize (M1 E).
  destruct (scanGroupLoop_loops (loopFuel s1) s1 1 [])
    as ([[literal og] e] & s' & -> & M).
  - apply (moved_wf 1 s s1); [lia|assumption|assumption].
  - unfold loopFuel. lia.
  - pose proof (moved_trans 1 0 s s1 s' M1 M) as M'.
    destruct e; (do 3 eexists; split; [reflexivity|]; split; [exact M'|discriminate]).
Qed.

Lemma scans_from j k s s1 o : moved j s s1 -> scans k s1 o -> scans (j + k) s o.
Proof.
  intros M (t & e & s' & E & M' & T). exists t, e, s'.
  split; [assumption|]. split; [|assumption].
  apply (moved_trans j k s s1 s'); assumption.
Qed.

Lemma scans_weaken j k s o : k <= j -> scans j s o -> scans k s o.
Proof.
  intros H (t & e & s' & E & M & T). exists t, e, s'.
  split; [assumption|]. split; [|assumption]. now apply (moved_weaken j).
Qed.

Lemma scans_ret k s t e s' : moved k s s' -> Type_ t <> TokenEOF ->
  scans k s (Ret (t, e) s').
Proof. intros M T. exists t, e, s'. auto. Qed.

Lemma identifierToken_scans k s s' buf : buf <> [] -> moved k s s' ->
  scans k s (identifierToken buf s').
Proof.
  intros Hb M. unfold identifierToken, isValidIdentifier.
  destruct buf as [|c0 tl]; [congruence|].
  apply scans_ret; [assumption|discriminate].
Qed.

Lemma remaining_pos s : pos s < len s -> (1 <= remaining s)%nat.
Proof. unfold remaining. lia. Qed.

Lemma ident_start_ascii ch : isIdentifierStartRune ch = true -> ch <> eof /\ ch < 0x80.
Proof. intros H. rune_class H. unfold eof. lia. Qed.

Lemma number_start_ascii ch : isNumberStartRune ch = true -> ch <> eof /\ ch < 0x80.
Proof. intros H. rune_class H. unfold eof. lia. Qed.

Lemma comment_start_ascii ch : isCommentStartRune ch = true -> ch <> eof /\ ch < 0x80.
Proof. intros H. rune_class H. unfold eof. lia. Qed.


Lemma nested_scans fuel : nested_ok fuel.
Proof.
  induction fuel as [|f (IHloop & IHid & IHfn & IHargs)]; unfold nested_ok.
  { repeat split; intros; try lia;
      match goal with H : pos _ < len _ |- _ => apply remaining_pos in H; lia end. }
  repeat split.
  - (* scanIdentifierLoop *)
    intros depth s buf Hw Hb Hf. cbn [scanIdentifierLoop]. step_read Hw.
    destruct (Z.eqb_spec ch eof) as [E|E]; [now apply identifierToken_scans|].
    specialize (M1 E).
    assert (Hw1 : wf s1) by (apply (moved_wf 1 s s1); [lia|assumption|assumption]).
    pose proof (moved_remaining 1 _ _ ltac:(lia) M1) as Hr.
    destruct (Z.eqb_spec ch (rn "(")) as [P|P].
    + destruct (depth <=? 0); [apply scans_ret; [assumption|discriminate]|].
      destruct buf as [|c0 tl]; [congruence|]. cbn [isValidIdentifier].
      match goal with |- context [if ?b then _ else _] => destruct b end.
      2:{ apply scans_ret; [assumption|discriminate]. }
      rewrite (unread_ascii _ _ _ Hw R E) by (rewrite P; vm_compute; reflexivity).
      apply (scans_weaken 1); [lia|]. apply IHfn; [assumption| |lia].
      destruct M1 as (_ & _ & M1). lia.
    + match goal with |- context [if ?c then _ else _] => destruct c end.
      * apply identifierToken_scans; [assumption|]. eapply unread_moved; eauto.
      * apply (scans_from 0 0 s s1); [assumption|].
        apply IHloop; [assumption|apply WriteRune_nonempty|lia].
  - (* scanIdentifierFuel *)
    intros depth s Hw Hp Hf. cbn [scanIdentifierFuel].
    destruct (read s) as [ch s1] eqn:R.
    destruct (read_moved _ _ _ Hw R) as (M0 & Hch & _ & M1). specialize (M1 Hp).
    pose proof (moved_remaining 1 _ _ ltac:(lia) M1) as Hr.
    apply (scans_from 1 0 s s1); [assumption|].
    apply IHloop; [apply (moved_wf 1 s s1); [lia|assumption|assumption]
                  |apply WriteRune_nonempty|lia].
  - (* scanFunctionArgsFuel *)
    intros name depth s Hw Hp Hf. cbn [scanFunctionArgsFuel].
    destruct (read s) as [ch s1] eqn:R.
    destruct (read_moved _ _ _ Hw R) as (M0 & Hch & _ & M1). specialize (M1 Hp).
    pose proof (moved_remaining 1 _ _ ltac:(lia) M1) as Hr.
    destruct (ch =? rn "("); cbn [negb].
    + apply (scans_from 1 0 s s1); [assumption|].
      apply IHargs; [apply (moved_wf 1 s s1); [lia|assumption|assumption]|lia].
    + apply scans_ret; [assumption|discriminate].
  - (* scanFunctionArgsLoop *)
    intros name depth s args ec Hw Hf. cbn [scanFunctionArgsLoop]. step_read Hw.
    destruct (Z.eqb_spec ch eof) as [E|E];
      [apply scans_ret; [assumption|discriminate]|].
    specialize (M1 E).
    assert (Hw1 : wf s1) by (apply (moved_wf 1 s s1); [lia|assumption|assumption]).
    pose proof (moved_remaining 1 _ _ ltac:(lia) M1) as Hr.
    assert (M10 : moved 0 s s1) by (apply (moved_weaken 1); [lia|assumption]).
    assert (Hnext : forall s2 a c, moved 1 s s2 ->
              scans 0 s (scanFunctionArgsLoop f name depth s2 a c)).
    { intros s2 a c M. apply (scans_from 0 0 s s2);
        [apply (moved_weaken 1); [lia|assumption]|].
      pose proof (moved_remaining 1 _ _ ltac:(lia) M).
      apply IHargs; [apply (moved_wf 1 s s2); [lia|assumption|assumption]|lia]. }
    assert (Hsub : forall (o : scanned) (wrap : Token -> error -> error)
                     (next : Token -> list Token) c,
              scans 1 s o ->
              scans 0 s match o with
                        | Ret (t, Some err) s2 =>
                            Ret (functionToken name args, Some (wrap t err)) s2
                        | Ret (t, None) s2 =>
                            scanFunctionArgsLoop f name depth s2 (next t) c
                        | Panic => Panic
                        | OutOfFuel => OutOfFuel
                        end).
    { intros o wrap next c (t & e & s2 & -> & M & _). destruct e.
      - apply scans_ret; [apply (moved_weaken 1); [lia|assumption]|discriminate].
      - now apply Hnext. }
    destruct (ch =? rn ")"); [apply scans_ret; [assumption|discriminate]|].
    destruct (isWhitespaceRune ch).
    { destruct (scanWhitespace_any s1 Hw1) as (t & s2 & -> & M).
      apply Hnext. apply (moved_trans 1 0 s s1 s2); assumption. }
    destruct (isCommentStartRune ch) eqn:C.
    { destruct (comment_start_ascii _ C) as [_ Ha].
      rewrite (unread_ascii _ _ _ Hw R E Ha).
      apply (Hsub _ (fun _ err => ErrFuncComment name err) (fun _ => args)).
      eapply scanComment_scans; eauto. }
    destruct (ec && negb (ch =? rn ","));
      [apply scans_ret; [assumption|discriminate]|].
    destruct (negb ec && (ch =? rn ","));
      [apply scans_ret; [assumption|discriminate]|].
    destruct (ch =? rn ","); [now apply Hnext|].
    destruct (isIdentifierStartRune ch) eqn:I.
    { destruct (ident_start_ascii _ I) as [_ Ha].
      rewrite (unread_ascii _ _ _ Hw R E Ha).
      apply (Hsub _ (fun t err => ErrIdentifierArg (Literal t) name err)
                   (fun t => args ++ [t])).
      apply IHid; [assumption| |lia]. destruct M1 as (_ & _ & M1). lia. }
    destruct (isNumberStartRune ch) eqn:N.
    { destruct (number_start_ascii _ N) as [_ Ha].
      rewrite (unread_ascii _ _ _ Hw R E Ha).
      apply (Hsub _ (fun t err => ErrNumberArg (Literal t) name err)
                   (fun t => args ++ [t])).
      eapply scanNumber_scans; eauto. }
    destruct (isTextStartRune ch) eqn:T.
    { destruct (text_start_ascii _ T) as [_ Ha].
      rewrite (unread_ascii _ _ _ Hw R E Ha).
      apply (Hsub _ (fun t err => ErrTextArg (Literal t) name err)
                   (fun t => args ++ [t])).
      eapply scanText_scans; eauto. }
    apply scans_ret; [assumption|discriminate].
Qed.

(** ** Scan *)

(** [Scan] returns: at the end of the buffer, or on a NUL byte, the [EOF]
    token without an error; otherwise a token that is not [EOF], with the
    cursor moved forward. *)
Lemma Scan_returns s : wf s ->
  exists t e s', Scan s = Ret (t, e) s' /\ moved 0 s s'
    /\ ((t = eofToken /\ e = None) \/ (Type_ t <> TokenEOF /\ moved 1 s s')).
Proof.
  intros Hw.
  assert (Hsub : forall o, scans 1 s o ->
            exists t e s', o = Ret (t, e) s' /\ moved 0 s s'
              /\ ((t = eofToken /\ e = None) \/ (Type_ t <> TokenEOF /\ moved 1 s s'))).
  { intros o (t & e & s' & -> & M & T). exists t, e, s'.
    split; [reflexivity|]. split; [apply (moved_weaken 1); [lia|assumption]|].
    right. now split. }
  unfold Scan. step_read Hw.
  destruct (Z.eqb_spec ch eof) as [E|E].
  { do 3 eexists. split; [reflexivity|]. split; [assumption|]. left. now split. }
  specialize (M1 E).
  destruct (isWhitespaceRune ch) eqn:C1.
  { assert (ch < 0x80) as Ha by (rune_class C1; lia).
    rewrite (unread_ascii _ _ _ Hw R E Ha). apply Hsub.
    eapply scanWhitespace_scans; eauto. }
  destruct (isGroupStartRune ch) eqn:C2.
  { assert (ch < 0x80) as Ha by (rune_class C2; lia).
    rewrite (unread_ascii _ _ _ Hw R E Ha). apply Hsub.
    eapply scanGroup_scans; eauto. }
  destruct (isIdentifierStartRune ch) eqn:C3.
  { destruct (ident_start_ascii _ C3) as [_ Ha].
    rewrite (unread_ascii _ _ _ Hw R E Ha). apply Hsub.
    unfold scanIdentifier. apply nested_scans; [assumption| |unfold nestFuel; lia].
    destruct M1 as (_ & _ & M1). unfold wf in Hw. lia. }
  destruct (isNumberStartRune ch) eqn:C4.
  { destruct (number_start_ascii _ C4) as [_ Ha].
    rewrite (unread_ascii _ _ _ Hw R E Ha). apply Hsub.
    eapply scanNumber_scans; eauto. }
  destruct (isTextStartRune ch) eqn:C5.
  { destruct (text_start_ascii _ C5) as [_ Ha].
    rewrite (unread_ascii _ _ _ Hw R E Ha). apply Hsub.
    eapply scanText_scans; eauto. }
  destruct (isSignStartRune ch) eqn:C6.
  { assert (ch < 0x80) as Ha by (rune_class C6; lia).
    rewrite (unread_ascii _ _ _ Hw R E Ha). apply Hsub.
    eapply scanSign_scans; eauto. }
  destruct (isJoinStartRune ch) eqn:C7.
  { assert (ch < 0x80) as Ha by (rune_class C7; lia).
    rewrite (unread_ascii _ _ _ Hw R E Ha). apply Hsub.
    eapply scanJoin_scans; eauto. }
  destruct (isCommentStartRune ch) eqn:C8.
  { destruct (comment_start_ascii _ C8) as [_ Ha].
    rewrite (unread_ascii _ _ _ Hw R E Ha). apply Hsub.
    eapply scanComment_scans; eauto. }
  do 3 eexists. split; [reflexivity|]. split; [assumption|]. right.
  split; [discriminate|assumption].
Qed.

Lemma Scan_at_end s : len s <= pos s -> Scan s = Ret (eofToken, None) s.
Proof. intros H. unfold Scan. now rewrite (read_end s H). Qed.

(** C8. At the end of the input every call of [Scan], however many are
    made in a row, returns the [EOF] token without an error and leaves the
    scanner, and with it the cursor, as it was. *)
Theorem eof_is_stable (s : Scanner) (n : nat) :
  len s <= pos s -> nthScan n s = Ret (eofToken, None) s.
Proof.
  intros H. induction n as [|n IH]; cbn [nthScan]; rewrite (Scan_at_end s H);
    [reflexivity|exact IH].
Qed.

Lemma eof_is_stable_witness :
  len (mkScanner (B "id") 2 3) <= pos (mkScanner (B "id") 2 3)
  /\ nthScan 5 (mkScanner (B "id") 2 3)
     = Ret (eofToken, None) (mkScanner (B "id") 2 3).
Proof.
  assert (H : len (mkScanner (B "id") 2 3) <= pos (mkScanner (B "id") 2 3))
    by (cbn; lia).
  split; [exact H|apply (eof_is_stable _ 5 H)].
Defined.

Lemma nthScan_reaches_eof : forall r s, wf s -> (remaining s <= r)%nat ->
  exists n s', (n <= remaining s)%nat /\ nthScan n s = Ret (eofToken, None) s'.
Proof.
  induction r as [|r IH]; intros s Hw Hr.
  - exists O, s. split; [lia|]. cbn. apply Scan_at_end. unfold remaining in Hr. lia.
  - destruct (Scan_returns s Hw) as (t & e & s1 & E & M0 & [[-> ->]|[T M1]]).
    + exists O, s1. split; [lia|exact E].
    + pose proof (moved_remaining 1 _ _ ltac:(lia) M1) as Hm.
      destruct (IH s1) as (n & s' & Hn & En);
        [apply (moved_wf 1 s s1); [lia|assumption|assumption]|lia|].
      exists (S n), s'. split; [lia|]. cbn [nthScan]. now rewrite E.
Qed.

(** C9. With the cursor inside the buffer, [Scan] returns; the cursor
    stays inside the same buffer; a token other than [EOF] moves it forward
    by one byte or more; and a row of calls meets the [EOF] token after at
    most as many calls as bytes remain. *)
Theorem Scan_progress (s : Scanner) :
  0 <= pos s <= len s ->
  (exists t e s', Scan s = Ret (t, e) s'
     /\ data s' = data s /\ 0 <= pos s' <= len s'
     /\ (Type_ t <> TokenEOF -> pos s + 1 <= pos s'))
  /\ (exists n s', (n <= remaining s)%nat
        /\ nthScan n s = Ret (eofToken, None) s').
Proof.
  intros Hw. split.
  - destruct (Scan_returns s Hw) as (t & e & s' & E & M0 & H).
    exists t, e, s'. split; [exact E|].
    pose proof (moved_len _ _ _ M0) as L. destruct M0 as (D & _ & P).
    split; [exact D|]. split; [unfold wf in Hw; lia|].
    intros T. destruct H as [[-> _]|[_ (_ & _ & M1)]]; [now elim T|lia].
  - apply (nthScan_reaches_eof (remaining s)); [exact Hw|lia].
Qed.

Lemma Scan_progress_witness :
  0 <= pos (NewScanner (B "id > 123")) <= len (NewScanner (B "id > 123"))
  /\
  (exists t e s', Scan (NewScanner (B "id > 123")) = Ret (t, e) s'
     /\ data s' = B "id > 123" /\ 0 <= pos s' <= len s'
     /\ (Type_ t <> TokenEOF -> 0 + 1 <= pos s'))
  /\ (exists n s', (n <= 8)%nat
        /\ nthScan n (NewScanner (B "id > 123")) = Ret (eofToken, None) s').
Proof.
  assert (H : 0 <= pos (NewScanner (B "id > 123")) <= len (NewScanner (B "id > 123")))
    by (cbn; lia).
  split; [exact H|exact (Scan_progress _ H)].
Defined.

(** ** Concrete scans *)

(** C10. Scanning [()] returns a [Group] token with an empty literal and
    no error: the scanner does not reject an empty group. *)
Theorem empty_group_is_scanned :
  Scan (NewScanner (B "()"))
  = Ret (mkToken None TokenGroup [], None) (mkScanner (B "()") 2 3).
Proof. vm_compute. reflexivity. Qed.

(** C5. With the default depth of 3, [a(b(c(1)))] is scanned as three
    nested function tokens without an error, while [a(b(c(d(1))))] fails:
    the error raised for the fourth function [d] is the max-depth error,
    it is wrapped once by each of the three enclosing calls, and the token
    returned is the function [a] with no argument collected. *)
Theorem function_depth_ceiling :
  Scan (NewScanner (B "a(b(c(1)))"))
  = Ret (functionToken (B "a")
           [functionToken (B "b")
              [functionToken (B "c") [mkToken None TokenNumber (B "1")]]],
         None)
        (mkScanner (B "a(b(c(1)))") 10 3)
  /\ Scan (NewScanner (B "a(b(c(d(1))))"))
     = Ret (functionToken (B "a") [],
            Some (ErrIdentifierArg (B "b") (B "a")
                    (ErrIdentifierArg (B "c") (B "b")
                       (ErrIdentifierArg (B "d") (B "c")
                          (ErrMaxNestedFunc 3)))))
           (mkScanner (B "a(b(c(d(1))))") 8 3).
Proof. split; vm_compute; reflexivity. Qed.

(** C7 (the code departs from it).  On the bytes [31 D0 90], the digit
    [1] followed by the two-byte letter U+0410: the number scanner reads
    the letter, which moves the cursor from 1 to 3, and [unread] puts it at
    2, inside the letter, not at 1 in front of it; the next [Scan] then
    decodes the stray byte [90] and returns the replacement rune U+FFFD. *)
Theorem unread_steps_back_one_byte :
  let d := map z2b [0x31; 0xD0; 0x90] in
  read (mkScanner d 1 3) = (0x410, mkScanner d 3 3)
  /\ unread (mkScanner d 3 3) = mkScanner d 2 3
  /\ Scan (NewScanner d)
     = Ret (mkToken None TokenNumber (B "1"), None) (mkScanner d 2 3)
  /\ Scan (mkScanner d 2 3)
     = Ret (mkToken None TokenUnexpected (utf8.EncodeRune utf8.RuneError),
            Some (ErrUnexpectedChar utf8.RuneError)) (mkScanner d 3 3).
Proof. repeat split; vm_compute; reflexivity. Qed.

(** ** Identifiers *)

Lemma EncodeRune_ascii ch : 0 <= ch < 0x80 -> utf8.EncodeRune ch = [z2b ch].
Proof.
  intros H. unfold utf8.EncodeRune.
  destruct (Z.leb_spec 0 ch); [|lia]. destruct (Z.ltb_spec ch 0x80); [|lia].
  reflexivity.
Qed.

Lemma identifier_rune_ascii ch : isIdentifierRune ch = true -> 0 < ch < 0x80.
Proof.
  unfold isIdentifierRune. intros H. rune_class H. lia.
Qed.

Lemma identifier_exit_test ch :
  negb (isLetterRune ch) && negb (isDigitRune ch)
  && negb (isIdentifierCombineRune ch) && negb (ch =? rn "_")
  = negb (isIdentifierRune ch).
Proof.
  unfold isIdentifierRune. now rewrite !negb_orb.
Qed.

Lemma scanFunctionArgsLoop_type fuel : forall name depth s args ec t e s',
  scanFunctionArgsLoop fuel name depth s args ec = Ret (t, e) s' ->
  Type_ t = TokenFunction.
Proof.
  induction fuel as [|f IH]; intros name depth s args ec t e s'; [discriminate|].
  cbn [scanFunctionArgsLoop]. destruct (read s) as [ch s1].
  repeat match goal with
  | |- (if ?c then _ else _) = _ -> _ => destruct c
  | |- match ?o with Ret _ _ => _ | Panic => _ | OutOfFuel => _ end = _ -> _ =>
      destruct o as [[? [?|]] ?| |]
  | |- Ret _ _ = Ret _ _ -> _ => intros [= <- <- <-]; reflexivity
  | |- scanFunctionArgsLoop f _ _ _ _ _ = _ -> _ => apply IH
  | |- Panic = _ -> _ => discriminate
  | |- OutOfFuel = _ -> _ => discriminate
  end.
Qed.

Lemma scanFunctionArgsFuel_type fuel name depth s t e s' :
  scanFunctionArgsFuel fuel name depth s = Ret (t, e) s' -> Type_ t = TokenFunction.
Proof.
  destruct fuel as [|f]; [discriminate|]. cbn [scanFunctionArgsFuel].
  destruct (read s) as [ch s1]. destruct (negb (ch =? rn "(")).
  - intros [= <- <- <-]. reflexivity.
  - apply scanFunctionArgsLoop_type.
Qed.


Lemma identifierToken_inv buf s t e s' : identifierToken buf s = Ret (t, e) s' ->
  Literal t = buf /\ identifierVerdict t e.
Proof.
  unfold identifierToken, identifierVerdict.
  destruct (isValidIdentifier buf) as [ok|] eqn:V; [|discriminate].
  intros [= <- <- <-]. cbn [Literal]. split; [reflexivity|]. now exists ok.
Qed.

Lemma scanIdentifierLoop_literal fuel : forall depth s buf t e s',
  scanIdentifierLoop fuel depth s buf = Ret (t, e) s' ->
  Type_ t = TokenIdentifier ->
  exists ext, Literal t = buf ++ ext
    /\ Forall (fun c => isIdentifierRune (b2z c) = true) ext
    /\ identifierVerdict t e.
Proof.
  induction fuel as [|f IH]; intros depth s buf t e s'; [discriminate|].
  cbn [scanIdentifierLoop]. destruct (read s) as [ch s1].
  destruct (ch =? eof).
  { intros H _. apply identifierToken_inv in H as [L V].
    exists []. rewrite app_nil_r. auto. }
  destruct (ch =? rn "(").
  { destruct (depth <=? 0); [intros [= <- <- <-]; discriminate|].
    destruct (isValidIdentifier buf) as [[|]|]; try discriminate.
    - intros H T. apply scanFunctionArgsFuel_type in H. congruence.
    - intros [= <- <- <-]; discriminate. }
  rewrite identifier_exit_test. destruct (isIdentifierRune ch) eqn:I; cbn [negb].
  - intros H T. destruct (IH _ _ _ _ _ _ H T) as (ext & L & F & V).
    pose proof (identifier_rune_ascii _ I) as A.
    unfold WriteRune in L. rewrite EncodeRune_ascii in L by lia.
    exists (z2b ch :: ext). rewrite L, <- app_assoc. split; [reflexivity|].
    split; [|assumption]. constructor; [|assumption].
    rewrite b2z_z2b by lia. assumption.
  - intros H _. apply identifierToken_inv in H as [L V].
    exists []. rewrite app_nil_r. auto.
Qed.

Ltac type_of_result :=
  repeat match goal with
  | |- context [let '(_, _) := read ?s in _] => destruct (read s) as [? ?]
  | |- context [match ?o with Ret _ _ => _ | Panic => _ | OutOfFuel => _ end] =>
      destruct o as [? ?| |]
  | |- context [let '(_, _) := ?p in _] => destruct p
  | |- context [if ?c then _ else _] => destruct c
  | |- context [match ?l with [] => _ | _ :: _ => _ end] => destruct l
  | |- context [match ?o with Some _ => _ | None => _ end] => destruct o
  end;
  try discriminate; intros [= <- <- <-]; reflexivity.

Lemma scanWhitespace_type s t e s' :
  scanWhitespace s = Ret (t, e) s' -> Type_ t = TokenWS.
Proof. unfold scanWhitespace. type_of_result. Qed.

Lemma scanSign_type s t e s' : scanSign s = Ret (t, e) s' -> Type_ t = TokenSign.
Proof. unfold scanSign. type_of_result. Qed.

Lemma scanJoin_type s t e s' : scanJoin s = Ret (t, e) s' -> Type_ t = TokenJoin.
Proof. unfold scanJoin. type_of_result. Qed.

Lemma scanNumber_type s t e s' :
  scanNumber s = Ret (t, e) s' -> Type_ t = TokenNumber.
Proof. unfold scanNumber. type_of_result. Qed.

Lemma scanText_type p s t e s' : scanText p s = Ret (t, e) s' -> Type_ t = TokenText.
Proof. unfold scanText. type_of_result. Qed.

Lemma scanComment_type s t e s' :
  scanComment s = Ret (t, e) s' -> Type_ t = TokenComment.
Proof. unfold scanComment. type_of_result. Qed.

Lemma scanGroup_type s t e s' : scanGroup s = Ret (t, e) s' -> Type_ t = TokenGroup.
Proof. unfold scanGroup. type_of_result. Qed.

(** The token that [scanIdentifier] returns when it is entered on an
    identifier start rune, as both of its callers do. *)
Lemma scanIdentifierFuel_literal fuel depth s ch s1 t e s' :
  read s = (ch, s1) -> isIdentifierStartRune ch = true ->
  scanIdentifierFuel fuel depth s = Ret (t, e) s' ->
  Type_ t = TokenIdentifier ->
  exists tl, Literal t = z2b ch :: tl
    /\ Forall (fun c => isIdentifierRune (b2z c) = true) tl
    /\ identifierVerdict t e.
Proof.
  intros R I. destruct fuel as [|f]; [discriminate|].
  cbn [scanIdentifierFuel]. rewrite R. intros H T.
  destruct (scanIdentifierLoop_literal _ _ _ _ _ _ _ H T) as (ext & L & F & V).
  destruct (ident_start_ascii _ I) as [N A].
  assert (0 <= ch) by (rune_class I; lia).
  unfold WriteRune in L. rewrite EncodeRune_ascii in L by lia.
  exists ext. auto.
Qed.

Lemma isValidIdentifier_cons c0 tl :
  isValidIdentifier (c0 :: tl)
  = Some (negb (isIdentifierCombineRune (b2z (last (c0 :: tl) zero)))
          && (negb (Z.of_nat (List.length (c0 :: tl)) =? 1)
              || negb (isIdentifierSpecialStartRune (b2z c0)))).
Proof. reflexivity. Qed.

Lemma Some_inj {A} (a b : A) : Some a = Some b -> a = b.
Proof. congruence. Qed.

Lemma last_cons_cons {A} (a b : A) l d : last (a :: b :: l) d = last (b :: l) d.
Proof. reflexivity. Qed.

(** C6 (as amended).  The literal of every [Identifier] token that [Scan]
    returns starts with a letter, [@], [_] or [#]; each of its further
    characters is a letter, a digit, [.], [:] or [_]; and the scan has an
    error exactly when the literal ends with [.] or [:] or is one bare
    [@], [_] or [#]. *)
Theorem identifier_literal_shape (s : Scanner) (t : Token) (e : option error)
  (s' : Scanner) :
  0 <= pos s <= len s ->
  Scan s = Ret (t, e) s' -> Type_ t = TokenIdentifier ->
  exists c0 tl, Literal t = c0 :: tl
    /\ isIdentifierStartRune (b2z c0) = true
    /\ Forall (fun c => isIdentifierRune (b2z c) = true) tl
    /\ (e <> None <->
        isIdentifierCombineRune (b2z (last (c0 :: tl) zero)) = true
        \/ (tl = [] /\ isIdentifierSpecialStartRune (b2z c0) = true)).
Proof.
  intros Hw. unfold Scan. destruct (read s) as [ch s1] eqn:R.
  destruct (Z.eqb_spec ch eof) as [E|E]; [intros [= <- <- <-]; discriminate|].
  destruct (isWhitespaceRune ch);
    [intros H T; apply scanWhitespace_type in H; congruence|].
  destruct (isGroupStartRune ch);
    [intros H T; apply scanGroup_type in H; congruence|].
  destruct (isIdentifierStartRune ch) eqn:I.
  - destruct (ident_start_ascii _ I) as [_ A].
    assert (0 <= ch) as P by (rune_class I; lia).
    rewrite (unread_ascii _ _ _ Hw R E A). unfold scanIdentifier. intros H T.
    destruct (scanIdentifierFuel_literal _ _ _ _ _ _ _ _ R I H T)
      as (tl & L & F & ok & V & ->).
    exists (z2b ch), tl. rewrite b2z_z2b by lia.
    split; [assumption|]. split; [assumption|]. split; [assumption|].
    rewrite L, isValidIdentifier_cons in V. apply Some_inj in V. subst ok.
    rewrite b2z_z2b by lia.
    destruct (isIdentifierCombineRune (b2z (last (z2b ch :: tl) zero))) eqn:C;
      cbn [negb andb].
    + split; [auto|intros _; discriminate].
    + destruct tl as [|c1 tl].
      * change (Z.of_nat (List.length [z2b ch]) =? 1) with true.
        destruct (isIdentifierSpecialStartRune ch); cbn [negb orb].
        -- split; [auto|intros _; discriminate].
        -- split; [congruence|]. intros [?|[_ ?]]; discriminate.
      * replace (Z.of_nat (List.length (z2b ch :: c1 :: tl)) =? 1) with false
          by (symmetry; apply Z.eqb_neq; cbn [List.length]; lia).
        cbn [negb orb]. split; [congruence|]. intros [?|[? _]]; discriminate.
  - destruct (isNumberStartRune ch);
      [intros H T; apply scanNumber_type in H; congruence|].
    destruct (isTextStartRune ch);
      [intros H T; apply scanText_type in H; congruence|].
    destruct (isSignStartRune ch);
      [intros H T; apply scanSign_type in H; congruence|].
    destruct (isJoinStartRune ch);
      [intros H T; apply scanJoin_type in H; congruence|].
    destruct (isCommentStartRune ch);
      [intros H T; apply scanComment_type in H; congruence|].
    intros [= <- <- <-]; discriminate.
Qed.

Lemma identifier_literal_shape_witness :
  exists c0 tl, Literal (mkToken None TokenIdentifier (B "a_b.")) = c0 :: tl
    /\ isIdentifierStartRune (b2z c0) = true
    /\ Forall (fun c => isIdentifierRune (b2z c) = true) tl
    /\ (Some (ErrInvalidIdentifier (B "a_b.")) <> None <->
        isIdentifierCombineRune (b2z (last (c0 :: tl) zero)) = true
        \/ (tl = [] /\ isIdentifierSpecialStartRune (b2z c0) = true)).
Proof.
  apply (identifier_literal_shape (NewScanner (B "a_b."))
           (mkToken None TokenIdentifier (B "a_b."))
           (Some (ErrInvalidIdentifier (B "a_b.")))
           (mkScanner (B "a_b.") 4 3));
    [cbn; lia|vm_compute; reflexivity|reflexivity].
Defined.

(** C6 as it is stated fails: [a_b] is scanned as one [Identifier] token
    without an error, and its second character [_] is not a letter, a
    digit, [.] or [:]. *)
Lemma underscore_continues_identifier :
  ~ (forall s t e s', 0 <= pos s <= len s ->
       Scan s = Ret (t, e) s' -> Type_ t = TokenIdentifier ->
       exists c0 tl, Literal t = c0 :: tl
         /\ isIdentifierStartRune (b2z c0) = true
         /\ Forall (fun c => isListedIdentifierRune (b2z c) = true) tl).
Proof.
  intros H.
  destruct (H (NewScanner (B "a_b")) (mkToken None TokenIdentifier (B "a_b")) None
              (mkScanner (B "a_b") 3 3)) as (c0 & tl & L & _ & F);
    [cbn; lia|vm_compute; reflexivity|reflexivity|].
  cbn in L. injection L as <- <-. inversion F as [|c l Hc Hl]; subst.
  vm_compute in Hc. discriminate.
Qed.

(** ** Reading in terms of the bytes that remain *)

Lemma rest_nil_end s : wf s -> rest s = [] -> len s <= pos s.
Proof.
  intros Hw E. pose proof (rest_length s Hw) as L. rewrite E in L. cbn in L. lia.
Qed.

Lemma rest_setPos s n : wf s -> 0 <= n ->
  rest (setPos s (pos s + n)) = skipn (Z.to_nat n) (rest s).
Proof.
  intros Hw Hn. unfold rest, setPos, wf in *. cbn.
  rewrite skipn_skipn. f_equal. lia.
Qed.

(** [read] decodes the first rune of the remaining bytes and drops its
    bytes. *)
Lemma read_rest s ch n : wf s -> rest s <> [] ->
  utf8.DecodeRune (rest s) = (ch, n) ->
  read s = (ch, setPos s (pos s + n))
  /\ rest (setPos s (pos s + n)) = skipn (Z.to_nat n) (rest s)
  /\ moved 1 s (setPos s (pos s + n)).
Proof.
  intros Hw Hne D.
  destruct (utf8_facts.DecodeRune_decoded _ _ _ Hne D) as [Dd Hn].
  destruct (decoded_width _ _ _ Dd) as [Hn1 _].
  pose proof (rest_length s Hw) as L.
  assert (pos s < len s) by lia.
  split; [|split].
  - unfold read. destruct (Z.leb_spec (len s) (pos s)); [lia|]. now rewrite D.
  - apply rest_setPos; [assumption|lia].
  - unfold moved, wf in *. cbn. repeat split; lia.
Qed.

Lemma cons_ne {A} (c : A) t : c :: t <> [].
Proof. discriminate. Qed.

Lemma DecodeRune_low c t : b2z c < 0x80 -> utf8.DecodeRune (c :: t) = (b2z c, 1).
Proof.
  intros H. destruct (utf8.DecodeRune (c :: t)) as [r n] eqn:D.
  destruct (utf8_facts.DecodeRune_decoded _ _ _ (cons_ne c t) D) as [Dd _].
  destruct Dd as [E1 E2 _|_ _ Hb|Hn _ Hb].
  - subst. reflexivity.
  - unfold utf8.at_ in Hb. cbn in Hb. lia.
  - specialize (Hb O ltac:(lia)). unfold utf8.at_ in Hb. cbn in Hb. lia.
Qed.

(** A byte from [0x80] on starts a rune from [0x80] on, all of whose
    bytes are from [0x80] on. *)
Lemma DecodeRune_high c t r n : 0x80 <= b2z c ->
  utf8.DecodeRune (c :: t) = (r, n) ->
  0x80 <= r /\ 1 <= n <= Z.of_nat (List.length (c :: t))
  /\ (forall i, (i < Z.to_nat n)%nat -> 0x80 <= utf8.at_ (c :: t) i).
Proof.
  intros H D.
  destruct (utf8_facts.DecodeRune_decoded _ _ _ (cons_ne c t) D) as [Dd Hn].
  destruct Dd as [_ E2 Hr|E1 E2 Hb|Hn2 Hr Hb].
  - subst. unfold utf8.at_ in Hr. cbn in Hr. lia.
  - subst. unfold utf8.RuneError. repeat split; try lia.
    intros i Hi. assert (i = O) as -> by lia. exact Hb.
  - repeat split; try lia. exact Hb.
Qed.

Lemma read_low s c t : wf s -> rest s = c :: t -> b2z c < 0x80 ->
  exists s1, read s = (b2z c, s1) /\ rest s1 = t /\ moved 1 s s1.
Proof.
  intros Hw E H. pose proof (DecodeRune_low c t H) as D. rewrite <- E in D.
  destruct (read_rest s _ _ Hw ltac:(rewrite E; apply cons_ne) D) as (R & T & M).
  eexists. split; [exact R|]. split; [|exact M]. now rewrite T, E.
Qed.

Lemma read_high s c t : wf s -> rest s = c :: t -> 0x80 <= b2z c ->
  exists ch n s1, read s = (ch, s1) /\ 0x80 <= ch /\ moved 1 s s1
    /\ rest s1 = skipn n (c :: t) /\ (1 <= n <= List.length (c :: t))%nat
    /\ (forall i, (i < n)%nat -> 0x80 <= utf8.at_ (c :: t) i).
Proof.
  intros Hw E H. destruct (utf8.DecodeRune (c :: t)) as [ch n] eqn:D.
  destruct (DecodeRune_high _ _ _ _ H D) as (Hr & Hn & Hb).
  rewrite <- E in D.
  destruct (read_rest s _ _ Hw ltac:(rewrite E; apply cons_ne) D) as (R & T & M).
  exists ch, (Z.to_nat n). eexists. split; [exact R|]. split; [exact Hr|].
  split; [exact M|]. rewrite T, E. split; [reflexivity|]. split; [lia|exact Hb].
Qed.

Lemma read_nil s : wf s -> rest s = [] -> read s = (eof, s).
Proof. intros Hw E. apply read_end. now apply rest_nil_end. Qed.

(** ** Groups *)

Lemma noNul_cons c t : noNul (c :: t) = true -> b2z c <> 0 /\ noNul t = true.
Proof.
  unfold noNul. cbn [forallb]. intros H. apply andb_true_iff in H as [H1 H2].
  split; [|assumption]. apply negb_true_iff in H1. now apply Z.eqb_neq.
Qed.

Lemma noNul_skipn n l : noNul l = true -> noNul (skipn n l) = true.
Proof.
  revert l. induction n as [|n IH]; intros [|c t] H; cbn [skipn]; auto.
  apply IH. now apply noNul_cons in H.
Qed.

Lemma at_cons c t i : utf8.at_ (c :: t) (S i) = utf8.at_ t i.
Proof. reflexivity. Qed.

Lemma at_head c t : utf8.at_ (c :: t) 0 = b2z c.
Proof. reflexivity. Qed.

Lemma byte_eqb_eq a b : byte_eqb a b = true <-> a = b.
Proof. unfold byte_eqb. destruct (ascii_dec a b); split; congruence. Qed.

Lemma b2z_eqb a b : (b2z a =? b2z b) = byte_eqb a b.
Proof.
  unfold byte_eqb. destruct (ascii_dec a b) as [->|N].
  - apply Z.eqb_refl.
  - apply Z.eqb_neq. intros E. now apply N, b2z_inj.
Qed.

(** Bytes from [0x80] on are neither parentheses nor quotes nor
    backslashes: the balance passes over them. *)
Lemma balanced_skip_high_outside n : forall l d, (n <= List.length l)%nat ->
  (forall i, (i < n)%nat -> 0x80 <= utf8.at_ l i) ->
  balancedFrom Outside d (skipn n l) = balancedFrom Outside d l.
Proof.
  induction n as [|n IH]; intros l d Hn Hb; [reflexivity|].
  destruct l as [|c t]; [cbn in Hn; lia|]. cbn [skipn].
  rewrite IH; [|cbn in Hn; lia|intros i Hi; rewrite <- (at_cons c); apply Hb; lia].
  pose proof (Hb O ltac:(lia)) as H0. rewrite at_head in H0.
  cbn [balancedFrom].
  destruct (Z.eqb_spec (b2z c) (rn "(")) as [E|_];
    [rewrite E in H0; vm_compute in H0; now elim H0|].
  destruct (isTextStartRune (b2z c)) eqn:T;
    [rune_class T; lia|].
  destruct (Z.eqb_spec (b2z c) (rn ")")) as [E|_];
    [rewrite E in H0; vm_compute in H0; now elim H0|].
  reflexivity.
Qed.

Lemma balanced_skip_high_inside n : forall l q esc d, (1 <= n <= List.length l)%nat ->
  b2z q < 0x80 ->
  (forall i, (i < n)%nat -> 0x80 <= utf8.at_ l i) ->
  balancedFrom (Inside q false) d (skipn n l) = balancedFrom (Inside q esc) d l.
Proof.
  induction n as [|n IH]; intros l q esc d Hn Hq Hb; [lia|].
  destruct l as [|c t]; [cbn in Hn; lia|]. cbn [skipn].
  pose proof (Hb O ltac:(lia)) as H0. rewrite at_head in H0.
  cbn [balancedFrom].
  assert (byte_eqb c q = false) as ->.
  { destruct (byte_eqb c q) eqn:E; [|reflexivity].
    apply byte_eqb_eq in E. subst. lia. }
  cbn [andb].
  assert ((b2z c =? rn "\") = false) as ->.
  { apply Z.eqb_neq. intros E. rewrite E in H0. vm_compute in H0. now elim H0. }
  destruct n as [|n]; [reflexivity|].
  apply IH; [cbn in Hn; lia|assumption|].
  intros i Hi. rewrite <- (at_cons c). apply Hb. lia.
Qed.

Lemma moved_fuel s s1 fuel : moved 1 s s1 -> (remaining s < S fuel)%nat ->
  (remaining s1 < fuel)%nat.
Proof.
  intros M H. pose proof (moved_remaining 1 _ _ ltac:(lia) M). lia.
Qed.

Lemma moved1_wf s s1 : wf s -> moved 1 s s1 -> wf s1.
Proof. intros Hw M. apply (moved_wf 1 s s1); [lia|assumption|assumption]. Qed.

(** The loop of [scanText] leaves a text where the balance leaves it. *)
Lemma scanTextLoop_balance fuel : forall s q prev buf d,
  wf s -> (remaining s < fuel)%nat -> b2z q < 0x80 -> noNul (rest s) = true ->
  exists buf' has s', scanTextLoop fuel s (b2z q) prev buf = Ret (buf', has) s'
    /\ moved 0 s s'
    /\ (has = true ->
        balancedFrom Outside d (rest s')
          = balancedFrom (Inside q (prev =? rn "\")) d (rest s)
        /\ noNul (rest s') = true).
Proof.
  induction fuel as [|f IH]; intros s q prev buf d Hw Hf Hq Hz; [lia|].
  cbn [scanTextLoop]. destruct (rest s) as [|c t] eqn:E.
  { rewrite (read_nil s Hw E). cbn. exists buf, false, s.
    split; [reflexivity|]. split; [now apply moved_refl|discriminate]. }
  destruct (noNul_cons _ _ Hz) as [Hc Ht].
  destruct (Z.ltb_spec (b2z c) 0x80) as [Lo|Hi].
  - destruct (read_low s c t Hw E Lo) as (s1 & -> & T & M).
    destruct (Z.eqb_spec (b2z c) eof) as [?|_]; [contradiction|].
    rewrite b2z_eqb. cbn [balancedFrom].
    destruct (byte_eqb c q && negb (prev =? rn "\")) eqn:C.
    + exists (WriteRune buf (b2z c)), true, s1. split; [reflexivity|].
      split; [apply (moved_weaken 1); [lia|assumption]|]. intros _.
      rewrite T. now split.
    + destruct (IH s1 q (b2z c) (WriteRune buf (b2z c)) d)
        as (buf' & has & s' & -> & M' & H);
        [eapply moved1_wf; eauto|eapply moved_fuel; eauto|assumption
        |now rewrite T|].
      exists buf', has, s'. split; [reflexivity|].
      split; [apply (moved_trans 0 0 s s1 s'); [apply (moved_weaken 1); [lia|]|]
             ; assumption|].
      rewrite T in H. exact H.
  - destruct (read_high s c t Hw E Hi) as (ch & n & s1 & -> & Hch & M & T & Hn & Hb).
    destruct (Z.eqb_spec ch eof) as [E0|_]; [unfold eof in E0; lia|].
    assert ((ch =? b2z q) = false) as -> by (apply Z.eqb_neq; lia).
    cbn [andb].
    destruct (IH s1 q ch (WriteRune buf ch) d)
      as (buf' & has & s' & -> & M' & H);
      [eapply moved1_wf; eauto|eapply moved_fuel; eauto|assumption
      |rewrite T; now apply noNul_skipn|].
    exists buf', has, s'. split; [reflexivity|].
    split; [apply (moved_trans 0 0 s s1 s'); [apply (moved_weaken 1); [lia|]|]
           ; assumption|].
    intros Hh. destruct (H Hh) as [H1 H2]. split; [|assumption].
    rewrite H1, T.
    assert ((ch =? rn "\") = false) as ->
      by (apply Z.eqb_neq; intros E0; rewrite E0 in Hch; vm_compute in Hch; now elim Hch).
    apply balanced_skip_high_inside; assumption.
Qed.

Lemma scanText_error p s t err s' : scanText p s = Ret (t, Some err) s' ->
  exists literal, err = ErrInvalidQuotedText literal.
Proof.
  unfold scanText. destruct (read s) as [ch s1].
  destruct (scanTextLoop _ _ _ _ _) as [[literal has] s2| |]; try discriminate.
  destruct has; cbn [negb]; [destruct p; cbn [negb]; discriminate|].
  intros [= <- <- <-]. now exists literal.
Qed.

(** On balanced, NUL-free input the loop of [scanGroup] ends on the [)]
    that closes the group, or with the error of an open quoted text. *)
Lemma scanGroupLoop_balance fuel : forall s openGroups buf,
  wf s -> (remaining s < fuel)%nat -> 1 <= openGroups ->
  noNul (rest s) = true -> balancedFrom Outside openGroups (rest s) = true ->
  exists buf' og e s', scanGroupLoop fuel s openGroups buf = Ret (buf', og, e) s'
    /\ match e with
       | Some err => exists literal, err = ErrInvalidQuotedText literal
       | None => og = 0
       end.
Proof.
  induction fuel as [|f IH]; intros s og buf Hw Hf Hog Hz Hb; [lia|].
  cbn [scanGroupLoop]. destruct (rest s) as [|c t] eqn:E.
  { cbn in Hb. apply Z.eqb_eq in Hb. lia. }
  destruct (noNul_cons _ _ Hz) as [Hc Ht].
  destruct (Z.ltb_spec (b2z c) 0x80) as [Lo|Hi].
  - destruct (read_low s c t Hw E Lo) as (s1 & R & T & M). rewrite R.
    destruct (Z.eqb_spec (b2z c) eof) as [?|N]; [contradiction|].
    assert (Hw1 : wf s1) by (eapply moved1_wf; eauto).
    assert (Hf1 : (remaining s1 < f)%nat) by (eapply moved_fuel; eauto).
    cbn [balancedFrom] in Hb. unfold isGroupStartRune.
    destruct (b2z c =? rn "(").
    { apply IH; try assumption; [lia|now rewrite T|now rewrite T]. }
    destruct (isTextStartRune (b2z c)) eqn:Q.
    { rewrite (unread_ascii _ _ _ Hw R N Lo). unfold scanText. rewrite R.
      destruct (scanTextLoop_balance (loopFuel s1) s1 c 0 (WriteRune [] (b2z c)) og)
        as (lit & has & s2 & -> & M2 & H);
        [assumption|unfold loopFuel; lia|assumption|now rewrite T|].
      destruct has; cbn [negb].
      - destruct (H eq_refl) as [H1 H2].
        change (0 =? rn "\") with false in H1. rewrite T in H1.
        apply IH; try assumption.
        + apply (moved_wf 0 s1 s2); [lia|assumption|assumption].
        + pose proof (moved_remaining 0 _ _ ltac:(lia) M2). lia.
        + now rewrite H1.
      - do 4 eexists. split; [reflexivity|]. now eexists. }
    destruct (b2z c =? rn ")").
    { apply andb_true_iff in Hb as [Hd Hb]. apply Z.leb_le in Hd.
      destruct (Z.leb_spec (og - 1) 0).
      - do 4 eexists. split; [reflexivity|]. cbn. lia.
      - apply IH; try assumption; [lia|now rewrite T|now rewrite T]. }
    apply IH; try assumption; [now rewrite T|now rewrite T].
  - destruct (read_high s c t Hw E Hi) as (ch & n & s1 & R & Hch & M & T & Hn & Hh).
    rewrite R.
    destruct (Z.eqb_spec ch eof) as [E0|_]; [unfold eof in E0; lia|].
    assert (isGroupStartRune ch = false) as ->
      by (destruct (isGroupStartRune ch) eqn:X; [rune_class X; lia|reflexivity]).
    assert (isTextStartRune ch = false) as ->
      by (destruct (isTextStartRune ch) eqn:X; [rune_class X; lia|reflexivity]).
    assert ((ch =? rn ")") = false) as ->
      by (destruct (ch =? rn ")") eqn:X; [rune_class X; lia|reflexivity]).
    apply IH; try assumption.
    + eapply moved1_wf; eauto.
    + eapply moved_fuel; eauto.
    + rewrite T. now apply noNul_skipn.
    + rewrite T, balanced_skip_high_outside; [assumption|lia|assumption].
Qed.

(** C4 (as amended).  On an input that starts with [(], has no NUL byte
    and whose parentheses outside quoted text are balanced, [scanGroup]
    returns and does not fail with "missing closing bracket(s)". *)
Theorem balanced_group_has_no_missing_bracket (l : list byte) :
  noNul l = true -> balancedOutsideText ("("%char :: l) = true ->
  exists t e s', scanGroup (NewScanner ("("%char :: l)) = Ret (t, e) s'
    /\ forall n, e <> Some (ErrMissingBrackets n).
Proof.
  intros Hz Hb. set (s := NewScanner ("("%char :: l)).
  assert (Hw : wf s) by (unfold wf, s, len; cbn [pos data NewScanner]; lia).
  assert (E : rest s = "("%char :: l) by reflexivity.
  destruct (read_low s _ _ Hw E ltac:(vm_compute; reflexivity)) as (s1 & R & T & M).
  unfold scanGroup. rewrite R.
  destruct (scanGroupLoop_balance (loopFuel s1) s1 1 [])
    as (buf & og & e & s' & -> & H).
  - eapply moved1_wf; eauto.
  - unfold loopFuel. lia.
  - lia.
  - now rewrite T.
  - rewrite T. exact Hb.
  - destruct e as [err|].
    + destruct H as [literal ->]. do 3 eexists. split; [reflexivity|].
      intros n. discriminate.
    + subst og. do 3 eexists. split; [reflexivity|intros n; discriminate].
Qed.

Lemma balanced_group_has_no_missing_bracket_witness :
  exists t e s', scanGroup (NewScanner ("("%char :: B "a = ')' && (b = 1))"))
                 = Ret (t, e) s'
    /\ forall n, e <> Some (ErrMissingBrackets n).
Proof.
  apply (balanced_group_has_no_missing_bracket (B "a = ')' && (b = 1))"));
    vm_compute; reflexivity.
Defined.

(** C4 as it is stated fails: in [((')')] the two [(] and the two [)]
    match, but the first [)] stands inside a quoted text, where [scanGroup]
    does not count it, and the scan ends with one bracket missing. *)
Lemma quoted_bracket_is_not_counted :
  ~ (forall l, rawBalanced l = true -> ~ missingBracket (scanGroup (NewScanner l))).
Proof.
  intros H. apply (H (B "((')')")); [vm_compute; reflexivity|].
  exists (mkToken None TokenGroup (B "(')')")), 1, (mkScanner (B "((')')") 6 3).
  vm_compute. reflexivity.
Qed.

(** ** Quoted text *)

Lemma DecodeRune_decodeWith p :
  utf8.DecodeRune p
  = decodeWith (Z.of_nat (List.length p)) (utf8.at_ p 0) (utf8.at_ p 1)
      (utf8.at_ p 2) (utf8.at_ p 3).
Proof. reflexivity. Qed.

Section QuotedText.
Import utf8 utf8_facts.

(** A rune of two bytes or more is decided by its own bytes. *)
Lemma decodeWith_wide len p0 b1 b2 b3 r n len' b1' b2' b3' :
  0 <= p0 < 256 -> decodeWith len p0 b1 b2 b3 = (r, n) -> 2 <= n -> n <= len' ->
  (1 < n -> b1' = b1) -> (2 < n -> b2' = b2) -> (3 < n -> b3' = b3) ->
  decodeWith len' p0 b1' b2' b3' = (r, n).
Proof.
  intros R0 H Hn Hl H1 H2 H3.
  remember (decodeWith len' p0 b1' b2' b3') as rhs eqn:Erhs.
  revert H. unfold decodeWith.
  destruct (Z.ltb_spec len 1); [intros [= <- <-]; lia|].
  destruct (first_cases p0 R0) as
    [[H0 E]|[[H0 E]|[[H0 E]|[[H0 E]|[[H0 E]|[[H0 E]|[[H0 E]|[[H0 E]|[H0 E]]]]]]]]];
    rewrite E;
    match type of E with _ = ?k =>
      let b := eval vm_compute in (as_ <=? k) in change (as_ <=? k) with b;
      let o := eval vm_compute in (Z.odd k) in change (Z.odd k) with o;
      let sz := eval vm_compute in (Z.land k 7) in change (Z.land k 7) with sz;
      let ar := eval vm_compute in (acceptRanges (Z.shiftr k 4)) in
      change (acceptRanges (Z.shiftr k 4)) with ar
    end; cbv beta iota delta [fst snd locb hicb];
    repeat split_if; intros [= <- <-]; try lia;
    subst rhs; unfold decodeWith; rewrite E;
    match type of E with _ = ?k =>
      let b := eval vm_compute in (as_ <=? k) in change (as_ <=? k) with b;
      let sz := eval vm_compute in (Z.land k 7) in change (Z.land k 7) with sz;
      let ar := eval vm_compute in (acceptRanges (Z.shiftr k 4)) in
      change (acceptRanges (Z.shiftr k 4)) with ar
    end; cbv beta iota delta [fst snd locb hicb];
    try (rewrite (H1 ltac:(lia))); try (rewrite (H2 ltac:(lia)));
    try (rewrite (H3 ltac:(lia)));
    repeat split_if; try lia; reflexivity.
Qed.

Lemma at_firstn_app k p tl i : (i < k <= List.length p)%nat ->
  at_ (firstn k p ++ tl) i = at_ p i.
Proof.
  intros H. unfold at_. f_equal.
  rewrite app_nth1 by (rewrite length_firstn; lia).
  rewrite nth_firstn. destruct (Nat.ltb_spec i k); [reflexivity|lia].
Qed.

Lemma DecodeRune_prefix_wide p r n tl : DecodeRune p = (r, n) -> 2 <= n ->
  DecodeRune (firstn (Z.to_nat n) p ++ tl) = (r, n).
Proof.
  intros D Hn.
  assert (p <> []) as Hne by (intros ->; cbn in D; injection D as _ <-; lia).
  destruct (DecodeRune_decoded _ _ _ Hne D) as [_ Hl].
  rewrite DecodeRune_decodeWith in *.
  assert (Hat : forall i, (i < Z.to_nat n)%nat ->
            at_ (firstn (Z.to_nat n) p ++ tl) i = at_ p i)
    by (intros i Hi; apply at_firstn_app; lia).
  rewrite (Hat O) by lia.
  apply (decodeWith_wide _ _ _ _ _ _ _ _ _ _ _ (at_range p 0) D Hn).
  - rewrite length_app, length_firstn. lia.
  - intros ?. apply Hat. lia.
  - intros ?. apply Hat. lia.
  - intros ?. apply Hat. lia.
Qed.

(** *** The escaped form is read back *)

Lemma bytes_eqb_eq a b : bytes_eqb a b = true -> a = b.
Proof. unfold bytes_eqb. destruct (list_eq_dec ascii_dec a b); congruence. Qed.

Lemma quote_ascii q : isTextStartRune (b2z q) = true ->
  b2z q < 0x80 /\ b2z q <> 0 /\ q <> backslash.
Proof.
  intros H. rune_class H. split; [lia|]. split; [unfold eof; lia|].
  intros ->. vm_compute in H. destruct H; discriminate.
Qed.

Lemma escapeText_high n : forall l q, b2z q < 0x80 -> (n <= List.length l)%nat ->
  (forall i, (i < n)%nat -> 0x80 <= at_ l i) ->
  escapeText q l = firstn n l ++ escapeText q (skipn n l).
Proof.
  induction n as [|n IH]; intros l q Hq Hn Hb; [reflexivity|].
  destruct l as [|c t]; [cbn in Hn; lia|]. cbn [firstn skipn escapeText app].
  pose proof (Hb O ltac:(lia)) as H0. rewrite at_head in H0.
  assert (byte_eqb c q = false) as ->.
  { destruct (byte_eqb c q) eqn:E; [|reflexivity].
    apply byte_eqb_eq in E. subst. lia. }
  f_equal. apply IH; [assumption|cbn in Hn; lia|].
  intros i Hi. rewrite <- (at_cons c). apply Hb. lia.
Qed.

(** The quote never stands first in an escaped text. *)
Lemma escapeText_head q u : q <> backslash -> isPrefix [q] (escapeText q u) = false.
Proof.
  intros Hq. destruct u as [|c t]; [reflexivity|]. cbn [escapeText].
  destruct (byte_eqb c q) eqn:E; cbn [isPrefix].
  - destruct (ascii_dec q backslash); [contradiction|reflexivity].
  - destruct (ascii_dec q c) as [->|]; [|reflexivity].
    unfold byte_eqb in E. destruct (ascii_dec c c); congruence.
Qed.

(** Unescaping undoes escaping. *)
Lemma ReplaceAll_escapeText q u : q <> backslash ->
  ReplaceAll (escapeText q u) (backslash :: [q]) [q] = u.
Proof.
  intros Hq. unfold ReplaceAll. induction u as [|c t IH]; [reflexivity|].
  cbn [escapeText]. destruct (byte_eqb c q) eqn:E.
  - apply byte_eqb_eq in E. subst c. cbn [replaceFrom isPrefix List.length].
    destruct (ascii_dec backslash backslash); [|congruence].
    destruct (ascii_dec q q); [|congruence]. cbn [andb app Nat.sub].
    now rewrite IH.
  - cbn [replaceFrom]. 
    assert (isPrefix [backslash; q] (c :: escapeText q t) = false) as ->.
    { cbn [isPrefix]. destruct (ascii_dec backslash c); [|reflexivity].
      cbn [andb]. now apply escapeText_head. }
    now rewrite IH.
Qed.

Lemma slice_quoted (q : byte) x :
  slice (q :: x ++ [q]) 1 (List.length (q :: x ++ [q]) - 1) = x.
Proof.
  unfold slice. cbn [skipn List.length]. rewrite length_app. cbn [List.length].
  replace (S (List.length x + 1) - 1 - 1)%nat with (List.length x + 0)%nat by lia.
  rewrite firstn_app_2. cbn. apply app_nil_r.
Qed.

Lemma last_skipn {A} n (l : list A) d : skipn n l <> [] ->
  last (skipn n l) d = last l d.
Proof.
  revert l. induction n as [|n IH]; intros l H; [reflexivity|].
  destruct l as [|a t]; [now elim H|]. cbn [skipn] in *.
  rewrite (IH t H). destruct t as [|b t]; [destruct n; now elim H|reflexivity].
Qed.


Lemma closes_skipn prev r n u : 0x80 <= r -> (1 <= n)%nat ->
  closes prev u -> u <> [] -> closes r (skipn n u).
Proof.
  intros Hr Hn H Hu. unfold closes in *. destruct u as [|c t]; [now elim Hu|].
  destruct (skipn n (c :: t)) as [|c' t'] eqn:E.
  - intros E0. rewrite E0 in Hr. vm_compute in Hr. now elim Hr.
  - unfold endsWithBackslash in *. rewrite <- E.
    rewrite last_skipn by (rewrite E; discriminate). exact H.
Qed.

Lemma closes_tail prev c t : closes prev (c :: t) -> closes (b2z c) t.
Proof.
  unfold closes, endsWithBackslash. destruct t as [|c' t'].
  - cbn [last]. intros H E. apply (b2z_inj c backslash) in E. subst.
    unfold byte_eqb in H. destruct (ascii_dec backslash backslash); congruence.
  - now rewrite last_cons_cons.
Qed.

Lemma WriteRune_byte buf c : b2z c < 0x80 -> WriteRune buf (b2z c) = buf ++ [c].
Proof.
  intros H. unfold WriteRune. pose proof (b2z_range c).
  rewrite EncodeRune_ascii by lia. now rewrite z2b_b2z.
Qed.

Lemma EncodeRune_RuneError : List.length (EncodeRune RuneError) = 3%nat.
Proof. reflexivity. Qed.

Lemma isTextFuel_step f c t : isTextFuel (S f) (c :: t) = true ->
  exists r n, DecodeRune (c :: t) = (r, n) /\ r <> 0
    /\ EncodeRune r = firstn (Z.to_nat n) (c :: t)
    /\ isTextFuel f (skipn (Z.to_nat n) (c :: t)) = true.
Proof.
  cbn [isTextFuel]. destruct (DecodeRune (c :: t)) as [r n]. intros H.
  apply andb_true_iff in H as [H H3]. apply andb_true_iff in H as [H1 H2].
  exists r, n. split; [reflexivity|]. split; [|split; [|assumption]].
  - apply negb_true_iff in H1. now apply Z.eqb_neq.
  - now apply bytes_eqb_eq.
Qed.

(** The loop of [scanText], started in front of an escaped text and its
    closing quote, writes both and stops behind the quote. *)
Lemma scanTextLoop_escaped f : forall u fuel s q prev buf tail,
  isTextStartRune (b2z q) = true -> isTextFuel f u = true -> wf s ->
  rest s = escapeText q u ++ q :: tail -> (remaining s < fuel)%nat ->
  closes prev u ->
  exists s', scanTextLoop fuel s (b2z q) prev buf
             = Ret (buf ++ escapeText q u ++ [q], true) s'
    /\ rest s' = tail /\ moved 1 s s'.
Proof.
  induction f as [|f IH]; intros u fuel s q prev buf tail Hq Hu Hw E Hf Hc;
    destruct (quote_ascii q Hq) as (Q1 & Q2 & Q3);
    (destruct u as [|c t]; [|try discriminate]);
    (destruct fuel as [|fuel]; [lia|]).
  1,2: cbn [escapeText app] in *; cbn [scanTextLoop];
       destruct (read_low s q tail Hw E Q1) as (s1 & -> & T & M);
       destruct (Z.eqb_spec (b2z q) eof); [contradiction|];
       rewrite Z.eqb_refl; unfold closes in Hc;
       destruct (Z.eqb_spec prev (rn "\")); [contradiction|];
       cbn [negb andb]; exists s1; rewrite WriteRune_byte by assumption;
       auto.
  destruct (isTextFuel_step _ _ _ Hu) as (r & n & D & Hr & He & Ht).
  destruct (Z.ltb_spec (b2z c) 0x80) as [Lo|Hi].
  - rewrite (DecodeRune_low c t Lo) in D. injection D as <- <-.
    change (skipn (Z.to_nat 1) (c :: t)) with t in Ht.
    cbn [escapeText] in *. destruct (byte_eqb c q) eqn:C.
    + (* an escaped quote: the backslash, then the quote *)
      apply byte_eqb_eq in C. subst c. cbn [app] in E. cbn [scanTextLoop].
      destruct (read_low s _ _ Hw E ltac:(vm_compute; reflexivity))
        as (s1 & -> & T1 & M1).
      change (b2z backslash =? eof) with false.
      assert ((b2z backslash =? b2z q) = false) as ->.
      { rewrite b2z_eqb. destruct (byte_eqb backslash q) eqn:X; [|reflexivity].
        apply byte_eqb_eq in X. congruence. }
      cbn [andb].
      assert (Hw1 : wf s1) by (eapply moved1_wf; eauto).
      destruct fuel as [|fuel];
        [pose proof (moved_remaining 1 _ _ ltac:(lia) M1);
         pose proof (rest_length s1 Hw1) as L; rewrite T1 in L;
         cbn [List.length] in L; unfold remaining in *; lia|].
      cbn [scanTextLoop].
      destruct (read_low s1 _ _ Hw1 T1 Q1) as (s2 & -> & T2 & M2).
      destruct (Z.eqb_spec (b2z q) eof); [contradiction|].
      rewrite Z.eqb_refl. change (b2z backslash =? rn "\") with true.
      cbn [negb andb].
      destruct (IH t fuel s2 q (b2z q)
                  (WriteRune (WriteRune buf (b2z backslash)) (b2z q)) tail)
        as (s' & -> & T' & M'); try assumption.
      * eapply moved1_wf; eauto.
      * pose proof (moved_remaining 1 _ _ ltac:(lia) M1).
        pose proof (moved_remaining 1 _ _ ltac:(lia) M2). lia.
      * now apply (closes_tail prev).
      * exists s'. rewrite !WriteRune_byte by (assumption || (vm_compute; reflexivity)).
        rewrite <- !app_assoc. split; [reflexivity|]. split; [assumption|].
        apply (moved_weaken (1 + 1 + 1)); [lia|].
        apply (moved_trans (1 + 1) 1 s s2 s'); [|assumption].
        apply (moved_trans 1 1 s s1 s2); assumption.
    + cbn [app] in E. cbn [scanTextLoop].
      destruct (read_low s _ _ Hw E Lo) as (s1 & -> & T1 & M1).
      destruct (Z.eqb_spec (b2z c) eof); [contradiction|].
      rewrite b2z_eqb, C. cbn [andb].
      destruct (IH t fuel s1 q (b2z c) (WriteRune buf (b2z c)) tail)
        as (s' & -> & T' & M'); try assumption.
      * eapply moved1_wf; eauto.
      * eapply moved_fuel; eauto.
      * now apply (closes_tail prev).
      * exists s'. rewrite WriteRune_byte by assumption.
        rewrite <- !app_assoc. split; [reflexivity|]. split; [assumption|].
        apply (moved_weaken (1 + 1)); [lia|].
        apply (moved_trans 1 1 s s1 s'); assumption.
  - (* a rune of several bytes *)
    destruct (DecodeRune_decoded _ _ _ (cons_ne c t) D) as [Dd Hl].
    destruct Dd as [_ Er Ha|En Er _|Hn Hr8 Hb].
    { subst r. rewrite at_head in Ha. lia. }
    { subst. apply (f_equal (@List.length byte)) in He.
      rewrite EncodeRune_RuneError in He. cbn in He. discriminate. }
    assert (Hk : (Z.to_nat n <= List.length (c :: t))%nat) by lia.
    rewrite (escapeText_high (Z.to_nat n) (c :: t) q Q1 Hk Hb), <- app_assoc in E.
    pose proof (DecodeRune_prefix_wide _ _ _
                  (escapeText q (skipn (Z.to_nat n) (c :: t)) ++ q :: tail) D
                  ltac:(lia)) as D'.
    rewrite <- E in D'.
    assert (rest s <> []) as Hne
      by (intros E0; rewrite E0 in D'; cbn in D'; injection D' as _ <-; lia).
    destruct (read_rest s r n Hw Hne D') as (R & T1 & M1).
    cbn [scanTextLoop]. rewrite R.
    destruct (Z.eqb_spec r eof); [contradiction|].
    assert ((r =? b2z q) = false) as -> by (apply Z.eqb_neq; lia).
    cbn [andb].
    rewrite E, skipn_app, length_firstn in T1.
    replace (Z.to_nat n - Nat.min (Z.to_nat n) (List.length (c :: t)))%nat
      with O in T1 by lia.
    rewrite skipn_all2 in T1 by (rewrite length_firstn; lia).
    cbn [skipn app] in T1.
    destruct (IH (skipn (Z.to_nat n) (c :: t)) fuel _ q r (WriteRune buf r) tail
                Hq Ht (moved1_wf _ _ Hw M1) T1 (moved_fuel _ _ _ M1 Hf))
      as (s' & -> & T' & M').
    + apply (closes_skipn prev); [assumption|lia|assumption|apply cons_ne].
    + exists s'. unfold WriteRune. rewrite He.
      rewrite (escapeText_high (Z.to_nat n) (c :: t) q Q1 Hk Hb).
      rewrite <- !app_assoc. split; [reflexivity|]. split; [assumption|].
      apply (moved_weaken (1 + 1)); [lia|].
      apply (moved_trans 1 1 s (setPos s (pos s + n)) s'); assumption.
Qed.

(** C3 (as amended).  Let [u] be a text (UTF-8, without NUL) that does not
    end with a backslash, and [q] one of the two quotes.  Scanning the
    quoted, escaped form of [u] returns without an error a [Text] token
    whose literal is [u]; quoting and escaping that literal gives the form
    that was scanned. *)
Theorem quoted_text_round_trip (q : byte) (u : list byte) :
  isTextStartRune (b2z q) = true -> isText u = true ->
  endsWithBackslash u = false ->
  exists t s', scanText false (NewScanner (quoteText q u)) = Ret (t, None) s'
    /\ Type_ t = TokenText /\ Literal t = u
    /\ quoteText q (Literal t) = quoteText q u.
Proof.
  intros Hq Hu Hb. destruct (quote_ascii q Hq) as (Q1 & Q2 & Q3).
  set (s := NewScanner (quoteText q u)).
  assert (Hw : wf s) by (unfold wf, s, len; cbn [pos data NewScanner]; lia).
  assert (E : rest s = q :: escapeText q u ++ [q]) by reflexivity.
  destruct (read_low s _ _ Hw E Q1) as (s1 & R & T & M).
  unfold scanText. rewrite R.
  destruct (scanTextLoop_escaped (List.length u) u (loopFuel s1) s1 q 0
              (WriteRune [] (b2z q)) [] Hq Hu (moved1_wf _ _ Hw M) T)
    as (s' & -> & _ & _).
  - unfold loopFuel. lia.
  - unfold closes. destruct u; [discriminate|assumption].
  - cbn [negb]. rewrite WriteRune_byte by assumption. cbn [app].
    rewrite slice_quoted. pose proof (b2z_range q).
    rewrite EncodeRune_ascii, z2b_b2z by lia.
    rewrite ReplaceAll_escapeText by assumption.
    do 2 eexists. split; [reflexivity|]. cbn [Type_ Literal]. auto.
Qed.

Lemma quoted_text_round_trip_witness :
  exists t s',
    scanText false
      (NewScanner (quoteText "'"%char (B "it's \' text " ++ map z2b [0xD0; 0x90])))
    = Ret (t, None) s'
    /\ Type_ t = TokenText
    /\ Literal t = B "it's \' text " ++ map z2b [0xD0; 0x90]
    /\ quoteText "'"%char (Literal t)
       = quoteText "'"%char (B "it's \' text " ++ map z2b [0xD0; 0x90]).
Proof.
  apply (quoted_text_round_trip "'"%char (B "it's \' text " ++ map z2b [0xD0; 0x90]));
    vm_compute; reflexivity.
Defined.

(** C3 as it is stated fails: the text [a\] has the escaped form ['a\'],
    whose last quote the scanner takes for an escaped one; the scan ends
    with an error and a literal other than [a\]. *)
Lemma trailing_backslash_breaks_round_trip :
  ~ (forall q u, isTextStartRune (b2z q) = true -> isText u = true ->
       forall t e s', scanText false (NewScanner (quoteText q u)) = Ret (t, e) s' ->
       quoteText q (Literal t) = quoteText q u).
Proof.
  intros H.
  specialize (H "'"%char (B "a\") eq_refl eq_refl
                (mkToken None TokenText (B "'a\'"))
                (Some (ErrInvalidQuotedText (B "'a\'")))
                (mkScanner (B "'a\'") 4 3) eq_refl).
  vm_compute in H. discriminate.
Qed.

End QuotedText.

(** ** The parser *)

Lemma parseToken_error pg st join result t items e :
  parseToken pg st join result t = Finish (items, Some e) -> items = [].
Proof.
  unfold parseToken. destruct st;
    repeat match goal with
    | |- context [if ?c then _ else _] => destruct c
    | |- context [match pg ?l with _ => _ end] => destruct (pg l) as [[? [?|]]|]
    | |- context [match signOfLiteral ?l with _ => _ end] =>
        destruct (signOfLiteral l)
    end; try discriminate; now intros [= <- <-].
Qed.

Lemma parseLoop_error pg fuel : forall s st join result items e,
  parseLoop pg fuel s st join result = Some (items, Some e) -> items = [].
Proof.
  induction fuel as [|f IH]; intros s st join result items e; [discriminate|].
  cbn [parseLoop]. destruct (Scan s) as [[t [err|]] s'| |]; try discriminate.
  - now intros [= <- <-].
  - destruct (isSkipped t); [apply IH|].
    destruct (parseToken pg st join result t) as [st' join' result'|r|] eqn:P;
      [apply IH| |discriminate].
    intros [= ->]. eapply parseToken_error; eauto.
Qed.

(** C2.  Whenever [Parse] returns an error, the sequence it returns with
    it is empty; the error of a token met by the scanner is one of these
    errors. *)
Theorem parse_error_has_no_ast (text : list byte) (items : list JoinItem)
  (e : syntaxError) :
  Parse text = Some (items, Some e) -> items = [].
Proof.
  unfold Parse. cbn [ParseDepth]. apply parseLoop_error.
Qed.

Lemma parse_error_has_no_ast_witness :
  Parse (B "a = 1 && test = 'demo")
  = Some ([], Some (LexicalError (ErrInvalidQuotedText (B "'demo"))))
  /\ (@nil JoinItem) = [].
Proof.
  assert (H : Parse (B "a = 1 && test = 'demo")
              = Some ([], Some (LexicalError (ErrInvalidQuotedText (B "'demo")))))
    by (vm_compute; reflexivity).
  split; [exact H|exact (parse_error_has_no_ast _ _ _ H)].
Defined.

(** The loop runs on to the next token with a meaning. *)
Lemma parseLoop_scansTo pg s t s' : scansTo s t s' -> wf s ->
  forall fuel st join result, (remaining s < fuel)%nat ->
  exists fuel', (Type_ t <> TokenEOF -> remaining s' < fuel')%nat /\ wf s'
    /\ parseLoop pg fuel s st join result
       = match parseToken pg st join result t with
         | Continue st' join' result' => parseLoop pg fuel' s' st' join' result'
         | Finish r => Some r
         | Stuck => None
         end.
Proof.
  induction 1 as [s t s' E K|s t s1 t' s' E K H IH];
    intros Hw fuel st join result Hf;
    (destruct fuel as [|f]; [lia|]);
    destruct (Scan_returns s Hw) as (t0 & e0 & s0 & E0 & M0 & HM);
    rewrite E in E0; injection E0 as <- <- <-;
    assert (Hw' : wf _) by (apply (moved_wf 0 _ _ ltac:(lia) Hw M0));
    cbn [parseLoop]; rewrite E, K.
  - exists f. split; [|split; [assumption|reflexivity]].
    intros T. destruct HM as [[-> _]|[_ M1]]; [now elim T|].
    eapply moved_fuel; eauto.
  - assert (M1 : moved 1 s s1).
    { destruct HM as [[-> _]|[_ M1]]; [discriminate K|assumption]. }
    apply IH; [assumption|]. eapply moved_fuel; eauto.
Qed.

Lemma isOperand_not_eof t : isOperand t = true -> Type_ t <> TokenEOF.
Proof. unfold isOperand. destruct (Type_ t); discriminate. Qed.

Lemma isOperand_not_group t : isOperand t = true -> Type_ t <> TokenGroup.
Proof. unfold isOperand. destruct (Type_ t); discriminate. Qed.

(** C1.  For a well-formed single comparison [x sign y], [sign] one of the
    sixteen sign operators, [Parse] returns one item: its join operator is
    [&&] and its content the comparison of [x] and [y] by [sign]. *)
Theorem parse_single_comparison (text : list byte) (x sign y : Token)
  (op : SignOp) :
  singleComparison text x sign y -> signOfLiteral (Literal sign) = Some op ->
  Parse text = Some ([mkJoinItem JoinAnd (Comparison (mkExpr x op y))], None).
Proof.
  intros (s1 & s2 & s3 & s4 & X & Ox & Sg & Ts & Y & Oy & Z) Hop.
  unfold Parse. cbn [ParseDepth].
  set (pg := ParseDepth (List.length text)).
  assert (Hw : wf (NewScanner text))
    by (unfold wf, len; cbn [pos data NewScanner]; lia).
  destruct (parseLoop_scansTo pg _ _ _ X Hw (S (List.length text))
              ExpectOperand1 JoinAnd [])
    as (f1 & F1 & W1 & ->);
    [unfold remaining, len; cbn [pos data NewScanner]; lia|].
  cbn [parseToken]. rewrite Ox.
  destruct (parseLoop_scansTo pg _ _ _ Sg W1 f1 (ExpectOperator x) JoinAnd [])
    as (f2 & F2 & W2 & ->); [apply F1; now apply isOperand_not_eof|].
  cbn [parseToken]. rewrite Ts, Hop. cbn [TokenType_eqb].
  destruct (parseLoop_scansTo pg _ _ _ Y W2 f2 (ExpectOperand2 x op) JoinAnd [])
    as (f3 & F3 & W3 & ->); [apply F2; rewrite Ts; discriminate|].
  cbn [parseToken]. rewrite Oy.
  destruct (parseLoop_scansTo pg _ _ _ Z W3 f3 ExpectJoinOrEnd JoinAnd
              ([] ++ [mkJoinItem JoinAnd (Comparison (mkExpr x op y))]))
    as (f4 & F4 & W4 & ->); [apply F3; now apply isOperand_not_eof|].
  reflexivity.
Qed.

Lemma parse_single_comparison_witness :
  singleComparison (B "1 = 12")
    (mkToken None TokenNumber (B "1")) (mkToken None TokenSign (B "="))
    (mkToken None TokenNumber (B "12"))
  /\ Parse (B "1 = 12")
     = Some ([mkJoinItem JoinAnd
                (Comparison (mkExpr (mkToken None TokenNumber (B "1")) SignEq
                                    (mkToken None TokenNumber (B "12"))))], None).
Proof.
  assert (H : singleComparison (B "1 = 12")
                (mkToken None TokenNumber (B "1")) (mkToken None TokenSign (B "="))
                (mkToken None TokenNumber (B "12"))).
  { exists (mkScanner (B "1 = 12") 1 3), (mkScanner (B "1 = 12") 3 3),
      (mkScanner (B "1 = 12") 6 3), (mkScanner (B "1 = 12") 6 3).
    repeat split.
    - apply scansTo_here; reflexivity.
    - eapply scansTo_skip; [reflexivity|reflexivity|].
      apply scansTo_here; reflexivity.
    - eapply scansTo_skip; [reflexivity|reflexivity|].
      apply scansTo_here; reflexivity.
    - apply scansTo_here; reflexivity. }
  split; [exact H|exact (parse_single_comparison _ _ _ _ SignEq H eq_refl)].
Defined.

(** ** The parser returns *)

Lemma below_cases (P : Z -> Prop) (n : nat) :
  (forall k, (k < n)%nat -> P (Z.of_nat k)) -> forall y, 0 <= y < Z.of_nat n -> P y.
Proof.
  intros H y Hy. rewrite <- (Z2Nat.id y) by lia. apply H. lia.
Qed.

Lemma forallb_seq (f : nat -> bool) n :
  forallb f (seq 0 n) = true -> forall k, (k < n)%nat -> f k = true.
Proof.
  intros H k Hk. rewrite forallb_forall in H. apply H, in_seq. lia.
Qed.

(** The bytes of a rune of two bytes or more: a marker [a] and a few low
    bits. *)
Lemma lor_marker a n y :
  forallb (fun k => (0x80 <=? Z.lor a (Z.of_nat k)) && (Z.lor a (Z.of_nat k) <? 256))
          (seq 0 n) = true ->
  0 <= y < Z.of_nat n -> 0x80 <= Z.lor a y < 256.
Proof.
  intros H. apply (below_cases (fun y => 0x80 <= Z.lor a y < 256)). intros k Hk.
  pose proof (forallb_seq _ _ H k Hk) as Hb. cbv beta in Hb.
  apply andb_true_iff in Hb as [H1 H2]. lia.
Qed.

Lemma high_byte_not_paren x : 0x80 <= x < 256 -> z2b x <> "("%char.
Proof.
  intros H E. apply (f_equal b2z) in E. rewrite b2z_z2b in E by lia.
  vm_compute in E. lia.
Qed.

Lemma cont_byte_not_paren x : 0 <= x -> z2b (Z.lor 0x80 (Z.land x 0x3F)) <> "("%char.
Proof.
  intros H. apply high_byte_not_paren.
  apply (lor_marker 0x80 64); [vm_compute; reflexivity|].
  change 0x3F with (Z.ones 6). rewrite land_mask by lia.
  apply Z.mod_pos_bound. reflexivity.
Qed.

Lemma shiftr_range r k b : 0 <= r < b * 2 ^ k -> 0 <= k -> 0 <= Z.shiftr r k < b.
Proof.
  intros H Hk. rewrite Z.shiftr_div_pow2 by lia.
  assert (0 < 2 ^ k) by (apply Z.pow_pos_nonneg; lia).
  split; [apply Z.div_pos; lia|apply Z.div_lt_upper_bound; lia].
Qed.

Lemma parenCount_cons c l :
  parenCount (c :: l) = ((if ascii_dec c "("%char then 1 else 0) + parenCount l)%nat.
Proof.
  unfold parenCount. cbn [count_occ].
  destruct (ascii_dec c "("%char); [reflexivity|reflexivity].
Qed.

Lemma parenCount_app a b : parenCount (a ++ b) = (parenCount a + parenCount b)%nat.
Proof. apply count_occ_app. Qed.

Lemma parenCount_skipn n l : (parenCount (skipn n l) <= parenCount l)%nat.
Proof.
  revert l. induction n as [|n IH]; intros [|c t]; cbn [skipn]; try lia.
  rewrite parenCount_cons. specialize (IH t). lia.
Qed.

Ltac no_paren :=
  repeat (rewrite parenCount_cons;
          match goal with
          | |- context [ascii_dec ?c "("%char] =>
              destruct (ascii_dec c "("%char) as [E|_];
              [exfalso; revert E|]
          end); [..|reflexivity].

(** Only the rune [(] is written with a byte [(]. *)
Lemma EncodeRune_paren r : r <> rn "(" -> parenCount (utf8.EncodeRune r) = O.
Proof.
  intros Hr. unfold utf8.EncodeRune, utf8.enc3, utf8.MaxRune, utf8.surrogateMin,
    utf8.surrogateMax.
  destruct (Z.leb_spec 0 r); cbn [andb orb];
    [|destruct (Z.ltb_spec r 0); [reflexivity|lia]].
  destruct (Z.ltb_spec r 0x80).
  { no_paren. intros E. apply (f_equal b2z) in E. rewrite b2z_z2b in E by lia.
    contradiction. }
  destruct (Z.leb_spec r 0x7FF).
  { no_paren; [|now apply cont_byte_not_paren].
    apply high_byte_not_paren. apply (lor_marker 0xC0 32); [vm_compute; reflexivity|].
    apply shiftr_range; lia. }
  destruct (Z.ltb_spec r 0); [lia|]. cbn [orb].
  destruct (Z.ltb_spec 0x10FFFF r); [reflexivity|]. cbn [orb].
  destruct (Z.leb_spec 0xD800 r); cbn [andb];
    [destruct (Z.leb_spec r 0xDFFF); [reflexivity|]|];
    (destruct (Z.leb_spec r 0xFFFF);
     [no_paren; try (apply cont_byte_not_paren; try lia; apply Z.shiftr_nonneg; lia);
      apply high_byte_not_paren;
      apply (lor_marker 0xE0 16); [vm_compute; reflexivity|];
      apply shiftr_range; lia
     |no_paren; try (apply cont_byte_not_paren; try lia; apply Z.shiftr_nonneg; lia);
      apply high_byte_not_paren;
      apply (lor_marker 0xF0 8); [vm_compute; reflexivity|];
      apply shiftr_range; lia]).
Qed.

Lemma WriteRune_paren buf ch :
  parenCount (WriteRune buf ch)
  = (parenCount buf + parenCount (utf8.EncodeRune ch))%nat.
Proof. unfold WriteRune. apply parenCount_app. Qed.

(** A rune read is written with no more bytes [(] than were read. *)
Lemma read_paren s ch s1 : wf s -> read s = (ch, s1) ->
  (parenCount (utf8.EncodeRune ch) + parenCount (rest s1) <= parenCount (rest s))%nat
  /\ wf s1.
Proof.
  intros Hw R. split; [|apply (moved_wf 0 s s1); [lia|assumption|];
                        now apply (read_moved _ _ _ Hw R)].
  destruct (rest s) as [|c t] eqn:E.
  { rewrite (read_nil s Hw E) in R. injection R as <- <-. rewrite E.
    change (parenCount (utf8.EncodeRune eof)) with O.
    unfold parenCount. cbn [count_occ]. lia. }
  destruct (Z.ltb_spec (b2z c) 0x80) as [Lo|Hi].
  - destruct (read_low s c t Hw E Lo) as (s1' & R' & T & _).
    rewrite R in R'. injection R' as -> <-. rewrite T.
    pose proof (b2z_range c). rewrite EncodeRune_ascii, z2b_b2z by lia.
    rewrite !parenCount_cons. cbn. lia.
  - destruct (read_high s c t Hw E Hi) as (ch' & n & s1' & R' & Hch & _ & T & _).
    rewrite R in R'. injection R' as <- <-. rewrite T.
    rewrite EncodeRune_paren by (intros E0; rewrite E0 in Hch; vm_compute in Hch; now elim Hch).
    pose proof (parenCount_skipn n (c :: t)). lia.
Qed.

Lemma scanTextLoop_paren fuel : forall s firstCh prev buf buf' has s',
  wf s -> scanTextLoop fuel s firstCh prev buf = Ret (buf', has) s' ->
  (parenCount buf' + parenCount (rest s') <= parenCount buf + parenCount (rest s))%nat
  /\ wf s'.
Proof.
  induction fuel as [|f IH]; intros s firstCh prev buf buf' has s' Hw;
    [discriminate|].
  cbn [scanTextLoop]. destruct (read s) as [ch s1] eqn:R.
  destruct (read_paren _ _ _ Hw R) as [P Hw1].
  destruct (ch =? eof).
  { intros [= <- <- <-]. pose proof (parenCount_skipn 0 (rest s)). split; [lia|assumption]. }
  destruct ((ch =? firstCh) && negb (prev =? rn "\")).
  - intros [= <- <- <-]. rewrite WriteRune_paren. split; [lia|assumption].
  - intros H. destruct (IH _ _ _ _ _ _ _ Hw1 H) as [P' Hw']. 
    rewrite WriteRune_paren in P'. split; [lia|assumption].
Qed.

Lemma scanText_paren s t e s' : wf s -> scanText true s = Ret (t, e) s' ->
  (parenCount (Literal t) + parenCount (rest s') <= parenCount (rest s))%nat
  /\ wf s'.
Proof.
  intros Hw. unfold scanText. destruct (read s) as [ch s1] eqn:R.
  destruct (read_paren _ _ _ Hw R) as [P Hw1].
  destruct (scanTextLoop _ _ _ _ _) as [[literal has] s2| |] eqn:L; try discriminate.
  destruct (scanTextLoop_paren _ _ _ _ _ _ _ _ Hw1 L) as [P' Hw2].
  rewrite WriteRune_paren in P'. change (parenCount []) with O in P'.
  destruct has; cbn [negb]; intros [= <- <- <-]; cbn [Literal]; split;
    (lia || assumption).
Qed.

Lemma scanGroupLoop_paren fuel : forall s og buf buf' og' e s',
  wf s -> scanGroupLoop fuel s og buf = Ret (buf', og', e) s' ->
  (parenCount buf' + parenCount (rest s') <= parenCount buf + parenCount (rest s))%nat.
Proof.
  induction fuel as [|f IH]; intros s og buf buf' og' e s' Hw; [discriminate|].
  cbn [scanGroupLoop]. destruct (read s) as [ch s1] eqn:R.
  destruct (read_paren _ _ _ Hw R) as [P Hw1].
  assert (Hrec : forall og1, scanGroupLoop f s1 og1 (WriteRune buf ch)
                             = Ret (buf', og', e) s' ->
            (parenCount buf' + parenCount (rest s')
             <= parenCount buf + parenCount (rest s))%nat).
  { intros og1 H. pose proof (IH _ _ _ _ _ _ _ Hw1 H) as P'.
    rewrite WriteRune_paren in P'. lia. }
  destruct (Z.eqb_spec ch eof) as [E0|E0]; [intros [= <- <- <- <-]; lia|].
  destruct (isGroupStartRune ch); [apply Hrec|].
  destruct (isTextStartRune ch) eqn:T.
  { destruct (text_start_ascii _ T) as [_ Ha].
    rewrite (unread_ascii _ _ _ Hw R E0 Ha).
    destruct (scanText true s) as [[t [err|]] s2| |] eqn:X; try discriminate;
      destruct (scanText_paren _ _ _ _ Hw X) as [P' Hw2].
    - intros [= <- <- <- <-]. rewrite parenCount_app. lia.
    - intros H. pose proof (IH _ _ _ _ _ _ _ Hw2 H) as P''.
      rewrite parenCount_app in P''. lia. }
  destruct (ch =? rn ")"); [|apply Hrec].
  destruct (og - 1 <=? 0); [intros [= <- <- <- <-]; lia|apply Hrec].
Qed.

(** The literal of a group has fewer bytes [(] than the bytes it was
    scanned from: its own [(] is not written. *)
Lemma scanGroup_paren s c t tok e s' : wf s -> rest s = c :: t ->
  b2z c = rn "(" -> scanGroup s = Ret (tok, e) s' ->
  (parenCount (Literal tok) < parenCount (rest s))%nat.
Proof.
  intros Hw E Hc. unfold scanGroup.
  destruct (read_low s c t Hw E ltac:(rewrite Hc; vm_compute; reflexivity))
    as (s1 & -> & T & M).
  assert (c = "("%char) as -> by (apply b2z_inj; exact Hc).
  destruct (scanGroupLoop _ _ _ _) as [[[literal og] err] s2| |] eqn:L;
    try discriminate.
  pose proof (scanGroupLoop_paren _ _ _ _ _ _ _ _ (moved1_wf _ _ Hw M) L) as P.
  rewrite T in P. change (parenCount []) with O in P.
  rewrite E, parenCount_cons. cbn.
  destruct err; intros [= <- <- <-]; cbn [Literal]; lia.
Qed.

Lemma read_ascii_inv s ch s1 : wf s -> read s = (ch, s1) -> ch <> eof ->
  ch < 0x80 -> exists c t, rest s = c :: t /\ b2z c = ch.
Proof.
  intros Hw R E A.
  destruct (read_step _ _ _ Hw R) as [(_ & ? & _)|(H & n & _ & D & _)];
    [contradiction|].
  pose proof (rest_length s Hw) as L.
  destruct (rest s) as [|c t]; [cbn in L; lia|].
  exists c, t. split; [reflexivity|].
  destruct (decoded_ascii _ _ _ D A) as [_ ->]. reflexivity.
Qed.

Lemma identifierToken_type buf s t e s' :
  identifierToken buf s = Ret (t, e) s' -> Type_ t = TokenIdentifier.
Proof.
  unfold identifierToken. destruct (isValidIdentifier buf); [|discriminate].
  now intros [= <- <- <-].
Qed.

Lemma scanIdentifierLoop_type fuel : forall depth s buf t e s',
  scanIdentifierLoop fuel depth s buf = Ret (t, e) s' ->
  Type_ t = TokenIdentifier \/ Type_ t = TokenFunction.
Proof.
  induction fuel as [|f IH]; intros depth s buf t e s'; [discriminate|].
  cbn [scanIdentifierLoop]. destruct (read s) as [ch s1].
  destruct (ch =? eof); [intros H; left; eapply identifierToken_type; eauto|].
  destruct (ch =? rn "(").
  { destruct (depth <=? 0); [intros [= <- <- <-]; now right|].
    destruct (isValidIdentifier buf) as [[|]|]; try discriminate.
    - intros H. right. eapply scanFunctionArgsFuel_type; eauto.
    - intros [= <- <- <-]. now right. }
  match goal with |- context [if ?c then _ else _] => destruct c end.
  - intros H; left; eapply identifierToken_type; eauto.
  - apply IH.
Qed.

Lemma scanIdentifier_type depth s t e s' : scanIdentifier depth s = Ret (t, e) s' ->
  Type_ t = TokenIdentifier \/ Type_ t = TokenFunction.
Proof.
  unfold scanIdentifier. destruct (nestFuel s) as [|f]; [discriminate|].
  cbn [scanIdentifierFuel]. destruct (read s) as [ch s1].
  apply scanIdentifierLoop_type.
Qed.

(** The literal of a [Group] token has fewer bytes [(] than the input. *)
Lemma Scan_group_paren s t e s' : wf s -> Scan s = Ret (t, e) s' ->
  Type_ t = TokenGroup -> (parenCount (Literal t) < parenCount (data s))%nat.
Proof.
  intros Hw. unfold Scan. destruct (read s) as [ch s1] eqn:R.
  destruct (Z.eqb_spec ch eof) as [E|E]; [intros [= <- <- <-]; discriminate|].
  destruct (isWhitespaceRune ch);
    [intros H T; apply scanWhitespace_type in H; congruence|].
  destruct (isGroupStartRune ch) eqn:G.
  { assert (ch = rn "(") as Hc by (rune_class G; exact G).
    assert (ch < 0x80) as Ha by (rewrite Hc; vm_compute; reflexivity).
    rewrite (unread_ascii _ _ _ Hw R E Ha). intros H _.
    destruct (read_ascii_inv _ _ _ Hw R E Ha) as (c & tl & Er & Ec).
    pose proof (scanGroup_paren s c tl _ _ _ Hw Er ltac:(congruence) H) as P.
    pose proof (parenCount_skipn (Z.to_nat (pos s)) (data s)) as Q.
    fold (rest s) in Q. lia. }
  destruct (isIdentifierStartRune ch);
    [intros H T; apply scanIdentifier_type in H; destruct H; congruence|].
  destruct (isNumberStartRune ch);
    [intros H T; apply scanNumber_type in H; congruence|].
  destruct (isTextStartRune ch);
    [intros H T; apply scanText_type in H; congruence|].
  destruct (isSignStartRune ch);
    [intros H T; apply scanSign_type in H; congruence|].
  destruct (isJoinStartRune ch);
    [intros H T; apply scanJoin_type in H; congruence|].
  destruct (isCommentStartRune ch);
    [intros H T; apply scanComment_type in H; congruence|].
  intros [= <- <- <-]; discriminate.
Qed.

Lemma parseToken_eof pg st join result :
  exists r, parseToken pg st join result eofToken = Finish r.
Proof. destruct st; cbn; eauto. Qed.

(** The loop returns when the groups it meets can be parsed. *)
Lemma parseLoop_returns pg fuel : forall s st join result,
  wf s -> (remaining s < fuel)%nat ->
  (forall l, (parenCount l < parenCount (data s))%nat -> pg l <> None) ->
  exists r, parseLoop pg fuel s st join result = Some r.
Proof.
  induction fuel as [|f IH]; intros s st join result Hw Hf Hpg; [lia|].
  cbn [parseLoop].
  destruct (Scan_returns s Hw) as (t & e & s1 & E & M0 & HM). rewrite E.
  destruct e as [err|]; [eauto|].
  assert (Hnext : Type_ t <> TokenEOF -> forall st' join' result',
            exists r, parseLoop pg f s1 st' join' result' = Some r).
  { intros T st' join' result'.
    destruct HM as [[-> _]|[_ M1]]; [now elim T|].
    apply IH; [eapply moved1_wf; eauto|eapply moved_fuel; eauto|].
    destruct M1 as (D & _ & _). rewrite D. exact Hpg. }
  destruct (isSkipped t) eqn:K.
  { apply Hnext. intros T. unfold isSkipped in K. rewrite T in K. discriminate. }
  destruct (parseToken pg st join result t) as [st' join' result'|r|] eqn:P.
  - apply Hnext. intros T. destruct HM as [[-> _]|[T' _]]; [|contradiction].
    destruct (parseToken_eof pg st join result) as [r Hr]. congruence.
  - eauto.
  - exfalso. pose proof (Scan_group_paren _ _ _ _ Hw E) as G.
    revert P. unfold parseToken. destruct st;
      repeat match goal with
      | |- context [if ?c then _ else _] => destruct c eqn:?
      | |- context [match signOfLiteral ?l with _ => _ end] =>
          destruct (signOfLiteral l)
      end; try discriminate.
    destruct (pg (Literal t)) as [[? [?|]]|] eqn:X; try discriminate.
    intros _. apply (Hpg (Literal t)); [|assumption].
    apply G. destruct (Type_ t); (reflexivity || discriminate).
Qed.

Lemma parenCount_length l : (parenCount l <= List.length l)%nat.
Proof. apply count_occ_bound. Qed.

Lemma ParseDepth_returns depth : forall text, (parenCount text < depth)%nat ->
  exists r, ParseDepth depth text = Some r.
Proof.
  induction depth as [|d IH]; intros text H; [lia|].
  cbn [ParseDepth]. apply parseLoop_returns.
  - unfold wf, len. cbn [pos data NewScanner]. lia.
  - unfold remaining, len. cbn [pos data NewScanner]. lia.
  - cbn [data NewScanner]. intros l Hl E.
    destruct (IH l ltac:(lia)) as [r Hr]. congruence.
Qed.

(** [Parse] returns for every text: neither of its two budgets is used
    up, and the scanner always gives it a token. *)
Theorem Parse_returns (text : list byte) : exists r, Parse text = Some r.
Proof.
  apply ParseDepth_returns. pose proof (parenCount_length text). lia.
Qed.


(** * Further properties of the scanner *)

(** ** read and unread *)

(** After a rune of one byte, [unread] puts the scanner back as it was
    before the [read]; at the start of the buffer it does nothing. *)
Theorem unread_undoes_one_byte_read (s s1 : Scanner) (ch : rune) :
  0 <= pos s <= len s -> read s = (ch, s1) -> pos s1 = pos s + 1 ->
  unread s1 = s /\ unread (setPos s 0) = setPos s 0.
Proof.
  intros Hw R P. split; [|reflexivity].
  unfold unread. rewrite P. destruct (Z.ltb_spec 0 (pos s + 1)); [|lia].
  destruct (read_moved _ _ _ Hw R) as ((D & M & _) & _).
  destruct s as [d p m], s1 as [d1 p1 m1]. cbn in *. subst. unfold setPos. cbn. f_equal. lia.
Qed.

Lemma unread_undoes_one_byte_read_witness :
  unread (mkScanner (B "a=1") 2 3) = mkScanner (B "a=1") 1 3
  /\ unread (setPos (mkScanner (B "a=1") 1 3) 0) = setPos (mkScanner (B "a=1") 1 3) 0.
Proof.
  apply (unread_undoes_one_byte_read (mkScanner (B "a=1") 1 3)
           (mkScanner (B "a=1") 2 3) (rn "="));
    [cbn; lia|reflexivity|reflexivity].
Defined.

(** ** A NUL byte *)

(** [read] gives the rune 0 for a NUL byte, which is also its end-of-input
    marker: on a NUL byte [Scan] returns the [EOF] token without an error,
    although input remains, and moves the cursor over the byte. *)
Theorem nul_byte_scans_as_eof (s : Scanner) (t : list byte) :
  0 <= pos s <= len s -> rest s = zero :: t ->
  exists s', Scan s = Ret (eofToken, None) s' /\ pos s' = pos s + 1 /\ rest s' = t.
Proof.
  intros Hw E.
  destruct (read_low s zero t Hw E ltac:(vm_compute; reflexivity)) as (s1 & R & T & M).
  exists s1. unfold Scan. rewrite R. change (b2z zero =? eof) with true.
  split; [reflexivity|]. split; [|assumption].
  destruct (read_step _ _ _ Hw R) as [(H & _)|(_ & n & -> & D & _)].
  - pose proof (rest_length s Hw) as L. rewrite E in L. cbn [List.length] in L. lia.
  - destruct (decoded_ascii _ _ _ D ltac:(vm_compute; reflexivity)) as [-> _].
    reflexivity.
Qed.

Lemma nul_byte_scans_as_eof_witness :
  exists s', Scan (mkScanner (B "a" ++ zero :: B "b") 1 3) = Ret (eofToken, None) s'
    /\ pos s' = 1 + 1 /\ rest s' = B "b".
Proof.
  apply (nul_byte_scans_as_eof (mkScanner (B "a" ++ zero :: B "b") 1 3) (B "b"));
    [cbn; lia|reflexivity].
Defined.


(** ** Tokens that are a run of one class of runes *)

(** Where the run loop stops, the next byte is not of the accepted
    class. *)
Lemma run_stops accept s ch s1 c tl :
  (forall ch, accept ch = true -> 0 < ch < 0x80) ->
  wf s -> read s = (ch, s1) -> ch = eof \/ accept ch = false ->
  rest s = c :: tl -> accept (b2z c) = false.
Proof.
  intros Hacc Hw R Hs Er. destruct (accept (b2z c)) eqn:A; [|reflexivity].
  exfalso. pose proof (Hacc _ A) as Hc.
  destruct (read_low s c tl Hw Er ltac:(lia)) as (s1' & R' & _).
  rewrite R in R'. injection R' as -> _.
  destruct Hs as [Hs|Hs]; [unfold eof in Hs; lia|congruence].
Qed.

(** The run loop appends to the buffer the bytes it reads: they stand
    first in the remaining input, are all of the accepted class, and the
    byte behind them is not. *)
Lemma scanRunLoop_run accept fuel :
  (forall ch, accept ch = true -> 0 < ch < 0x80) ->
  forall s buf buf' s', wf s -> scanRunLoop accept fuel s buf = Ret buf' s' ->
  exists run tail, buf' = buf ++ run /\ rest s = run ++ tail
    /\ Forall (fun c => accept (b2z c) = true) run
    /\ (forall c tl, tail = c :: tl -> accept (b2z c) = false).
Proof.
  intros Hacc. induction fuel as [|f IH]; intros s buf buf' s' Hw; [discriminate|].
  cbn [scanRunLoop]. destruct (read s) as [ch s1] eqn:R.
  destruct (Z.eqb_spec ch eof) as [E|E].
  { intros [= <- <-]. exists [], (rest s). rewrite app_nil_r.
    split; [reflexivity|]. split; [reflexivity|]. split; [constructor|].
    intros c tl Er. apply (run_stops accept s ch s1 c tl); auto. }
  destruct (accept ch) eqn:A; cbn [negb].
  2:{ intros [= <- <-]. exists [], (rest s). rewrite app_nil_r.
      split; [reflexivity|]. split; [reflexivity|]. split; [constructor|].
      intros c tl Er. apply (run_stops accept s ch s1 c tl); auto. }
  pose proof (Hacc _ A) as Hch.
  destruct (read_ascii_inv _ _ _ Hw R E ltac:(lia)) as (c & t & Er & Ec).
  destruct (read_low s c t Hw Er ltac:(lia)) as (s1' & R' & T & M).
  rewrite R in R'. injection R' as _ <-.
  intros H.
  destruct (IH _ _ _ _ (moved1_wf _ _ Hw M) H) as (run & tail & -> & Et & F & X).
  exists (c :: run), tail. subst ch. rewrite WriteRune_byte by lia.
  rewrite <- app_assoc. split; [reflexivity|]. split; [|split; [|exact X]].
  - rewrite Er. cbn [app]. f_equal. congruence.
  - constructor; assumption.
Qed.

(** A run scanner that [Scan] enters on a rune of its class returns a
    literal that is not empty. *)
Lemma run_token accept s ch s1 literal s' :
  (forall ch, accept ch = true -> 0 < ch < 0x80) ->
  wf s -> read s = (ch, s1) -> ch <> eof -> accept ch = true ->
  scanRunLoop accept (loopFuel s) s [] = Ret literal s' ->
  literal <> [] /\ Forall (fun c => accept (b2z c) = true) literal
  /\ exists tail, rest s = literal ++ tail
       /\ forall c tl, tail = c :: tl -> accept (b2z c) = false.
Proof.
  intros Hacc Hw R E A H.
  destruct (scanRunLoop_run accept _ Hacc _ _ _ _ Hw H)
    as (run & tail & -> & Er & F & X).
  cbn [app]. split; [|split; [assumption|now exists tail]].
  revert H. unfold loopFuel. cbn [scanRunLoop]. rewrite R.
  destruct (Z.eqb_spec ch eof); [contradiction|]. rewrite A. cbn [negb app].
  intros H.
  destruct (scanRunLoop_run accept _ Hacc _ _ _ _
              (moved_wf 0 _ _ ltac:(lia) Hw (proj1 (read_moved _ _ _ Hw R))) H)
    as (run' & _ & E' & _).
  intros ->. pose proof (WriteRune_nonempty [] ch) as N.
  destruct (WriteRune [] ch); [now elim N|discriminate].
Qed.

Lemma whitespace_ascii ch : isWhitespaceRune ch = true -> 0 < ch < 0x80.
Proof. intros H. rune_class H. lia. Qed.

Lemma sign_ascii ch : isSignStartRune ch = true -> 0 < ch < 0x80.
Proof. intros H. rune_class H. lia. Qed.

Lemma join_ascii ch : isJoinStartRune ch = true -> 0 < ch < 0x80.
Proof. intros H. rune_class H. lia. Qed.

(** The branch of [Scan] that gave a token of a kind which only one
    sub-scanner returns. *)
Ltac other_branch :=
  match goal with
  | |- scanWhitespace _ = _ -> _ =>
      let H := fresh in intros H; apply scanWhitespace_type in H
  | |- scanGroup _ = _ -> _ =>
      let H := fresh in intros H; apply scanGroup_type in H
  | |- scanIdentifier _ _ = _ -> _ =>
      let H := fresh in intros H; apply scanIdentifier_type in H; destruct H
  | |- scanNumber _ = _ -> _ =>
      let H := fresh in intros H; apply scanNumber_type in H
  | |- scanText _ _ = _ -> _ =>
      let H := fresh in intros H; apply scanText_type in H
  | |- scanSign _ = _ -> _ =>
      let H := fresh in intros H; apply scanSign_type in H
  | |- scanJoin _ = _ -> _ =>
      let H := fresh in intros H; apply scanJoin_type in H
  | |- scanComment _ = _ -> _ =>
      let H := fresh in intros H; apply scanComment_type in H
  | |- Ret _ _ = Ret _ _ -> _ => intros [= <- <- <-]
  end; intros; exfalso; cbn [Type_] in *; congruence.

(** A [Whitespace] token never has an error; its literal is not empty,
    consists of spaces, tabs and newlines, stands first in the input that
    remained and is not followed by a further space, tab or newline. *)
Theorem whitespace_token (s s' : Scanner) (t : Token) (e : option error) :
  0 <= pos s <= len s -> Scan s = Ret (t, e) s' -> Type_ t = TokenWS ->
  e = None /\ Literal t <> []
  /\ Forall (fun c => isWhitespaceRune (b2z c) = true) (Literal t)
  /\ exists tail, rest s = Literal t ++ tail
       /\ forall c tl, tail = c :: tl -> isWhitespaceRune (b2z c) = false.
Proof.
  intros Hw. unfold Scan. destruct (read s) as [ch s1] eqn:R.
  destruct (Z.eqb_spec ch eof) as [E|E]; [other_branch|].
  destruct (isWhitespaceRune ch) eqn:C.
  { pose proof (whitespace_ascii _ C) as A.
    rewrite (unread_ascii _ _ _ Hw R E ltac:(lia)). unfold scanWhitespace.
    destruct (scanRunLoop _ _ _ _) as [literal s2| |] eqn:L; try discriminate.
    intros [= <- <- <-] _. cbn [Literal]. split; [reflexivity|].
    exact (run_token _ _ _ _ _ _ whitespace_ascii Hw R E C L). }
  destruct (isGroupStartRune ch); [other_branch|].
  destruct (isIdentifierStartRune ch); [other_branch|].
  destruct (isNumberStartRune ch); [other_branch|].
  destruct (isTextStartRune ch); [other_branch|].
  destruct (isSignStartRune ch); [other_branch|].
  destruct (isJoinStartRune ch); [other_branch|].
  destruct (isCommentStartRune ch); other_branch.
Qed.

Lemma whitespace_token_witness :
  @None error = None /\ Literal (mkToken None TokenWS (B "  ")) <> []
  /\ Forall (fun c => isWhitespaceRune (b2z c) = true)
            (Literal (mkToken None TokenWS (B "  ")))
  /\ exists tail, rest (mkScanner (B "a  b") 1 3)
                  = Literal (mkToken None TokenWS (B "  ")) ++ tail
       /\ forall c tl, tail = c :: tl -> isWhitespaceRune (b2z c) = false.
Proof.
  apply (whitespace_token (mkScanner (B "a  b") 1 3) (mkScanner (B "a  b") 3 3)
           (mkToken None TokenWS (B "  ")) None);
    [cbn; lia|reflexivity|reflexivity].
Defined.

(** The literal of a [Sign] token is the longest run of the runes
    [= ? ! > < ~] that stands first in the input that remained; the token
    has no error exactly when the run is one of the sixteen sign
    operators. *)
Theorem sign_token (s s' : Scanner) (t : Token) (e : option error) :
  0 <= pos s <= len s -> Scan s = Ret (t, e) s' -> Type_ t = TokenSign ->
  Literal t <> []
  /\ Forall (fun c => isSignStartRune (b2z c) = true) (Literal t)
  /\ (exists tail, rest s = Literal t ++ tail
        /\ forall c tl, tail = c :: tl -> isSignStartRune (b2z c) = false)
  /\ (e = None <-> exists op, signOfLiteral (Literal t) = Some op)
  /\ (e <> None -> e = Some (ErrInvalidSign (Literal t))).
Proof.
  intros Hw. unfold Scan. destruct (read s) as [ch s1] eqn:R.
  destruct (Z.eqb_spec ch eof) as [E|E]; [other_branch|].
  destruct (isWhitespaceRune ch); [other_branch|].
  destruct (isGroupStartRune ch); [other_branch|].
  destruct (isIdentifierStartRune ch); [other_branch|].
  destruct (isNumberStartRune ch); [other_branch|].
  destruct (isTextStartRune ch); [other_branch|].
  destruct (isSignStartRune ch) eqn:C.
  { pose proof (sign_ascii _ C) as A.
    rewrite (unread_ascii _ _ _ Hw R E ltac:(lia)). unfold scanSign.
    destruct (scanRunLoop _ _ _ _) as [literal s2| |] eqn:L; try discriminate.
    intros [= <- <- <-] _. cbn [Literal].
    destruct (run_token _ _ _ _ _ _ sign_ascii Hw R E C L) as (N & F & P).
    split; [assumption|]. split; [assumption|]. split; [assumption|].
    unfold isSignOperator. destruct (signOfLiteral literal) as [op|]; cbn [negb].
    - split; [split; eauto|congruence].
    - split; [split; [discriminate|intros [op ?]; discriminate]|reflexivity]. }
  destruct (isJoinStartRune ch); [other_branch|].
  destruct (isCommentStartRune ch); other_branch.
Qed.

Lemma sign_token_witness :
  Literal (mkToken None TokenSign (B "?!=")) <> []
  /\ Forall (fun c => isSignStartRune (b2z c) = true)
            (Literal (mkToken None TokenSign (B "?!=")))
  /\ (exists tail, rest (NewScanner (B "?!=1"))
                   = Literal (mkToken None TokenSign (B "?!=")) ++ tail
        /\ forall c tl, tail = c :: tl -> isSignStartRune (b2z c) = false)
  /\ (@None error = None
      <-> exists op, signOfLiteral (Literal (mkToken None TokenSign (B "?!="))) = Some op)
  /\ (@None error <> None
      -> None = Some (ErrInvalidSign (Literal (mkToken None TokenSign (B "?!="))))).
Proof.
  apply (sign_token (NewScanner (B "?!=1")) (mkScanner (B "?!=1") 3 3)
           (mkToken None TokenSign (B "?!=")) None);
    [cbn; lia|reflexivity|reflexivity].
Defined.

Lemma isJoinOperator_spec literal :
  isJoinOperator literal = true <-> literal = B "&&" \/ literal = B "||".
Proof.
  unfold isJoinOperator, bytes_eqb. rewrite orb_true_iff.
  destruct (list_eq_dec ascii_dec literal (B "&&")),
           (list_eq_dec ascii_dec literal (B "||")); split; intros [?|?];
    auto; discriminate.
Qed.

(** The literal of a [Join] token is the longest run of the runes [&]
    and [|] that stands first in the input that remained; the token has no
    error exactly when the run is [&&] or [||]. *)
Theorem join_token (s s' : Scanner) (t : Token) (e : option error) :
  0 <= pos s <= len s -> Scan s = Ret (t, e) s' -> Type_ t = TokenJoin ->
  Literal t <> []
  /\ Forall (fun c => isJoinStartRune (b2z c) = true) (Literal t)
  /\ (exists tail, rest s = Literal t ++ tail
        /\ forall c tl, tail = c :: tl -> isJoinStartRune (b2z c) = false)
  /\ (e = None <-> Literal t = B "&&" \/ Literal t = B "||")
  /\ (e <> None -> e = Some (ErrInvalidJoin (Literal t))).
Proof.
  intros Hw. unfold Scan. destruct (read s) as [ch s1] eqn:R.
  destruct (Z.eqb_spec ch eof) as [E|E]; [other_branch|].
  destruct (isWhitespaceRune ch); [other_branch|].
  destruct (isGroupStartRune ch); [other_branch|].
  destruct (isIdentifierStartRune ch); [other_branch|].
  destruct (isNumberStartRune ch); [other_branch|].
  destruct (isTextStartRune ch); [other_branch|].
  destruct (isSignStartRune ch); [other_branch|].
  destruct (isJoinStartRune ch) eqn:C.
  { pose proof (join_ascii _ C) as A.
    rewrite (unread_ascii _ _ _ Hw R E ltac:(lia)). unfold scanJoin.
    destruct (scanRunLoop _ _ _ _) as [literal s2| |] eqn:L; try discriminate.
    intros [= <- <- <-] _. cbn [Literal].
    destruct (run_token _ _ _ _ _ _ join_ascii Hw R E C L) as (N & F & P).
    split; [assumption|]. split; [assumption|]. split; [assumption|].
    rewrite <- isJoinOperator_spec.
    destruct (isJoinOperator literal); cbn [negb].
    - split; [split; auto|congruence].
    - split; [split; discriminate|reflexivity]. }
  destruct (isCommentStartRune ch); other_branch.
Qed.

Lemma join_token_witness :
  Literal (mkToken None TokenJoin (B "&&||")) <> []
  /\ Forall (fun c => isJoinStartRune (b2z c) = true)
            (Literal (mkToken None TokenJoin (B "&&||")))
  /\ (exists tail, rest (NewScanner (B "&&||"))
                   = Literal (mkToken None TokenJoin (B "&&||")) ++ tail
        /\ forall c tl, tail = c :: tl -> isJoinStartRune (b2z c) = false)
  /\ (Some (ErrInvalidJoin (B "&&||")) = None
      <-> Literal (mkToken None TokenJoin (B "&&||")) = B "&&"
          \/ Literal (mkToken None TokenJoin (B "&&||")) = B "||")
  /\ (Some (ErrInvalidJoin (B "&&||")) <> None
      -> Some (ErrInvalidJoin (B "&&||"))
         = Some (ErrInvalidJoin (Literal (mkToken None TokenJoin (B "&&||"))))).
Proof.
  apply (join_token (NewScanner (B "&&||")) (mkScanner (B "&&||") 4 3)
           (mkToken None TokenJoin (B "&&||")) (Some (ErrInvalidJoin (B "&&||"))));
    [cbn; lia|reflexivity|reflexivity].
Defined.


(** ** Numbers *)

Lemma dots_app a b : dots (a ++ b) = (dots a + dots b)%nat.
Proof. apply count_occ_app. Qed.

Lemma dots_byte c : dots [c] = if b2z c =? rn "." then 1%nat else 0%nat.
Proof.
  unfold dots. cbn [count_occ]. destruct (ascii_dec c "."%char) as [->|N].
  - reflexivity.
  - destruct (Z.eqb_spec (b2z c) (rn ".")) as [E|_]; [|reflexivity].
    elim N. now apply b2z_inj.
Qed.

Lemma dot_byte c : b2z c = rn "." -> c = "."%char.
Proof. apply b2z_inj. Qed.

(** Once the buffer is not empty, the loop of [scanNumber] goes on over
    digits and over one dot at most; it stops in front of a byte that is not
    a digit, and that is a dot only if one was read before. *)
Lemma scanNumberLoop_shape fuel : forall s buf hadDot buf' s',
  wf s -> scanNumberLoop fuel s buf hadDot = Ret buf' s' ->
  buf <> [] -> (dots buf <= 1)%nat -> (hadDot = true <-> dots buf = 1%nat) ->
  exists run tail, buf' = buf ++ run /\ rest s = run ++ tail
    /\ (dots buf' <= 1)%nat
    /\ Forall (fun c => isDigitRune (b2z c) = true \/ c = "."%char) run
    /\ (forall c tl, tail = c :: tl ->
          isDigitRune (b2z c) = false /\ (c = "."%char -> dots buf' = 1%nat)).
Proof.
  induction fuel as [|f IH]; intros s buf hadDot buf' s' Hw; [discriminate|].
  cbn [scanNumberLoop]. destruct (read s) as [ch s1] eqn:R.
  intros H Hb Hd Hh.
  assert (Hstop : buf' = buf ->
            ch = eof \/ (isDigitRune ch = false
                         /\ (ch = rn "." -> dots buf = 1%nat)) ->
            exists run tail, buf' = buf ++ run
            /\ rest s = run ++ tail /\ (dots buf' <= 1)%nat
            /\ Forall (fun c => isDigitRune (b2z c) = true \/ c = "."%char) run
            /\ (forall c tl, tail = c :: tl ->
                  isDigitRune (b2z c) = false
                  /\ (c = "."%char -> dots buf' = 1%nat))).
  { intros -> Hs. exists [], (rest s). rewrite app_nil_r.
    split; [reflexivity|]. split; [reflexivity|]. split; [assumption|].
    split; [constructor|]. intros c tl Er.
    destruct (Z.ltb_spec (b2z c) 0x80) as [Lo|Hi].
    - destruct (read_low s c tl Hw Er Lo) as (s1' & R' & _).
      rewrite R in R'. injection R' as -> _.
      destruct Hs as [Hs|[Hs1 Hs2]].
      + rewrite Hs. split; [reflexivity|]. intros ->. discriminate Hs.
      + split; [assumption|]. intros ->. now apply Hs2.
    - split.
      + destruct (isDigitRune (b2z c)) eqn:Dg; [|reflexivity].
        rune_class Dg. lia.
      + intros ->. vm_compute in Hi. now elim Hi. }
  revert H. destruct (Z.eqb_spec ch eof) as [E|E];
    [intros [= <- <-]; apply Hstop; auto|].
  assert ((Z.of_nat (List.length buf) =? 0) = false) as ->.
  { apply Z.eqb_neq. destruct buf; [congruence|cbn [List.length]; lia]. }
  rewrite orb_true_r, andb_true_r.
  destruct (isDigitRune ch) eqn:Dg; cbn [negb andb].
  - (* a digit *)
    assert (0 < ch < 0x80) as A by (rune_class Dg; lia).
    destruct (read_ascii_inv _ _ _ Hw R E ltac:(lia)) as (c & t & Er & Ec).
    destruct (read_low s c t Hw Er ltac:(lia)) as (s1' & R' & T & M).
    rewrite R in R'. injection R' as _ <-.
    assert ((ch =? rn ".") = false) as Nd
      by (apply Z.eqb_neq; intros X; rewrite X in Dg; discriminate Dg).
    rewrite Nd. subst ch. rewrite WriteRune_byte by lia. intros H.
    destruct (IH _ _ _ _ _ (moved1_wf _ _ Hw M) H)
      as (run & tail & -> & Et & D' & F & X').
    + intros X. now apply app_eq_nil in X as [? _].
    + rewrite dots_app, dots_byte, Nd. lia.
    + rewrite dots_app, dots_byte, Nd. rewrite Nat.add_0_r. exact Hh.
    + exists (c :: run), tail. rewrite <- app_assoc in *. split; [reflexivity|].
      split; [rewrite Er; cbn [app]; congruence|].
      split; [assumption|]. split; [constructor; auto|exact X'].
  - destruct (Z.eqb_spec ch (rn ".")) as [Dt|Dt]; cbn [negb orb];
      [|intros [= <- <-]; apply Hstop; [reflexivity|right; now split]].
    destruct hadDot;
      [intros [= <- <-]; apply Hstop;
         [reflexivity|right; split; [reflexivity|intros _; now apply Hh]]|].
    (* the first dot *)
    assert (dots buf = O) as D0.
    { destruct (dots buf) as [|[|n]] eqn:X; [reflexivity| |lia].
      destruct Hh as [_ Hh]. specialize (Hh eq_refl). discriminate. }
    assert (0 < ch < 0x80) as A by (rewrite Dt; vm_compute; split; reflexivity).
    destruct (read_ascii_inv _ _ _ Hw R E ltac:(lia)) as (c & t & Er & Ec).
    destruct (read_low s c t Hw Er ltac:(lia)) as (s1' & R' & T & M).
    rewrite R in R'. injection R' as _ <-.
    assert (Hc : (b2z c =? rn ".") = true) by (apply Z.eqb_eq; congruence).
    clear Dt. subst ch. rewrite WriteRune_byte by lia. intros H.
    destruct (IH _ _ _ _ _ (moved1_wf _ _ Hw M) H)
      as (run & tail & -> & Et & D' & F & X').
    + intros X. now apply app_eq_nil in X as [? _].
    + rewrite dots_app, dots_byte, Hc. lia.
    + rewrite dots_app, dots_byte, Hc, D0. split; reflexivity.
    + exists (c :: run), tail. rewrite <- app_assoc in *. split; [reflexivity|].
      split; [rewrite Er; cbn [app]; congruence|].
      split; [assumption|]. split; [|exact X']. constructor; [|assumption].
      right. apply dot_byte. now apply Z.eqb_eq.
Qed.

Lemma last_app_cons {A} (l : list A) a d : last (l ++ [a]) d = a.
Proof. apply last_last. Qed.

(** The literal of a [Number] token starts with [-] or a digit, goes on
    with digits and one dot at most, and stands first in the input that
    remained; it is not followed by a digit, nor by a dot unless it has one
    already.  The token has an error exactly when the literal is a bare [-]
    or ends with a dot. *)
Theorem number_token (s s' : Scanner) (t : Token) (e : option error) :
  0 <= pos s <= len s -> Scan s = Ret (t, e) s' -> Type_ t = TokenNumber ->
  exists c0 tl, Literal t = c0 :: tl
    /\ (c0 = "-"%char \/ isDigitRune (b2z c0) = true)
    /\ Forall (fun c => isDigitRune (b2z c) = true \/ c = "."%char) tl
    /\ (dots (Literal t) <= 1)%nat
    /\ (exists tail, rest s = Literal t ++ tail
          /\ forall c tl, tail = c :: tl ->
               isDigitRune (b2z c) = false
               /\ (c = "."%char -> dots (Literal t) = 1%nat))
    /\ (e <> None <-> Literal t = B "-" \/ last (Literal t) zero = "."%char)
    /\ (e <> None -> e = Some (ErrInvalidNumber (Literal t))).
Proof.
  intros Hw. unfold Scan. destruct (read s) as [ch s1] eqn:R.
  destruct (Z.eqb_spec ch eof) as [E|E]; [other_branch|].
  destruct (isWhitespaceRune ch); [other_branch|].
  destruct (isGroupStartRune ch); [other_branch|].
  destruct (isIdentifierStartRune ch); [other_branch|].
  destruct (isNumberStartRune ch) eqn:C.
  2:{ destruct (isTextStartRune ch); [other_branch|].
      destruct (isSignStartRune ch); [other_branch|].
      destruct (isJoinStartRune ch); [other_branch|].
      destruct (isCommentStartRune ch); other_branch. }
  destruct (number_start_ascii _ C) as [_ A].
  assert (0 <= ch) as P by (rune_class C; lia).
  rewrite (unread_ascii _ _ _ Hw R E A). unfold scanNumber, loopFuel.
  cbn [scanNumberLoop]. rewrite R.
  destruct (Z.eqb_spec ch eof); [contradiction|].
  assert (negb (isDigitRune ch)
          && (negb (ch =? rn "-") || negb (Z.of_nat (List.length (@nil byte)) =? 0))
          && (negb (ch =? rn ".") || false) = false) as ->.
  { unfold isNumberStartRune in C. apply orb_true_iff in C as [X|X]; rewrite X; cbn.
    - now rewrite andb_false_r.
    - reflexivity. }
  assert ((ch =? rn ".") = false) as Nd.
  { apply Z.eqb_neq. intros X. rewrite X in C. discriminate C. }
  rewrite Nd.
  destruct (read_ascii_inv _ _ _ Hw R E A) as (c & tl0 & Er & Ec).
  destruct (read_low s c tl0 Hw Er ltac:(lia)) as (s1' & R' & T & M).
  rewrite R in R'. injection R' as _ <-. subst ch.
  rewrite WriteRune_byte by lia. cbn [app].
  destruct (scanNumberLoop _ _ _ _) as [literal s2| |] eqn:L; try discriminate.
  destruct (scanNumberLoop_shape _ _ _ _ _ _ (moved1_wf _ _ Hw M) L)
    as (run & tail & -> & Et & D & F & Hmax).
  { discriminate. }
  { rewrite dots_byte, Nd. lia. }
  { rewrite dots_byte, Nd. split; discriminate. }
  cbn [app]. intros [= <- <- <-] _. cbn [Literal].
  exists c, run. split; [reflexivity|]. split.
  { unfold isNumberStartRune in C. apply orb_true_iff in C as [X|X]; [left|now right].
    apply b2z_inj. now apply Z.eqb_eq. }
  split; [assumption|]. split; [assumption|].
  split; [exists tail; split; [rewrite Er; cbn [app]; congruence|exact Hmax]|].
  rewrite Nd, orb_false_r.
  assert (Hlast : (b2z (last (c :: run) zero) =? rn ".") = true
                  <-> last (c :: run) zero = "."%char).
  { rewrite Z.eqb_eq. split; [apply dot_byte|now intros ->]. }
  assert (Hone : (Z.of_nat (List.length (c :: run)) =? 1) && (b2z c =? rn "-") = true
                 <-> c :: run = B "-").
  { rewrite andb_true_iff, !Z.eqb_eq. cbn [List.length]. split.
    - intros [X Y]. destruct run; [|cbn [List.length] in X; lia].
      change (B "-") with ["-"%char]. f_equal. now apply b2z_inj.
    - change (B "-") with ["-"%char]. intros [= -> ->]. split; reflexivity. }
  match goal with
  | |- context [if ?b then _ else _] =>
    change b with ((Z.of_nat (List.length (c :: run)) =? 1) && (b2z c =? rn "-")
                   || (b2z (last (c :: run) zero) =? rn "."))
  end.
  destruct ((Z.of_nat (List.length (c :: run)) =? 1) && (b2z c =? rn "-")) eqn:X1;
    cbn [orb].
  - split; [split; [intros _; left; now apply Hone|intros _; discriminate]
           |reflexivity].
  - destruct (b2z (last (c :: run) zero) =? rn ".") eqn:X2.
    + split; [split; [intros _; right; now apply Hlast|intros _; discriminate]
             |reflexivity].
    + split; [|congruence]. split; [congruence|].
      intros [Y|Y]; [apply Hone in Y|apply Hlast in Y]; discriminate.
Qed.

Lemma number_token_witness :
  exists c0 tl, Literal (mkToken None TokenNumber (B "-12.")) = c0 :: tl
    /\ (c0 = "-"%char \/ isDigitRune (b2z c0) = true)
    /\ Forall (fun c => isDigitRune (b2z c) = true \/ c = "."%char) tl
    /\ (dots (Literal (mkToken None TokenNumber (B "-12."))) <= 1)%nat
    /\ (exists tail, rest (NewScanner (B "-12.abc"))
                     = Literal (mkToken None TokenNumber (B "-12.")) ++ tail
          /\ forall c tl, tail = c :: tl ->
               isDigitRune (b2z c) = false
               /\ (c = "."%char
                   -> dots (Literal (mkToken None TokenNumber (B "-12."))) = 1%nat))
    /\ (Some (ErrInvalidNumber (B "-12.")) <> None
        <-> Literal (mkToken None TokenNumber (B "-12.")) = B "-"
            \/ last (Literal (mkToken None TokenNumber (B "-12."))) zero = "."%char)
    /\ (Some (ErrInvalidNumber (B "-12.")) <> None
        -> Some (ErrInvalidNumber (B "-12."))
           = Some (ErrInvalidNumber (Literal (mkToken None TokenNumber (B "-12."))))).
Proof.
  apply (number_token (NewScanner (B "-12.abc")) (mkScanner (B "-12.abc") 4 3)
           (mkToken None TokenNumber (B "-12.")) (Some (ErrInvalidNumber (B "-12."))));
    [cbn; lia|reflexivity|reflexivity].
Defined.


(** ** Function calls *)

Ltac meta_of_result :=
  repeat match goal with
  | |- context [let '(_, _) := read ?s in _] => destruct (read s) as [? ?]
  | |- context [match ?o with Ret _ _ => _ | Panic => _ | OutOfFuel => _ end] =>
      destruct o as [? ?| |]
  | |- context [let '(_, _) := ?p in _] => destruct p
  | |- context [if ?c then _ else _] => destruct c
  | |- context [match ?l with [] => _ | _ :: _ => _ end] => destruct l
  | |- context [match ?o with Some _ => _ | None => _ end] => destruct o
  end;
  try discriminate; intros [= <- <- <-]; reflexivity.

Lemma scanWhitespace_meta s t e s' : scanWhitespace s = Ret (t, e) s' -> Meta t = None.
Proof. unfold scanWhitespace. meta_of_result. Qed.

Lemma scanSign_meta s t e s' : scanSign s = Ret (t, e) s' -> Meta t = None.
Proof. unfold scanSign. meta_of_result. Qed.

Lemma scanJoin_meta s t e s' : scanJoin s = Ret (t, e) s' -> Meta t = None.
Proof. unfold scanJoin. meta_of_result. Qed.

Lemma scanNumber_meta s t e s' : scanNumber s = Ret (t, e) s' -> Meta t = None.
Proof. unfold scanNumber. meta_of_result. Qed.

Lemma scanText_meta p s t e s' : scanText p s = Ret (t, e) s' -> Meta t = None.
Proof. unfold scanText. meta_of_result. Qed.

Lemma scanComment_meta s t e s' : scanComment s = Ret (t, e) s' -> Meta t = None.
Proof. unfold scanComment. meta_of_result. Qed.

Lemma scanGroup_meta s t e s' : scanGroup s = Ret (t, e) s' -> Meta t = None.
Proof. unfold scanGroup. meta_of_result. Qed.

Lemma identifierToken_meta buf s t e s' :
  identifierToken buf s = Ret (t, e) s' -> Meta t = None.
Proof.
  unfold identifierToken. destruct (isValidIdentifier buf); [|discriminate].
  now intros [= <- <- <-].
Qed.

Lemma plain_ok depth t : Meta t = None -> tokenOk depth t.
Proof.
  destruct t as [m k l]. cbn [Meta]. intros ->. split; [cbn; lia|reflexivity].
Qed.

Lemma functionToken_ok name args depth : 1 <= depth ->
  isValidIdentifier name = Some true -> Forall (argOk (depth - 1)) args ->
  tokenOk depth (functionToken name args).
Proof.
  intros Hd Hn F. unfold functionToken, tokenOk. cbn [tokenDepth wellFormed].
  rewrite Hn. cbn [TokenType_eqb andb]. split.
  - assert (list_max (map tokenDepth args) <= Z.to_nat (depth - 1))%nat; [|lia].
    apply list_max_le. apply Forall_map.
    apply (Forall_impl _ (P := argOk (depth - 1))); [|exact F].
    now intros a [[D _] _].
  - apply forallb_forall. intros a Ha.
    rewrite Forall_forall in F. destruct (F a Ha) as [[_ W] A].
    now rewrite A, W.
Qed.

Lemma scanIdentifierFuel_type fuel depth s t e s' :
  scanIdentifierFuel fuel depth s = Ret (t, e) s' ->
  Type_ t = TokenIdentifier \/ Type_ t = TokenFunction.
Proof.
  destruct fuel as [|f]; [discriminate|].
  cbn [scanIdentifierFuel]. destruct (read s) as [ch s1].
  apply scanIdentifierLoop_type.
Qed.

Lemma argOk_app depth args a : Forall (argOk depth) args -> argOk depth a ->
  Forall (argOk depth) (args ++ [a]).
Proof. intros F A. apply Forall_app. split; [assumption|]. now constructor. Qed.

(** The tokens of the four functions that call each other. *)
Lemma nested_tokens fuel :
  (forall depth s buf t e s',
     scanIdentifierLoop fuel depth s buf = Ret (t, e) s' -> tokenOk depth t)
  /\ (forall depth s t e s',
     scanIdentifierFuel fuel depth s = Ret (t, e) s' -> tokenOk depth t)
  /\ (forall name depth s t e s', 1 <= depth ->
     isValidIdentifier name = Some true ->
     scanFunctionArgsFuel fuel name depth s = Ret (t, e) s' -> tokenOk depth t)
  /\ (forall name depth s args ec t e s', 1 <= depth ->
     isValidIdentifier name = Some true -> Forall (argOk (depth - 1)) args ->
     scanFunctionArgsLoop fuel name depth s args ec = Ret (t, e) s' ->
     tokenOk depth t).
Proof.
  induction fuel as [|f (IHloop & IHid & IHfn & IHargs)].
  { split; [|split; [|split]]; intros; discriminate. }
  split; [|split; [|split]].
  - (* scanIdentifierLoop *)
    intros depth s buf t e s'. cbn [scanIdentifierLoop].
    destruct (read s) as [ch s1].
    destruct (ch =? eof);
      [intros H; apply plain_ok; eapply identifierToken_meta; eauto|].
    destruct (ch =? rn "(").
    { destruct (Z.leb_spec depth 0);
        [intros [= <- <- <-]; now apply plain_ok|].
      destruct (isValidIdentifier buf) as [[|]|] eqn:V; try discriminate.
      - apply IHfn; [lia|assumption].
      - intros [= <- <- <-]. now apply plain_ok. }
    match goal with |- context [if ?c then _ else _] => destruct c end.
    + intros H; apply plain_ok; eapply identifierToken_meta; eauto.
    + apply IHloop.
  - (* scanIdentifierFuel *)
    intros depth s t e s'. cbn [scanIdentifierFuel].
    destruct (read s) as [ch s1]. apply IHloop.
  - (* scanFunctionArgsFuel *)
    intros name depth s t e s' Hd Hn. cbn [scanFunctionArgsFuel].
    destruct (read s) as [ch s1]. destruct (ch =? rn "("); cbn [negb].
    + apply IHargs; auto.
    + intros [= <- <- <-]. now apply plain_ok.
  - (* scanFunctionArgsLoop *)
    intros name depth s args ec t e s' Hd Hn F. cbn [scanFunctionArgsLoop].
    destruct (read s) as [ch s1].
    assert (Hret : forall (e0 : option error) (s0 : Scanner),
              Ret (functionToken name args, e0) s0 = Ret (t, e) s' ->
              tokenOk depth t).
    { intros e0 s0 [= <- <- <-]. now apply functionToken_ok. }
    destruct (ch =? eof); [apply Hret|].
    destruct (ch =? rn ")"); [apply Hret|].
    destruct (isWhitespaceRune ch).
    { destruct (scanWhitespace s1) as [[t1 [err|]] s2| |]; try discriminate;
        [apply Hret|now apply IHargs]. }
    destruct (isCommentStartRune ch).
    { destruct (scanComment (unread s1)) as [[t1 [err|]] s2| |]; try discriminate;
        [apply Hret|now apply IHargs]. }
    destruct (ec && negb (ch =? rn ",")); [apply Hret|].
    destruct (negb ec && (ch =? rn ",")); [apply Hret|].
    destruct (ch =? rn ","); [now apply IHargs|].
    destruct (isIdentifierStartRune ch).
    { destruct (scanIdentifierFuel f (depth - 1) (unread s1))
        as [[t1 [err|]] s2| |] eqn:I; try discriminate; [apply Hret|].
      apply IHargs; [assumption|assumption|]. apply argOk_app; [assumption|].
      split; [eapply IHid; eauto|].
      unfold isArgument.
      destruct (scanIdentifierFuel_type _ _ _ _ _ _ I) as [-> | ->]; reflexivity. }
    destruct (isNumberStartRune ch).
    { destruct (scanNumber (unread s1)) as [[t1 [err|]] s2| |] eqn:I;
        try discriminate; [apply Hret|].
      apply IHargs; [assumption|assumption|]. apply argOk_app; [assumption|].
      split; [apply plain_ok; eapply scanNumber_meta; eauto|].
      unfold isArgument. now rewrite (scanNumber_type _ _ _ _ I). }
    destruct (isTextStartRune ch).
    { destruct (scanText false (unread s1)) as [[t1 [err|]] s2| |] eqn:I;
        try discriminate; [apply Hret|].
      apply IHargs; [assumption|assumption|]. apply argOk_app; [assumption|].
      split; [apply plain_ok; eapply scanText_meta; eauto|].
      unfold isArgument. now rewrite (scanText_type _ _ _ _ _ I). }
    apply Hret.
Qed.

Lemma Scan_tokenOk s t e s' : Scan s = Ret (t, e) s' -> tokenOk (maxFuncDepth s) t.
Proof.
  unfold Scan. destruct (read s) as [ch s1].
  destruct (ch =? eof); [intros [= <- <- <-]; now apply plain_ok|].
  destruct (isWhitespaceRune ch);
    [intros H; apply plain_ok; eapply scanWhitespace_meta; eauto|].
  destruct (isGroupStartRune ch);
    [intros H; apply plain_ok; eapply scanGroup_meta; eauto|].
  destruct (isIdentifierStartRune ch).
  { unfold scanIdentifier. apply (nested_tokens (nestFuel (unread s1))). }
  destruct (isNumberStartRune ch);
    [intros H; apply plain_ok; eapply scanNumber_meta; eauto|].
  destruct (isTextStartRune ch);
    [intros H; apply plain_ok; eapply scanText_meta; eauto|].
  destruct (isSignStartRune ch);
    [intros H; apply plain_ok; eapply scanSign_meta; eauto|].
  destruct (isJoinStartRune ch);
    [intros H; apply plain_ok; eapply scanJoin_meta; eauto|].
  destruct (isCommentStartRune ch);
    [intros H; apply plain_ok; eapply scanComment_meta; eauto|].
  intros [= <- <- <-]. now apply plain_ok.
Qed.

(** Whatever the input, the function calls of a token returned by [Scan]
    are nested no deeper than the [maxFuncDepth] of the scanner; with a
    depth of zero or less no token holds arguments. *)
Theorem function_nesting_bound (s s' : Scanner) (t : Token) (e : option error) :
  Scan s = Ret (t, e) s' -> (tokenDepth t <= Z.to_nat (maxFuncDepth s))%nat.
Proof. intros H. now destruct (Scan_tokenOk _ _ _ _ H). Qed.

Lemma function_nesting_bound_witness :
  (tokenDepth (functionToken (B "a")
                 [functionToken (B "b") [mkToken None TokenIdentifier (B "c")];
                  mkToken None TokenNumber (B "1")])
   <= Z.to_nat (maxFuncDepth (NewScanner (B "a(b(c),1) x"))))%nat.
Proof.
  apply (function_nesting_bound (NewScanner (B "a(b(c),1) x"))
           (mkScanner (B "a(b(c),1) x") 9 3) _ None).
  vm_compute. reflexivity.
Defined.

(** Whatever the input, only a [Function] token returned by [Scan] holds
    arguments; its name is then a valid identifier and each argument, at
    every level, is an [Identifier], [Function], [Number] or [Text] token. *)
Theorem function_arguments_kinds (s s' : Scanner) (t : Token) (e : option error) :
  Scan s = Ret (t, e) s' ->
  wellFormed t = true
  /\ (forall args, Meta t = Some args ->
        Type_ t = TokenFunction
        /\ isValidIdentifier (Literal t) = Some true
        /\ Forall (fun a => isArgument a = true /\ wellFormed a = true) args).
Proof.
  intros H. destruct (Scan_tokenOk _ _ _ _ H) as [_ W]. split; [assumption|].
  destruct t as [m k l]. cbn [Meta Type_ Literal]. intros args ->.
  cbn [wellFormed] in W. apply andb_true_iff in W as [W Fa].
  apply andb_true_iff in W as [K V].
  split; [destruct k; try discriminate K; reflexivity|].
  split; [destruct (isValidIdentifier l) as [[|]|]; try discriminate V; reflexivity|].
  apply Forall_forall. intros a Ha.
  rewrite forallb_forall in Fa. specialize (Fa a Ha).
  now apply andb_true_iff in Fa.
Qed.

Lemma function_arguments_kinds_witness :
  wellFormed (functionToken (B "a")
                [functionToken (B "b") [mkToken None TokenText (B "c")];
                 mkToken None TokenNumber (B "1")]) = true
  /\ (forall args,
        Meta (functionToken (B "a")
                [functionToken (B "b") [mkToken None TokenText (B "c")];
                 mkToken None TokenNumber (B "1")]) = Some args ->
        Type_ (functionToken (B "a")
                [functionToken (B "b") [mkToken None TokenText (B "c")];
                 mkToken None TokenNumber (B "1")]) = TokenFunction
        /\ isValidIdentifier
             (Literal (functionToken (B "a")
                [functionToken (B "b") [mkToken None TokenText (B "c")];
                 mkToken None TokenNumber (B "1")])) = Some true
        /\ Forall (fun a => isArgument a = true /\ wellFormed a = true) args).
Proof.
  apply (function_arguments_kinds (NewScanner (B "a(b('c'), 1)"))
           (mkScanner (B "a(b('c'), 1)") 12 3) _ None).
  vm_compute. reflexivity.
Defined.


(** ** What a quoted text and a group take from the input *)

Lemma validText_nil : validText [].
Proof. now exists O. Qed.

(** One [read] on a valid text: the rune is not [eof], and [WriteRune]
    writes back the bytes that were read. *)
Lemma read_validText s c t : wf s -> rest s = c :: t -> validText (rest s) ->
  exists ch s1 w, read s = (ch, s1) /\ ch <> eof /\ w <> []
    /\ rest s = w ++ rest s1 /\ utf8.EncodeRune ch = w
    /\ validText (rest s1) /\ moved 1 s s1.
Proof.
  intros Hw E [f V]. rewrite E in V.
  destruct f as [|f]; [discriminate|].
  destruct (isTextFuel_step _ _ _ V) as (r & n & D & Hr & He & Hf).
  rewrite <- E in D.
  destruct (read_rest s r n Hw ltac:(rewrite E; apply cons_ne) D) as (R & T & M).
  exists r, (setPos s (pos s + n)), (firstn (Z.to_nat n) (c :: t)).
  split; [exact R|]. split; [exact Hr|].
  split; [rewrite <- He; apply EncodeRune_nonempty|].
  split; [rewrite T, E; symmetry; apply firstn_skipn|].
  split; [exact He|]. split; [exists f; rewrite T, E; exact Hf|exact M].
Qed.

(** On a valid text the loop of [scanText] writes the bytes it reads; it
    stops behind the closing quote or at the end of the input. *)
Lemma scanTextLoop_lossless fuel : forall s q prev buf buf' has s',
  wf s -> validText (rest s) -> 0 < b2z q < 0x80 ->
  scanTextLoop fuel s (b2z q) prev buf = Ret (buf', has) s' ->
  exists w, buf' = buf ++ w /\ rest s = w ++ rest s' /\ wf s'
    /\ validText (rest s')
    /\ (if has then exists body, w = body ++ [q] else rest s' = []).
Proof.
  induction fuel as [|f IH]; intros s q prev buf buf' has s' Hw V Hq;
    [discriminate|].
  cbn [scanTextLoop]. destruct (rest s) as [|c t] eqn:E.
  { rewrite (read_nil s Hw E). change (eof =? eof) with true. cbn iota.
    intros [= <- <- <-]. exists []. rewrite app_nil_r.
    split; [reflexivity|]. split; [cbn [app]; now rewrite E|]. split; [exact Hw|].
    split; [rewrite E; apply validText_nil|exact E]. }
  rewrite <- E in V.
  destruct (read_validText s c t Hw E V) as (ch & s1 & w & R & Hne & Hw0 & Ew & En & V1 & M).
  rewrite R. destruct (Z.eqb_spec ch eof); [contradiction|].
  unfold WriteRune. rewrite En.
  pose proof (moved1_wf _ _ Hw M) as Hw1. rewrite E in Ew.
  destruct ((ch =? b2z q) && negb (prev =? rn "\")) eqn:C.
  - intros [= <- <- <-]. exists w. split; [reflexivity|]. split; [exact Ew|].
    split; [assumption|]. split; [assumption|]. exists [].
    apply andb_true_iff in C as [C _]. apply Z.eqb_eq in C. subst ch.
    rewrite EncodeRune_ascii in En by lia. rewrite z2b_b2z in En. now rewrite <- En.
  - intros H. destruct (IH _ _ _ _ _ _ _ Hw1 V1 Hq H) as (w' & -> & E' & Hw' & V' & Hh).
    exists (w ++ w'). rewrite app_assoc. split; [reflexivity|].
    split; [rewrite <- app_assoc, <- E'; exact Ew|].
    split; [assumption|]. split; [assumption|].
    destruct has; [|assumption]. destruct Hh as [body ->].
    exists (w ++ body). now rewrite app_assoc.
Qed.

Lemma quote_range q : isTextStartRune (b2z q) = true -> 0 < b2z q < 0x80.
Proof. intros H. rune_class H. lia. Qed.

(** What [scanText] takes from a valid text that starts with a quote. *)
Lemma scanText_consumed p s q t0 tok e s' : wf s -> rest s = q :: t0 ->
  isTextStartRune (b2z q) = true -> validText (rest s) ->
  scanText p s = Ret (tok, e) s' ->
  wf s' /\ validText (rest s')
  /\ match e with
     | Some err => rest s' = [] /\ Literal tok = rest s
                   /\ err = ErrInvalidQuotedText (rest s)
     | None => exists body, rest s = q :: body ++ q :: rest s'
                 /\ Literal tok = if p then q :: body ++ [q]
                                  else ReplaceAll body (backslash :: [q]) [q]
     end.
Proof.
  intros Hw E Hq V. pose proof (quote_range q Hq) as Q.
  destruct (read_validText s q t0 Hw E V) as (ch & s1 & w & R & _ & _ & Ew & En & V1 & M).
  destruct (read_low s q t0 Hw E ltac:(lia)) as (s1' & R' & T & _).
  rewrite R in R'. injection R' as -> <-.
  unfold scanText. rewrite R. rewrite WriteRune_byte by lia. cbn [app].
  destruct (scanTextLoop _ _ _ _ _) as [[literal has] s2| |] eqn:L; try discriminate.
  destruct (scanTextLoop_lossless _ _ _ _ _ _ _ _ (moved1_wf _ _ Hw M) V1 Q L)
    as (w' & -> & E' & Hw' & V' & Hh).
  rewrite T in E'. cbn [app].
  destruct has; cbn [negb].
  - destruct Hh as [body ->].
    assert (Er : rest s = q :: body ++ q :: rest s2).
    { rewrite E, E', <- app_assoc. reflexivity. }
    destruct p; cbn [negb]; intros [= <- <- <-]; cbn [Literal];
      (split; [assumption|]); (split; [assumption|]); exists body;
      (split; [exact Er|]); [reflexivity|].
    rewrite slice_quoted. rewrite EncodeRune_ascii by lia. now rewrite z2b_b2z.
  - intros [= <- <- <-]. cbn [Literal]. split; [assumption|]. split; [assumption|].
    rewrite Hh, app_nil_r in E'. rewrite E, E'. auto.
Qed.

(** On valid UTF-8 input without a NUL byte, a [Text] token without an
    error was scanned from a quote, a body and the same quote, which are all
    that was consumed, and its literal is the body with every backslash that
    stands before that quote removed; a [Text] token with an error has
    consumed the whole input that remained and holds it unchanged, opening
    quote included. *)
Theorem text_token (s s' : Scanner) (t : Token) (e : option error) :
  0 <= pos s <= len s -> validText (rest s) ->
  Scan s = Ret (t, e) s' -> Type_ t = TokenText ->
  exists q, isTextStartRune (b2z q) = true
    /\ match e with
       | None => exists body, rest s = q :: body ++ q :: rest s'
                   /\ Literal t = ReplaceAll body (backslash :: [q]) [q]
       | Some err => (exists body, rest s = q :: body) /\ rest s' = []
                     /\ Literal t = rest s
                     /\ err = ErrInvalidQuotedText (rest s)
       end.
Proof.
  intros Hw V. unfold Scan. destruct (read s) as [ch s1] eqn:R.
  destruct (Z.eqb_spec ch eof) as [E|E]; [other_branch|].
  destruct (isWhitespaceRune ch); [other_branch|].
  destruct (isGroupStartRune ch); [other_branch|].
  destruct (isIdentifierStartRune ch); [other_branch|].
  destruct (isNumberStartRune ch); [other_branch|].
  destruct (isTextStartRune ch) eqn:C.
  2:{ destruct (isSignStartRune ch); [other_branch|].
      destruct (isJoinStartRune ch); [other_branch|].
      destruct (isCommentStartRune ch); other_branch. }
  destruct (text_start_ascii _ C) as [_ A].
  rewrite (unread_ascii _ _ _ Hw R E A).
  destruct (read_ascii_inv _ _ _ Hw R E A) as (q & t0 & Er & Eq). subst ch.
  intros H _. exists q. split; [exact C|].
  destruct (scanText_consumed _ _ _ _ _ _ _ Hw Er C V H) as (_ & _ & X).
  destruct e as [err|].
  - destruct X as (X1 & X2 & X3). split; [now exists t0|auto].
  - exact X.
Qed.

Lemma text_token_witness :
  exists q, isTextStartRune (b2z q) = true
    /\ exists body,
         rest (NewScanner (B "'it\'s' = x"))
         = q :: body ++ q :: rest (mkScanner (B "'it\'s' = x") 7 3)
         /\ Literal (mkToken None TokenText (B "it's"))
            = ReplaceAll body (backslash :: [q]) [q].
Proof.
  apply (text_token (NewScanner (B "'it\'s' = x")) (mkScanner (B "'it\'s' = x") 7 3)
           (mkToken None TokenText (B "it's")) None).
  - cbn; lia.
  - exists 20%nat. vm_compute. reflexivity.
  - vm_compute. reflexivity.
  - reflexivity.
Defined.


Lemma ascii_written s c t ch s1 w : wf s -> rest s = c :: t ->
  read s = (ch, s1) -> ch <> eof -> ch < 0x80 ->
  rest s = w ++ rest s1 -> utf8.EncodeRune ch = w ->
  w = [c] /\ b2z c = ch /\ rest s1 = t.
Proof.
  intros Hw E R N A Ew En.
  destruct (read_ascii_inv _ _ _ Hw R N A) as (c' & t' & E' & Ec).
  rewrite E in E'. injection E' as <- <-.
  pose proof (b2z_range c). rewrite <- Ec in En.
  rewrite EncodeRune_ascii, z2b_b2z in En by lia. subst w.
  rewrite E in Ew. cbn [app] in Ew. injection Ew as <-. auto.
Qed.

(** On a valid text the loop of [scanGroup] writes the bytes it reads,
    but for the [)] that closes the group; it stops behind that [)], or at
    the end of the input. *)
Lemma scanGroupLoop_lossless fuel : forall s og buf buf' og' e s',
  wf s -> validText (rest s) -> 1 <= og ->
  scanGroupLoop fuel s og buf = Ret (buf', og', e) s' ->
  exists w, buf' = buf ++ w
    /\ ((e = None /\ og' <= 0 /\ rest s = w ++ ")"%char :: rest s')
        \/ (rest s = w /\ rest s' = []
            /\ match e with
               | None => 0 < og'
               | Some err => exists l, err = ErrInvalidQuotedText l
               end)).
Proof.
  induction fuel as [|f IH]; intros s og buf buf' og' e s' Hw V Hog;
    [discriminate|].
  cbn [scanGroupLoop]. destruct (rest s) as [|c t] eqn:E.
  { rewrite (read_nil s Hw E). change (eof =? eof) with true. cbn iota.
    intros [= <- <- <- <-]. exists []. rewrite app_nil_r.
    split; [reflexivity|]. right. split; [reflexivity|]. split; [exact E|lia]. }
  rewrite <- E in V.
  destruct (read_validText s c t Hw E V)
    as (ch & s1 & w & R & Hne & Hw0 & Ew & En & V1 & M).
  rewrite R. destruct (Z.eqb_spec ch eof); [contradiction|].
  unfold WriteRune. rewrite En.
  pose proof (moved1_wf _ _ Hw M) as Hw1.
  assert (Hrec : forall og1, 1 <= og1 ->
            scanGroupLoop f s1 og1 (buf ++ w) = Ret (buf', og', e) s' ->
            exists w0, buf' = buf ++ w0
              /\ ((e = None /\ og' <= 0 /\ c :: t = w0 ++ ")"%char :: rest s')
                  \/ (c :: t = w0 /\ rest s' = []
                      /\ match e with
                         | None => 0 < og'
                         | Some err => exists l, err = ErrInvalidQuotedText l
                         end))).
  { intros og1 H1 H. destruct (IH _ _ _ _ _ _ _ Hw1 V1 H1 H) as (w' & -> & D).
    exists (w ++ w'). rewrite app_assoc. split; [reflexivity|].
    rewrite <- E, Ew, <- app_assoc.
    destruct D as [(D1 & D2 & D3)|(D1 & D2 & D3)]; [left|right]; rewrite D1; auto.
    rewrite D3. auto. }
  destruct (isGroupStartRune ch); [apply Hrec; lia|].
  destruct (isTextStartRune ch) eqn:C.
  { destruct (text_start_ascii _ C) as [_ A].
    rewrite (unread_ascii _ _ _ Hw R n A).
    destruct (ascii_written _ _ _ _ _ _ Hw E R n A Ew En) as (-> & Ec & T).
    subst ch.
    destruct (scanText true s) as [[tok [err|]] s2| |] eqn:S2; try discriminate;
      destruct (scanText_consumed _ _ _ _ _ _ _ Hw E C V S2) as (Hw2 & V2 & X).
    - destruct X as (X1 & X2 & X3). intros [= <- <- <- <-].
      exists (Literal tok). split; [reflexivity|]. right.
      rewrite X2, E. split; [reflexivity|]. split; [assumption|]. eauto.
    - destruct X as (body & X1 & X2). rewrite X2. intros H.
      destruct (IH _ _ _ _ _ _ _ Hw2 V2 Hog H) as (w' & -> & D).
      exists ((c :: body ++ [c]) ++ w'). rewrite app_assoc. split; [reflexivity|].
      rewrite E in X1. rewrite X1.
      replace (c :: body ++ c :: rest s2) with ((c :: body ++ [c]) ++ rest s2)
        by (cbn [app]; now rewrite <- app_assoc).
      destruct D as [(D1 & D2 & D3)|(D1 & D2 & D3)]; [left|right];
        rewrite D1, <- ?app_assoc; auto.
      rewrite D3. auto. }
  destruct (Z.eqb_spec ch (rn ")")) as [P|P]; [|apply Hrec; lia].
  destruct (Z.leb_spec (og - 1) 0); [|apply Hrec; lia].
  intros [= <- <- <- <-]. exists []. rewrite app_nil_r. split; [reflexivity|]. left.
  split; [reflexivity|]. split; [assumption|].
  assert (A : ch < 0x80) by (rewrite P; vm_compute; reflexivity).
  destruct (ascii_written _ _ _ _ _ _ Hw E R n A Ew En) as (_ & Ec & T).
  rewrite T. cbn [app]. f_equal. apply b2z_inj. rewrite Ec. exact P.
Qed.

(** On valid UTF-8 input without a NUL byte, a [Group] token without an
    error was scanned from [(], its literal and [)], which are all that was
    consumed: the literal is the bytes between the two parentheses,
    unchanged.  A [Group] token with an error has consumed the whole input
    that remained, and its literal is all of it behind the [(]; the error
    is that of an open quoted text, or the missing-brackets error with a
    positive count. *)
Theorem group_token (s s' : Scanner) (t : Token) (e : option error) :
  0 <= pos s <= len s -> validText (rest s) ->
  Scan s = Ret (t, e) s' -> Type_ t = TokenGroup ->
  match e with
  | None => rest s = "("%char :: Literal t ++ ")"%char :: rest s'
  | Some err =>
      rest s = "("%char :: Literal t /\ rest s' = []
      /\ ((exists n, 0 < n /\ err = ErrMissingBrackets n)
          \/ exists l, err = ErrInvalidQuotedText l)
  end.
Proof.
  intros Hw V. unfold Scan. destruct (read s) as [ch s1] eqn:R.
  destruct (Z.eqb_spec ch eof) as [E|E]; [other_branch|].
  destruct (isWhitespaceRune ch); [other_branch|].
  destruct (isGroupStartRune ch) eqn:C.
  2:{ destruct (isIdentifierStartRune ch); [other_branch|].
      destruct (isNumberStartRune ch); [other_branch|].
      destruct (isTextStartRune ch); [other_branch|].
      destruct (isSignStartRune ch); [other_branch|].
      destruct (isJoinStartRune ch); [other_branch|].
      destruct (isCommentStartRune ch); other_branch. }
  assert (P : ch = rn "(") by (unfold isGroupStartRune in C; now apply Z.eqb_eq).
  assert (A : ch < 0x80) by (rewrite P; vm_compute; reflexivity).
  rewrite (unread_ascii _ _ _ Hw R E A).
  destruct (read_ascii_inv _ _ _ Hw R E A) as (c & t0 & Er & Ec).
  assert (c = "("%char) as -> by (apply b2z_inj; rewrite Ec; exact P).
  destruct (read_validText s _ t0 Hw Er V) as (ch' & s1' & w & R' & _ & _ & Ew & En & V1 & M).
  rewrite R in R'. injection R' as <- <-.
  destruct (ascii_written _ _ _ _ _ _ Hw Er R E A Ew En) as (_ & _ & T).
  unfold scanGroup. rewrite R, C. cbn [negb orb].
  destruct (scanGroupLoop _ _ _ _) as [[[literal og] err] s2| |] eqn:L;
    try discriminate.
  destruct (scanGroupLoop_lossless _ _ _ _ _ _ _ _ (moved1_wf _ _ Hw M) V1
              (Z.le_refl 1) L) as (w' & -> & D).
  cbn [app] in *. rewrite Er, <- T.
  destruct D as [(-> & D2 & D3)|(D1 & D2 & D3)].
  - destruct (Z.ltb_spec 0 og); [lia|]. intros [= <- <- <-] _. cbn [Literal].
    now rewrite D3.
  - destruct err as [err|].
    + intros [= <- <- <-] _. cbn [Literal]. rewrite D1. auto.
    + destruct (Z.ltb_spec 0 og); [|lia]. intros [= <- <- <-] _. cbn [Literal].
      rewrite D1. split; [reflexivity|]. split; [assumption|]. left. eauto.
Qed.

Lemma group_token_witness :
  rest (NewScanner (B "(a = ')' || (b)) && c"))
  = "("%char :: Literal (mkToken None TokenGroup (B "a = ')' || (b)"))
    ++ ")"%char :: rest (mkScanner (B "(a = ')' || (b)) && c") 16 3).
Proof.
  apply (group_token (NewScanner (B "(a = ')' || (b)) && c"))
           (mkScanner (B "(a = ')' || (b)) && c") 16 3)
           (mkToken None TokenGroup (B "a = ')' || (b)")) None).
  - cbn; lia.
  - exists 30%nat. vm_compute. reflexivity.
  - vm_compute. reflexivity.
  - reflexivity.
Defined.


(** ** Comments *)

(** An ASCII byte among the bytes of one rune is the rune. *)
Lemma written_bytes s c t ch s1 w : wf s -> rest s = c :: t ->
  read s = (ch, s1) -> ch <> eof -> rest s = w ++ rest s1 ->
  utf8.EncodeRune ch = w ->
  forall b, In b w -> b2z b < 0x80 -> b2z b = ch.
Proof.
  intros Hw E R N Ew En b Hb Lo.
  destruct (Z.ltb_spec (b2z c) 0x80) as [Hc|Hc].
  - destruct (read_low s c t Hw E Hc) as (s1' & R' & _).
    rewrite R in R'. injection R' as -> <-.
    destruct (ascii_written _ _ _ _ _ _ Hw E R N Hc Ew En) as (-> & _).
    destruct Hb as [<-|[]]. reflexivity.
  - destruct (read_high s c t Hw E Hc) as (ch' & n & s1' & R' & _ & _ & T & Hn & Hi).
    rewrite R in R'. injection R' as <- <-.
    assert (w = firstn n (c :: t)) as ->.
    { apply (app_inv_tail (skipn n (c :: t))). rewrite firstn_skipn, <- T, <- Ew.
      now symmetry. }
    destruct (In_nth _ _ zero Hb) as (i & Li & Ei).
    rewrite length_firstn in Li. rewrite nth_firstn in Ei.
    destruct (Nat.ltb_spec i n); [|lia].
    specialize (Hi i ltac:(lia)). unfold utf8.at_ in Hi. rewrite Ei in Hi. lia.
Qed.

Lemma newline_byte : b2z newline = 10.
Proof. reflexivity. Qed.

(** On a valid text the loop of [scanComment] writes the bytes it reads up
    to the first newline, which it consumes, or to the end of the input. *)
Lemma scanCommentLoop_lossless fuel : forall s buf buf' s',
  wf s -> validText (rest s) -> scanCommentLoop fuel s buf = Ret buf' s' ->
  exists w, buf' = buf ++ w /\ ~ In newline w
    /\ (rest s = w ++ newline :: rest s' \/ (rest s = w /\ rest s' = [])).
Proof.
  induction fuel as [|f IH]; intros s buf buf' s' Hw V; [discriminate|].
  cbn [scanCommentLoop]. destruct (rest s) as [|c t] eqn:E.
  { rewrite (read_nil s Hw E). change (eof =? eof) with true. cbn [orb].
    intros [= <- <-]. exists []. rewrite app_nil_r. split; [reflexivity|].
    split; [intros []|]. right. split; [reflexivity|exact E]. }
  rewrite <- E in V.
  destruct (read_validText s c t Hw E V)
    as (ch & s1 & w & R & Hne & Hw0 & Ew & En & V1 & M).
  rewrite R. destruct (Z.eqb_spec ch eof); [contradiction|]. cbn [orb].
  pose proof (moved1_wf _ _ Hw M) as Hw1.
  destruct (Z.eqb_spec ch 10) as [N|N].
  - intros [= <- <-]. exists []. rewrite app_nil_r. split; [reflexivity|].
    split; [intros []|]. left.
    assert (A : ch < 0x80) by lia.
    destruct (ascii_written _ _ _ _ _ _ Hw E R n A Ew En) as (_ & Ec & T).
    rewrite T. cbn [app]. f_equal. apply b2z_inj. now rewrite Ec, N.
  - unfold WriteRune. rewrite En. intros H.
    destruct (IH _ _ _ _ Hw1 V1 H) as (w' & -> & Hn & D).
    exists (w ++ w'). rewrite app_assoc. split; [reflexivity|]. split.
    + intros Hi. apply in_app_or in Hi as [Hi|Hi]; [|now apply Hn].
      apply N. symmetry.
      apply (written_bytes _ _ _ _ _ _ Hw E R n Ew En _ Hi). vm_compute. reflexivity.
    + rewrite <- E, Ew, <- app_assoc.
      destruct D as [D|[D1 D2]]; [left; now rewrite D|right].
      rewrite D1, D2. auto.
Qed.

(** On valid UTF-8 input without a NUL byte, a [Comment] token without an
    error was scanned from two slashes and a body without a newline that
    goes up to the end of the line, whose newline is consumed too, or up to
    the end of the input; its literal is the body with the white space at
    both ends removed.  A [Comment] token with an error comes from a slash
    that no second slash follows: its error is the invalid-comment error,
    its literal is empty, and the character behind the slash, if any, is
    consumed with it. *)
Theorem comment_token (s s' : Scanner) (t : Token) (e : option error) :
  0 <= pos s <= len s -> validText (rest s) ->
  Scan s = Ret (t, e) s' -> Type_ t = TokenComment ->
  match e with
  | None =>
      exists body, ~ In newline body /\ Literal t = TrimSpace body
        /\ (rest s = "/"%char :: "/"%char :: body ++ newline :: rest s'
            \/ (rest s = "/"%char :: "/"%char :: body /\ rest s' = []))
  | Some err =>
      err = ErrInvalidComment /\ Literal t = []
      /\ ((rest s = ["/"%char] /\ rest s' = [])
          \/ exists c w, rest s = "/"%char :: c :: w ++ rest s'
               /\ c <> "/"%char /\ (b2z c < 0x80 -> w = []))
  end.
Proof.
  intros Hw V. unfold Scan. destruct (read s) as [ch s1] eqn:R.
  destruct (Z.eqb_spec ch eof) as [E|E]; [other_branch|].
  destruct (isWhitespaceRune ch); [other_branch|].
  destruct (isGroupStartRune ch); [other_branch|].
  destruct (isIdentifierStartRune ch); [other_branch|].
  destruct (isNumberStartRune ch); [other_branch|].
  destruct (isTextStartRune ch); [other_branch|].
  destruct (isSignStartRune ch); [other_branch|].
  destruct (isJoinStartRune ch); [other_branch|].
  destruct (isCommentStartRune ch) eqn:C; [|other_branch].
  destruct (comment_start_ascii _ C) as [_ A].
  rewrite (unread_ascii _ _ _ Hw R E A).
  assert (P : ch = rn "/") by (unfold isCommentStartRune in C; now apply Z.eqb_eq).
  destruct (read_ascii_inv _ _ _ Hw R E A) as (c & t0 & Er & Ec).
  assert (c = "/"%char) as -> by (apply b2z_inj; rewrite Ec; exact P).
  destruct (read_validText s _ t0 Hw Er V)
    as (ch' & s1' & w & R' & _ & _ & Ew & En & V1 & M).
  rewrite R in R'. injection R' as <- <-.
  destruct (ascii_written _ _ _ _ _ _ Hw Er R E A Ew En) as (_ & _ & T).
  pose proof (moved1_wf _ _ Hw M) as Hw1.
  unfold scanComment. rewrite R, C. cbn [negb]. intros H _. revert H.
  destruct t0 as [|c2 t2].
  { rewrite (read_nil s1 Hw1 T). change (isCommentStartRune eof) with false.
    cbn [negb]. intros [= <- <- <-]. cbn [Literal].
    split; [reflexivity|]. split; [reflexivity|]. left. now split. }
  destruct (read_validText s1 c2 t2 Hw1 T V1)
    as (ch2 & s2 & w2 & R2 & N2 & Hw2 & Ew2 & En2 & V2 & M2).
  rewrite R2. destruct (isCommentStartRune ch2) eqn:C2; cbn [negb].
  - (* the second slash *)
    destruct (comment_start_ascii _ C2) as [_ A2].
    assert (P2 : ch2 = rn "/") by (unfold isCommentStartRune in C2; now apply Z.eqb_eq).
    destruct (ascii_written _ _ _ _ _ _ Hw1 T R2 N2 A2 Ew2 En2) as (_ & Ec2 & T2).
    assert (c2 = "/"%char) as -> by (apply b2z_inj; rewrite Ec2; exact P2).
    destruct (scanCommentLoop _ _ _) as [buf s3| |] eqn:L; try discriminate.
    intros [= <- <- <-]. cbn [Literal].
    destruct (scanCommentLoop_lossless _ _ _ _ _ (moved1_wf _ _ Hw1 M2) V2 L)
      as (body & -> & Hn & D).
    exists body. split; [assumption|]. split; [reflexivity|].
    rewrite T2 in D. rewrite Er. destruct D as [D|[D1 D2]]; [left|right]; subst t2; [now rewrite D|now rewrite D1].
  - (* no second slash *)
    intros [= <- <- <-]. cbn [Literal].
    split; [reflexivity|]. split; [reflexivity|]. right.
    rewrite T in Ew2. destruct w2 as [|b w2]; [congruence|].
    cbn [app] in Ew2. injection Ew2 as <- Et2.
    exists c2, w2. split; [now rewrite Er, Et2|]. split.
    + intros ->. destruct (read_low s1 _ t2 Hw1 T ltac:(vm_compute; reflexivity))
        as (s2' & R2' & _).
      rewrite R2 in R2'. injection R2' as -> _. discriminate C2.
    + intros Lo. destruct (read_low s1 _ t2 Hw1 T Lo) as (s2' & R2' & _).
      rewrite R2 in R2'. injection R2' as -> _.
      pose proof (b2z_range c2). rewrite EncodeRune_ascii, z2b_b2z in En2 by lia.
      now injection En2 as <-.
Qed.

Lemma comment_token_witness :
  exists body, ~ In newline body
    /\ Literal (mkToken None TokenComment (B "note")) = TrimSpace body
    /\ (rest (NewScanner (B "// note " ++ newline :: B "a=1"))
        = "/"%char :: "/"%char :: body
          ++ newline :: rest (mkScanner (B "// note " ++ newline :: B "a=1") 9 3)
        \/ (rest (NewScanner (B "// note " ++ newline :: B "a=1"))
            = "/"%char :: "/"%char :: body
            /\ rest (mkScanner (B "// note " ++ newline :: B "a=1") 9 3) = [])).
Proof.
  apply (comment_token (NewScanner (B "// note " ++ newline :: B "a=1"))
           (mkScanner (B "// note " ++ newline :: B "a=1") 9 3)
           (mkToken None TokenComment (B "note")) None).
  - cbn; lia.
  - exists 30%nat. vm_compute. reflexivity.
  - vm_compute. reflexivity.
  - reflexivity.
Defined.


(** ** The extent of identifiers and of function calls *)

Lemma scanFunctionArgsLoop_token fuel : forall name depth s args ec t e s',
  scanFunctionArgsLoop fuel name depth s args ec = Ret (t, e) s' ->
  exists args', t = functionToken name args'.
Proof.
  induction fuel as [|f IH]; intros name depth s args ec t e s'; [discriminate|].
  cbn [scanFunctionArgsLoop]. destruct (read s) as [ch s1].
  repeat match goal with
  | |- (if ?c then _ else _) = _ -> _ => destruct c
  | |- match ?o with Ret _ _ => _ | Panic => _ | OutOfFuel => _ end = _ -> _ =>
      destruct o as [[? [?|]] ?| |]
  | |- Ret _ _ = Ret _ _ -> _ => intros [= <- <- <-]; eexists; reflexivity
  | |- scanFunctionArgsLoop f _ _ _ _ _ = _ -> _ => apply IH
  | |- Panic = _ -> _ => discriminate
  | |- OutOfFuel = _ -> _ => discriminate
  end.
Qed.

Lemma paren_byte c : b2z c = rn "(" -> c = "("%char.
Proof. apply b2z_inj. Qed.

Lemma high_not_identifier ch : 0x80 <= ch -> isIdentifierRune ch = false.
Proof.
  intros H. destruct (isIdentifierRune ch) eqn:I; [|reflexivity].
  apply identifier_rune_ascii in I. lia.
Qed.

(** The bytes between two positions of the cursor. *)
Lemma moved_rest k s s2 : wf s -> 0 <= k -> moved k s s2 ->
  exists x, rest s = x ++ rest s2.
Proof.
  intros Hw Hk (D & _ & P). unfold rest, wf in *. rewrite D.
  exists (firstn (Z.to_nat (pos s2 - pos s)) (skipn (Z.to_nat (pos s)) (data s))).
  replace (Z.to_nat (pos s2)) with (Z.to_nat (pos s2 - pos s) + Z.to_nat (pos s))%nat
    by lia.
  rewrite <- skipn_skipn. symmetry. apply firstn_skipn.
Qed.

(** The loop of [scanFunctionArgs] ends without an error only behind a
    [)]. *)
Lemma scanFunctionArgsLoop_closed f : forall name depth s args ec t s',
  wf s -> (2 * remaining s + 1 <= f)%nat ->
  scanFunctionArgsLoop f name depth s args ec = Ret (t, None) s' ->
  exists mid, rest s = mid ++ ")"%char :: rest s'.
Proof.
  induction f as [|f IH]; intros name depth s args ec t s' Hw Hf; [discriminate|].
  cbn [scanFunctionArgsLoop]. step_read Hw.
  destruct (Z.eqb_spec ch eof) as [E|E]; [discriminate|].
  specialize (M1 E).
  assert (Hw1 : wf s1) by (apply (moved_wf 1 s s1); [lia|assumption|assumption]).
  pose proof (moved_remaining 1 _ _ ltac:(lia) M1) as Hr.
  assert (Hnext : forall s2 a c, moved 1 s s2 ->
            scanFunctionArgsLoop f name depth s2 a c = Ret (t, None) s' ->
            exists mid, rest s = mid ++ ")"%char :: rest s').
  { intros s2 a c M H.
    pose proof (moved_remaining 1 _ _ ltac:(lia) M).
    destruct (IH _ _ _ _ _ _ _ (moved1_wf _ _ Hw M) ltac:(lia) H) as [mid' E'].
    destruct (moved_rest 1 s s2 Hw ltac:(lia) M) as [x Ex].
    exists (x ++ mid'). now rewrite Ex, E', app_assoc. }
  assert (Hsub : forall (o : scanned) (wrap : Token -> error -> error)
                   (next : Token -> list Token) c,
            scans 1 s o ->
            match o with
            | Ret (t1, Some err) s2 =>
                Ret (functionToken name args, Some (wrap t1 err)) s2
            | Ret (t1, None) s2 =>
                scanFunctionArgsLoop f name depth s2 (next t1) c
            | Panic => Panic
            | OutOfFuel => OutOfFuel
            end = Ret (t, None) s' ->
            exists mid, rest s = mid ++ ")"%char :: rest s').
  { intros o wrap next c (t1 & e1 & s2 & -> & M & _). destruct e1; [discriminate|].
    now apply Hnext. }
  destruct (Z.eqb_spec ch (rn ")")) as [P|P].
  { intros [= <- <-].
    assert (A : ch < 0x80) by (rewrite P; vm_compute; reflexivity).
    destruct (read_ascii_inv _ _ _ Hw R E A) as (c & t0 & Er & Ec).
    destruct (read_low s c t0 Hw Er ltac:(lia)) as (s1' & R' & T & _).
    rewrite R in R'. injection R' as _ <-.
    exists []. rewrite Er, T. cbn [app]. f_equal. apply b2z_inj. now rewrite Ec. }
  destruct (isWhitespaceRune ch).
  { destruct (scanWhitespace_any s1 Hw1) as (t1 & s2 & -> & M).
    apply Hnext. apply (moved_trans 1 0 s s1 s2); assumption. }
  destruct (isCommentStartRune ch) eqn:C.
  { destruct (comment_start_ascii _ C) as [_ Ha].
    rewrite (unread_ascii _ _ _ Hw R E Ha).
    apply (Hsub _ (fun _ err => ErrFuncComment name err) (fun _ => args)).
    eapply scanComment_scans; eauto. }
  destruct (ec && negb (ch =? rn ",")); [discriminate|].
  destruct (negb ec && (ch =? rn ",")); [discriminate|].
  destruct (ch =? rn ","); [now apply Hnext|].
  destruct (isIdentifierStartRune ch) eqn:I.
  { destruct (ident_start_ascii _ I) as [_ Ha].
    rewrite (unread_ascii _ _ _ Hw R E Ha).
    apply (Hsub _ (fun t1 err => ErrIdentifierArg (Literal t1) name err)
                 (fun t1 => args ++ [t1])).
    destruct (nested_scans f) as (_ & IHid & _).
    apply IHid; [assumption| |lia]. destruct M1 as (_ & _ & M1). lia. }
  destruct (isNumberStartRune ch) eqn:N.
  { destruct (number_start_ascii _ N) as [_ Ha].
    rewrite (unread_ascii _ _ _ Hw R E Ha).
    apply (Hsub _ (fun t1 err => ErrNumberArg (Literal t1) name err)
                 (fun t1 => args ++ [t1])).
    eapply scanNumber_scans; eauto. }
  destruct (isTextStartRune ch) eqn:T.
  { destruct (text_start_ascii _ T) as [_ Ha].
    rewrite (unread_ascii _ _ _ Hw R E Ha).
    apply (Hsub _ (fun t1 err => ErrTextArg (Literal t1) name err)
                 (fun t1 => args ++ [t1])).
    eapply scanText_scans; eauto. }
  discriminate.
Qed.

(** The loop of [scanIdentifier] writes the bytes it reads, all of them
    identifier characters, and leaves off as [identifierExtent] says. *)
Lemma scanIdentifierLoop_extent fuel : forall depth s buf t e s',
  wf s -> (2 * remaining s + 1 <= fuel)%nat ->
  scanIdentifierLoop fuel depth s buf = Ret (t, e) s' ->
  exists ext tail, Literal t = buf ++ ext /\ rest s = ext ++ tail
    /\ identifierExtent depth s t e s' tail.
Proof.
  induction fuel as [|f IH]; intros depth s buf t e s' Hw Hf; [discriminate|].
  cbn [scanIdentifierLoop].
  assert (Hstop : forall s0, identifierToken buf s0 = Ret (t, e) s' ->
            (forall c tl, rest s = c :: tl ->
               isIdentifierRune (b2z c) = false /\ c <> "("%char) ->
            exists ext tail, Literal t = buf ++ ext /\ rest s = ext ++ tail
              /\ identifierExtent depth s t e s' tail).
  { intros s0 H Hc. pose proof (identifierToken_type _ _ _ _ _ H) as Ty.
    apply identifierToken_inv in H as [L _].
    exists [], (rest s). rewrite app_nil_r. split; [exact L|].
    split; [reflexivity|]. split; [intros _; exact Hc|congruence]. }
  destruct (rest s) as [|c t0] eqn:E.
  { rewrite (read_nil s Hw E). change (eof =? eof) with true. cbn iota.
    intros H. apply (Hstop _ H). discriminate. }
  destruct (Z.ltb_spec (b2z c) 0x80) as [Lo|Hi].
  2:{ destruct (read_high s c t0 Hw E Hi) as (ch & n & s1 & R & Hc & _).
      rewrite R. destruct (Z.eqb_spec ch eof); [unfold eof in *; lia|].
      destruct (Z.eqb_spec ch (rn "(")) as [P|_];
        [rewrite P in Hc; vm_compute in Hc; now elim Hc|].
      rewrite identifier_exit_test, (high_not_identifier ch Hc). cbn [negb].
      intros H. apply (Hstop _ H). intros c' tl [= <- <-].
      split; [now apply high_not_identifier|].
      intros ->. vm_compute in Hi. now elim Hi. }
  destruct (read_low s c t0 Hw E Lo) as (s1 & R & T & M). rewrite R.
  pose proof (moved1_wf _ _ Hw M) as Hw1.
  pose proof (moved_remaining 1 _ _ ltac:(lia) M) as Hr.
  destruct (Z.eqb_spec (b2z c) eof) as [Z0|Z0].
  { intros H. apply (Hstop _ H). intros c' tl [= <- <-].
    rewrite Z0. split; [reflexivity|]. intros ->. discriminate Z0. }
  destruct (Z.eqb_spec (b2z c) (rn "(")) as [P|P].
  { apply paren_byte in P. subst c.
    assert (Hfun : forall e0 s0, Ret (mkToken None TokenFunction buf, e0) s0
                     = Ret (t, e) s' ->
              (depth <= 0 /\ e0 = Some (ErrMaxNestedFunc (maxFuncDepth s)))
              \/ (isValidIdentifier buf = Some false
                  /\ e0 = Some (ErrInvalidFuncName buf)) ->
              exists ext tail, Literal t = buf ++ ext
                /\ "("%char :: t0 = ext ++ tail
                /\ identifierExtent depth s t e s' tail).
    { intros e0 s0 [= <- <- <-] D. exists [], ("("%char :: t0). rewrite app_nil_r.
      unfold identifierExtent. cbn [Literal Type_ Meta].
      split; [reflexivity|]. split; [reflexivity|].
      split; [discriminate|]. intros _. split; [now exists t0|].
      split; [|intros _; exact D].
      intros ->. destruct D as [[_ D]|[_ D]]; discriminate D. }
    destruct (Z.leb_spec depth 0) as [Hd|Hd];
      [intros H; apply (Hfun _ _ H); now left|].
    destruct (isValidIdentifier buf) as [[|]|] eqn:V; try discriminate.
    2:{ intros H; apply (Hfun _ _ H). now right. }
    rewrite (unread_ascii _ _ _ Hw R Z0 Lo).
    destruct f as [|f']; [discriminate|]. cbn [scanFunctionArgsFuel]. rewrite R.
    change (negb (b2z "("%char =? rn "(")) with false. cbn iota.
    intros H. destruct (scanFunctionArgsLoop_token _ _ _ _ _ _ _ _ _ H) as [args ->].
    exists [], ("("%char :: t0). rewrite app_nil_r.
    unfold identifierExtent. cbn [Literal Type_ Meta functionToken].
    split; [reflexivity|]. split; [reflexivity|]. split; [discriminate|].
    intros _. split; [now exists t0|]. split; [|discriminate].
    intros ->.
    destruct (scanFunctionArgsLoop_closed f' _ _ _ _ _ _ _ Hw1 ltac:(lia) H)
      as [mid Em].
    exists mid. now rewrite <- Em, T. }
  rewrite identifier_exit_test.
  destruct (isIdentifierRune (b2z c)) eqn:I; cbn [negb].
  - rewrite WriteRune_byte by lia. intros H.
    destruct (IH _ _ _ _ _ _ Hw1 ltac:(lia) H) as (ext & tail & L & Er & X).
    exists (c :: ext), tail. split; [rewrite L, <- app_assoc; reflexivity|].
    rewrite T in Er. split; [cbn [app]; now rewrite Er|].
    unfold identifierExtent in *.
    destruct M as (_ & Md & _). rewrite Md in X. exact X.
  - intros H. apply (Hstop _ H). intros c' tl [= <- <-]. split; [exact I|].
    intros ->. now elim P.
Qed.

Lemma Scan_identifier_extent s t e s' : wf s -> Scan s = Ret (t, e) s' ->
  Type_ t = TokenIdentifier \/ Type_ t = TokenFunction ->
  exists tail, rest s = Literal t ++ tail
    /\ identifierExtent (maxFuncDepth s) s t e s' tail.
Proof.
  intros Hw. unfold Scan. destruct (read s) as [ch s1] eqn:R.
  assert (Hno : forall k, k <> TokenIdentifier -> k <> TokenFunction ->
            Type_ t = k ->
            Type_ t = TokenIdentifier \/ Type_ t = TokenFunction ->
            exists tail, rest s = Literal t ++ tail
              /\ identifierExtent (maxFuncDepth s) s t e s' tail).
  { intros k K1 K2 -> [X|X]; congruence. }
  destruct (Z.eqb_spec ch eof) as [E|E];
    [intros [= <- <- <-]; now apply (Hno TokenEOF)|].
  destruct (isWhitespaceRune ch);
    [intros H; apply scanWhitespace_type in H; now apply (Hno TokenWS)|].
  destruct (isGroupStartRune ch);
    [intros H; apply scanGroup_type in H; now apply (Hno TokenGroup)|].
  destruct (isIdentifierStartRune ch) eqn:C.
  2:{ destruct (isNumberStartRune ch);
        [intros H; apply scanNumber_type in H; now apply (Hno TokenNumber)|].
      destruct (isTextStartRune ch);
        [intros H; apply scanText_type in H; now apply (Hno TokenText)|].
      destruct (isSignStartRune ch);
        [intros H; apply scanSign_type in H; now apply (Hno TokenSign)|].
      destruct (isJoinStartRune ch);
        [intros H; apply scanJoin_type in H; now apply (Hno TokenJoin)|].
      destruct (isCommentStartRune ch);
        [intros H; apply scanComment_type in H; now apply (Hno TokenComment)|].
      intros [= <- <- <-]. now apply (Hno TokenUnexpected). }
  destruct (ident_start_ascii _ C) as [_ A].
  rewrite (unread_ascii _ _ _ Hw R E A).
  destruct (read_ascii_inv _ _ _ Hw R E A) as (c & t0 & Er & Ec).
  pose proof (b2z_range c) as Rc.
  destruct (read_low s c t0 Hw Er ltac:(lia)) as (s1' & R' & T & M).
  rewrite R in R'. injection R' as _ <-. subst ch.
  pose proof (moved_remaining 1 _ _ ltac:(lia) M) as Hr.
  unfold scanIdentifier, nestFuel.
  replace (2 * remaining s + 4)%nat with (S (2 * remaining s + 3)) by lia.
  cbn [scanIdentifierFuel]. rewrite R. rewrite WriteRune_byte by lia. cbn [app].
  intros H _.
  destruct (scanIdentifierLoop_extent (2 * remaining s + 3) _ _ _ _ _ _
              (moved1_wf _ _ Hw M) ltac:(lia) H) as (ext & tail & L & Et & X).
  exists tail. rewrite T in Et.
  split; [rewrite L, Er; cbn [app]; now rewrite Et|].
  unfold identifierExtent in *.
  destruct M as (_ & Md & _). rewrite Md in X. exact X.
Qed.

(** Whatever the input, the literal of an [Identifier] token stands first
    in the input that remained and is not followed by an identifier
    character (a letter, a digit, [.], [:] or [_]) nor by [(]: it is the
    longest run of identifier characters at the cursor. *)
Theorem identifier_token_extent (s s' : Scanner) (t : Token) (e : option error) :
  0 <= pos s <= len s -> Scan s = Ret (t, e) s' -> Type_ t = TokenIdentifier ->
  exists tail, rest s = Literal t ++ tail
    /\ forall c tl, tail = c :: tl ->
         isIdentifierRune (b2z c) = false /\ c <> "("%char.
Proof.
  intros Hw H T.
  destruct (Scan_identifier_extent _ _ _ _ Hw H (or_introl T)) as (tail & Er & Hi & _).
  exists tail. split; [exact Er|exact (Hi T)].
Qed.

Lemma identifier_token_extent_witness :
  exists tail,
    rest (mkScanner (B "id.x>=1") 0 3)
    = Literal (mkToken None TokenIdentifier (B "id.x")) ++ tail
    /\ forall c tl, tail = c :: tl ->
         isIdentifierRune (b2z c) = false /\ c <> "("%char.
Proof.
  apply (identifier_token_extent (mkScanner (B "id.x>=1") 0 3)
           (mkScanner (B "id.x>=1") 4 3) _ None).
  - cbn; lia.
  - vm_compute. reflexivity.
  - reflexivity.
Defined.

(** Whatever the input, the literal of a [Function] token is the name
    that stands in the input in front of a [(].  A [Function] token without
    an error holds its arguments, and what was consumed for it goes from the
    name up to a [)].  A [Function] token that holds no arguments (a nil
    [Meta]) was refused before its arguments were scanned, because no
    nesting depth was left or because the name is not a valid identifier. *)
Theorem function_token_extent (s s' : Scanner) (t : Token) (e : option error) :
  0 <= pos s <= len s -> Scan s = Ret (t, e) s' -> Type_ t = TokenFunction ->
  (exists tail, rest s = Literal t ++ "("%char :: tail)
  /\ (e = None ->
      exists args mid, Meta t = Some args
        /\ rest s = Literal t ++ "("%char :: mid ++ ")"%char :: rest s')
  /\ (Meta t = None ->
      (maxFuncDepth s <= 0 /\ e = Some (ErrMaxNestedFunc (maxFuncDepth s)))
      \/ (isValidIdentifier (Literal t) = Some false
          /\ e = Some (ErrInvalidFuncName (Literal t)))).
Proof.
  intros Hw H T.
  destruct (Scan_identifier_extent _ _ _ _ Hw H (or_intror T)) as (tail & Er & _ & Hf).
  destruct (Hf T) as ([tl Etl] & Hc & Hm).
  split; [exists tl; now rewrite Er, Etl|]. split; [|exact Hm].
  intros ->. destruct (Hc eq_refl) as [mid Em].
  destruct (Meta t) as [args|].
  - exists args, mid. split; [reflexivity|]. now rewrite Er, Em.
  - destruct (Hm eq_refl) as [[_ X]|[_ X]]; discriminate X.
Qed.

Lemma function_token_extent_witness :
  (exists tail,
     rest (NewScanner (B "f(a, 'b)') > 1"))
     = Literal (functionToken (B "f")
                  [mkToken None TokenIdentifier (B "a");
                   mkToken None TokenText (B "b)")]) ++ "("%char :: tail)
  /\ (@None error = None ->
      exists args mid,
        Meta (functionToken (B "f")
                [mkToken None TokenIdentifier (B "a");
                 mkToken None TokenText (B "b)")]) = Some args
        /\ rest (NewScanner (B "f(a, 'b)') > 1"))
           = Literal (functionToken (B "f")
                        [mkToken None TokenIdentifier (B "a");
                         mkToken None TokenText (B "b)")])
             ++ "("%char :: mid
             ++ ")"%char :: rest (mkScanner (B "f(a, 'b)') > 1") 10 3))
  /\ (Meta (functionToken (B "f")
              [mkToken None TokenIdentifier (B "a");
               mkToken None TokenText (B "b)")]) = None ->
      (maxFuncDepth (NewScanner (B "f(a, 'b)') > 1")) <= 0
       /\ @None error
          = Some (ErrMaxNestedFunc (maxFuncDepth (NewScanner (B "f(a, 'b)') > 1")))))
      \/ (isValidIdentifier
            (Literal (functionToken (B "f")
                        [mkToken None TokenIdentifier (B "a");
                         mkToken None TokenText (B "b)")])) = Some false
          /\ @None error
             = Some (ErrInvalidFuncName
                       (Literal (functionToken (B "f")
                                   [mkToken None TokenIdentifier (B "a");
                                    mkToken None TokenText (B "b)")]))))).
Proof.
  apply (function_token_extent (NewScanner (B "f(a, 'b)') > 1"))
           (mkScanner (B "f(a, 'b)') > 1") 10 3)
           (functionToken (B "f")
              [mkToken None TokenIdentifier (B "a"); mkToken None TokenText (B "b)")])
           None).
  - cbn; lia.
  - vm_compute. reflexivity.
  - reflexivity.
Defined.


(** ** The kind of a token *)

Ltac kind_iff C :=
  split;
  [ let X := fresh "X" in
    intros X; first [assumption | intuition congruence]
  | let Q := fresh "Q" in
    intros Q;
    first [assumption | congruence
          | exfalso; rune_class C; rune_class Q; lia] ].

Ltac kind_iffs C :=
  repeat match goal with |- _ /\ _ => split end; kind_iff C.

(** The first byte of the input that remains decides the kind of the
    token that [Scan] returns: the rune classes that [Scan] tests one after
    the other exclude each other, so that the order of its tests does not
    matter. *)
Theorem token_kind_by_first_byte (s s' : Scanner) (c : byte) (tl : list byte)
  (t : Token) (e : option error) :
  0 <= pos s <= len s -> rest s = c :: tl -> Scan s = Ret (t, e) s' ->
  (Type_ t = TokenEOF <-> b2z c = 0)
  /\ (Type_ t = TokenWS <-> isWhitespaceRune (b2z c) = true)
  /\ (Type_ t = TokenGroup <-> isGroupStartRune (b2z c) = true)
  /\ (Type_ t = TokenIdentifier \/ Type_ t = TokenFunction
      <-> isIdentifierStartRune (b2z c) = true)
  /\ (Type_ t = TokenNumber <-> isNumberStartRune (b2z c) = true)
  /\ (Type_ t = TokenText <-> isTextStartRune (b2z c) = true)
  /\ (Type_ t = TokenSign <-> isSignStartRune (b2z c) = true)
  /\ (Type_ t = TokenJoin <-> isJoinStartRune (b2z c) = true)
  /\ (Type_ t = TokenComment <-> isCommentStartRune (b2z c) = true).
Proof.
  intros Hw Er. unfold Scan. destruct (Z.ltb_spec (b2z c) 0x80) as [Lo|Hi].
  - destruct (read_low s c tl Hw Er Lo) as (s1 & -> & _). unfold eof.
    destruct (Z.eqb_spec (b2z c) 0) as [E|E].
    { intros [= <- <- <-]. cbn [Type_]. kind_iffs E. }
    destruct (isWhitespaceRune (b2z c)) eqn:C1.
    { intros H. apply scanWhitespace_type in H. kind_iffs C1. }
    destruct (isGroupStartRune (b2z c)) eqn:C2.
    { intros H. apply scanGroup_type in H. kind_iffs C2. }
    destruct (isIdentifierStartRune (b2z c)) eqn:C3.
    { intros H. apply scanIdentifier_type in H. kind_iffs C3. }
    destruct (isNumberStartRune (b2z c)) eqn:C4.
    { intros H. apply scanNumber_type in H. kind_iffs C4. }
    destruct (isTextStartRune (b2z c)) eqn:C5.
    { intros H. apply scanText_type in H. kind_iffs C5. }
    destruct (isSignStartRune (b2z c)) eqn:C6.
    { intros H. apply scanSign_type in H. kind_iffs C6. }
    destruct (isJoinStartRune (b2z c)) eqn:C7.
    { intros H. apply scanJoin_type in H. kind_iffs C7. }
    destruct (isCommentStartRune (b2z c)) eqn:C8.
    { intros H. apply scanComment_type in H. kind_iffs C8. }
    intros [= <- <- <-]. cbn [Type_]. kind_iffs E.
  - destruct (read_high s c tl Hw Er Hi) as (ch & n & s1 & -> & Hc & _).
    destruct (Z.eqb_spec ch eof) as [E|_]; [unfold eof in E; lia|].
    repeat match goal with
    | |- (if ?p ch then _ else _) = _ -> _ =>
        let Q := fresh "Q" in
        destruct (p ch) eqn:Q; [exfalso; rune_class Q; lia|clear Q]
    end.
    intros [= <- <- <-]. cbn [Type_]. kind_iffs Hi.
Qed.

Lemma token_kind_by_first_byte_witness :
  (Type_ (mkToken None TokenSign (B ">=")) = TokenEOF <-> b2z ">"%char = 0)
  /\ (Type_ (mkToken None TokenSign (B ">=")) = TokenWS
      <-> isWhitespaceRune (b2z ">"%char) = true)
  /\ (Type_ (mkToken None TokenSign (B ">=")) = TokenGroup
      <-> isGroupStartRune (b2z ">"%char) = true)
  /\ (Type_ (mkToken None TokenSign (B ">=")) = TokenIdentifier
      \/ Type_ (mkToken None TokenSign (B ">=")) = TokenFunction
      <-> isIdentifierStartRune (b2z ">"%char) = true)
  /\ (Type_ (mkToken None TokenSign (B ">=")) = TokenNumber
      <-> isNumberStartRune (b2z ">"%char) = true)
  /\ (Type_ (mkToken None TokenSign (B ">=")) = TokenText
      <-> isTextStartRune (b2z ">"%char) = true)
  /\ (Type_ (mkToken None TokenSign (B ">=")) = TokenSign
      <-> isSignStartRune (b2z ">"%char) = true)
  /\ (Type_ (mkToken None TokenSign (B ">=")) = TokenJoin
      <-> isJoinStartRune (b2z ">"%char) = true)
  /\ (Type_ (mkToken None TokenSign (B ">=")) = TokenComment
      <-> isCommentStartRune (b2z ">"%char) = true).
Proof.
  apply (token_kind_by_first_byte (mkScanner (B "a>=1") 1 3)
           (mkScanner (B "a>=1") 3 3) ">"%char (B "=1") _ None).
  - cbn; lia.
  - reflexivity.
  - vm_compute. reflexivity.
Defined.

(** An [Unexpected] token always comes with the unexpected-character
    error for the rune that was read; one rune is consumed, and the literal
    is the encoding of that rune: on valid UTF-8 input, the bytes that were
    consumed. *)
Theorem unexpected_token (s s' : Scanner) (t : Token) (e : option error) :
  0 <= pos s <= len s -> Scan s = Ret (t, e) s' -> Type_ t = TokenUnexpected ->
  exists ch, read s = (ch, s') /\ ch <> eof
    /\ e = Some (ErrUnexpectedChar ch)
    /\ Literal t = utf8.EncodeRune ch
    /\ (validText (rest s) -> rest s = Literal t ++ rest s').
Proof.
  intros Hw. unfold Scan. destruct (read s) as [ch s1] eqn:R.
  destruct (Z.eqb_spec ch eof) as [E|E]; [other_branch|].
  destruct (isWhitespaceRune ch); [other_branch|].
  destruct (isGroupStartRune ch); [other_branch|].
  destruct (isIdentifierStartRune ch); [other_branch|].
  destruct (isNumberStartRune ch); [other_branch|].
  destruct (isTextStartRune ch); [other_branch|].
  destruct (isSignStartRune ch); [other_branch|].
  destruct (isJoinStartRune ch); [other_branch|].
  destruct (isCommentStartRune ch); [other_branch|].
  intros [= <- <- <-] _. cbn [Literal]. exists ch.
  split; [reflexivity|]. split; [assumption|]. split; [reflexivity|].
  split; [reflexivity|]. intros V.
  destruct (rest s) as [|c tl] eqn:Er.
  { rewrite (read_nil s Hw Er) in R. injection R as <- _. now elim E. }
  rewrite <- Er in V.
  destruct (read_validText s c tl Hw Er V) as (ch' & s1' & w & R' & _ & _ & Ew & En & _).
  rewrite R in R'. injection R' as <- <-. rewrite En, <- Er. exact Ew.
Qed.

Lemma unexpected_token_witness :
  exists ch, read (mkScanner (B "a % b") 2 3) = (ch, mkScanner (B "a % b") 3 3)
    /\ ch <> eof
    /\ Some (ErrUnexpectedChar (rn "%")) = Some (ErrUnexpectedChar ch)
    /\ Literal (mkToken None TokenUnexpected (B "%")) = utf8.EncodeRune ch
    /\ (validText (rest (mkScanner (B "a % b") 2 3)) ->
        rest (mkScanner (B "a % b") 2 3)
        = Literal (mkToken None TokenUnexpected (B "%"))
          ++ rest (mkScanner (B "a % b") 3 3)).
Proof.
  apply (unexpected_token (mkScanner (B "a % b") 2 3) (mkScanner (B "a % b") 3 3)
           (mkToken None TokenUnexpected (B "%")) (Some (ErrUnexpectedChar (rn "%")))).
  - cbn; lia.
  - vm_compute. reflexivity.
  - reflexivity.
Defined.


(** ** The end-of-input marker of read *)

(** [read] returns its end-of-input marker in two cases only: at the end
    of the buffer, where the cursor stays, and on a NUL byte, over which
    the cursor moves.  In every case the buffer is unchanged and the cursor
    stays inside it; unless it was at the end, it has moved forward. *)
Theorem read_eof_and_bounds (s s1 : Scanner) (ch : rune) :
  0 <= pos s <= len s -> read s = (ch, s1) ->
  (ch = eof <-> rest s = [] \/ exists tl, rest s = zero :: tl)
  /\ (rest s = [] -> s1 = s)
  /\ (rest s <> [] -> pos s + 1 <= pos s1)
  /\ data s1 = data s /\ maxFuncDepth s1 = maxFuncDepth s
  /\ 0 <= pos s1 <= len s1.
Proof.
  intros Hw R. destruct (read_moved _ _ _ Hw R) as (M0 & Hch & _ & M1).
  pose proof (moved_wf 0 _ _ ltac:(lia) Hw M0) as Hw1.
  destruct M0 as (D & Md & P0).
  split; [|split; [|split; [|split; [exact D|split; [exact Md|exact Hw1]]]]].
  - destruct (rest s) as [|c tl] eqn:Er.
    { rewrite (read_nil s Hw Er) in R. injection R as <- _.
      split; [now left|reflexivity]. }
    destruct (Z.ltb_spec (b2z c) 0x80) as [Lo|Hi].
    + destruct (read_low s c tl Hw Er Lo) as (s1' & R' & _).
      rewrite R in R'. injection R' as -> _. split.
      * intros E. right. exists tl. f_equal. apply b2z_inj. exact E.
      * intros [X|[tl' X]]; [discriminate X|]. injection X as -> _. reflexivity.
    + destruct (read_high s c tl Hw Er Hi) as (ch' & n & s1' & R' & Hc & _).
      rewrite R in R'. injection R' as <- _. split.
      * unfold eof. lia.
      * intros [X|[tl' X]]; [discriminate X|]. injection X as -> _.
        vm_compute in Hi. now elim Hi.
  - intros Er. rewrite (read_nil s Hw Er) in R. now injection R as _ <-.
  - intros Er. pose proof (rest_length s Hw) as L.
    destruct (rest s) as [|c tl]; [now elim Er|]. cbn [List.length] in L.
    destruct (M1 ltac:(lia)) as (_ & _ & P1). lia.
Qed.

Lemma read_eof_and_bounds_witness :
  (eof = eof <-> rest (mkScanner (B "a" ++ zero :: B "b") 1 3) = []
                 \/ exists tl, rest (mkScanner (B "a" ++ zero :: B "b") 1 3)
                               = zero :: tl)
  /\ (rest (mkScanner (B "a" ++ zero :: B "b") 1 3) = [] ->
      mkScanner (B "a" ++ zero :: B "b") 2 3 = mkScanner (B "a" ++ zero :: B "b") 1 3)
  /\ (rest (mkScanner (B "a" ++ zero :: B "b") 1 3) <> [] ->
      pos (mkScanner (B "a" ++ zero :: B "b") 1 3) + 1
      <= pos (mkScanner (B "a" ++ zero :: B "b") 2 3))
  /\ data (mkScanner (B "a" ++ zero :: B "b") 2 3)
     = data (mkScanner (B "a" ++ zero :: B "b") 1 3)
  /\ maxFuncDepth (mkScanner (B "a" ++ zero :: B "b") 2 3)
     = maxFuncDepth (mkScanner (B "a" ++ zero :: B "b") 1 3)
  /\ 0 <= pos (mkScanner (B "a" ++ zero :: B "b") 2 3)
       <= len (mkScanner (B "a" ++ zero :: B "b") 2 3).
Proof.
  apply (read_eof_and_bounds (mkScanner (B "a" ++ zero :: B "b") 1 3)
           (mkScanner (B "a" ++ zero :: B "b") 2 3) eof).
  - cbn; lia.
  - reflexivity.
Defined.
